(** * Sorting algorithms and timing harness: model and verification

    The Python sources [algorithms/sorting.py] and
    [experiments/experiment.py] are embedded as Rocq functions.

    - Python list objects live in a store that maps object identities to
      their current contents, so that copying ([list(arr)]), in-place
      assignment ([a[j] = v]) and aliasing are visible.
    - A statement sequence is a computation in a state-and-exception monad
      over that store.  [IndexError] is an exception of the model.
    - [for] loops run over the list produced by [range]; [while] loops and
      recursive calls take a fuel argument that bounds iterations and
      recursion depth; running out of fuel is an outcome of its own. *)

From stdpp Require Import gmap list strings.
From Stdlib Require Import ZArith Sorted Permutation Lia Reals Lra Ascii.
From Equations Require Import Equations.

Open Scope Z_scope.

(** ** Comparable elements *)

(** The rich comparison operators an element type offers to the code:
    [<], [<=], [==] and [>]. *)
Class Cmp (T : Type) := {
  py_lt : T -> T -> bool;
  py_le : T -> T -> bool;
  py_eq : T -> T -> bool;
  py_gt : T -> T -> bool
}.

(** Mutually comparable elements of a totally ordered type: [<=] is total
    and transitive and the three other operators agree with it.  Elements
    that compare equal need not be identical, which is what makes
    stability observable. *)
Class TotalOrder (T : Type) `{Cmp T} : Prop := {
  py_le_total : forall x y, py_le x y = true \/ py_le y x = true;
  py_le_trans : forall x y z, py_le x y = true -> py_le y z = true -> py_le x z = true;
  py_lt_le : forall x y, py_lt x y = negb (py_le y x);
  py_gt_le : forall x y, py_gt x y = negb (py_le x y);
  py_eq_le : forall x y, py_eq x y = py_le x y && py_le y x
}.

(** ** The platform's built-in sort *)

Section Reference.
Context {T : Type} `{Cmp T}.

Fixpoint insert_stable (x : T) (l : list T) : list T :=
  match l with
  | [] => [x]
  | y :: l' => if py_lt y x then y :: insert_stable x l' else x :: y :: l'
  end.

(** Modelled from the spec: the platform's built-in [sorted], which is not
    part of the repository.  It is a stable sort into non-decreasing order
    that compares with [<] only; any function with these properties
    returns the same list ([sorted_unique] below). *)
Fixpoint sorted (l : list T) : list T :=
  match l with
  | [] => []
  | x :: l' => insert_stable x (sorted l')
  end.

(** Non-decreasing order. *)
Definition le_rel (x y : T) : Prop := py_le x y = true.

(** [ys] holds the elements of [xs] and elements that compare equal are in
    the same relative order: for every key, the subsequence of elements
    equal to it is the same in both lists. *)
Definition stable_perm (xs ys : list T) : Prop :=
  forall k, List.filter (py_eq k) ys = List.filter (py_eq k) xs.

End Reference.

(** ** Objects, store and computations *)

Definition loc := nat.

Inductive exn := IndexError | Dangling.

Inductive outcome (S A : Type) :=
| Done (a : A) (s : S)
| Raise (e : exn)
| OutOfFuel.
Arguments Done {S A} a s.
Arguments Raise {S A} e.
Arguments OutOfFuel {S A}.

Section Machine.
Context {T : Type}.

Local Abbreviation store := (gmap loc (list T)).

Definition M (A : Type) : Type := store -> outcome store A.

Definition ret {A} (a : A) : M A := fun s => Done a s.

Definition bind {A B} (m : M A) (k : A -> M B) : M B :=
  fun s => match m s with
           | Done a s' => k a s'
           | Raise e => Raise e
           | OutOfFuel => OutOfFuel
           end.

Definition raise {A} (e : exn) : M A := fun _ => Raise e.
Definition timeout {A} : M A := fun _ => OutOfFuel.

End Machine.

Global Instance M_ret {T : Type} : MRet (M (T:=T)) := fun A a => ret a.
Global Instance M_bind {T : Type} : MBind (M (T:=T)) := fun A B k m => bind m k.

Section Primitives.
Context {T : Type} `{Cmp T}.

Local Abbreviation store := (gmap loc (list T)).

(** A new list object with contents [xs]. *)
Definition alloc (xs : list T) : M (T:=T) loc :=
  fun s => let l := fresh (dom s) in Done l (<[l := xs]> s).

Definition contents (l : loc) : M (list T) :=
  fun s => match s !! l with
           | Some xs => Done xs s
           | None => Raise Dangling
           end.

Definition put (l : loc) (xs : list T) : M unit :=
  fun s => Done tt (<[l := xs]> s).

(** Position denoted by the subscript [i] in a list of length [n]:
    negative subscripts count from the end. *)
Definition norm_index (n : nat) (i : Z) : option nat :=
  if 0 <=? i then (if i <? Z.of_nat n then Some (Z.to_nat i) else None)
  else if 0 <=? Z.of_nat n + i then Some (Z.to_nat (Z.of_nat n + i)) else None.

(** Bound of a slice, clamped to the list. *)
Definition clamp (n : nat) (k : Z) : nat :=
  if k <? 0 then Z.to_nat (Z.max 0 (Z.of_nat n + k))
  else Z.to_nat (Z.min k (Z.of_nat n)).

(** [len(a)] *)
Definition len (a : loc) : M Z :=
  xs ← contents a; ret (Z.of_nat (length xs)).

(** [a[i]] *)
Definition getitem (a : loc) (i : Z) : M T :=
  xs ← contents a;
  match norm_index (length xs) i with
  | Some k => match xs !! k with Some x => ret x | None => raise IndexError end
  | None => raise IndexError
  end.

(** [a[i] = v] *)
Definition setitem (a : loc) (i : Z) (v : T) : M unit :=
  xs ← contents a;
  match norm_index (length xs) i with
  | Some k => put a (<[k := v]> xs)
  | None => raise IndexError
  end.

(** [a.append(v)] *)
Definition append (a : loc) (v : T) : M unit :=
  xs ← contents a; put a (xs ++ [v]).

(** [a.extend(b)] *)
Definition extend (a b : loc) : M unit :=
  xs ← contents a; ys ← contents b; put a (xs ++ ys).

(** [a[:hi]] *)
Definition slice_to (a : loc) (hi : Z) : M loc :=
  xs ← contents a; alloc (take (clamp (length xs) hi) xs).

(** [a[lo:]] *)
Definition slice_from (a : loc) (lo : Z) : M loc :=
  xs ← contents a; alloc (drop (clamp (length xs) lo) xs).

(** [list(a)] *)
Definition list_ (a : loc) : M loc :=
  xs ← contents a; alloc xs.

(** [[x for x in a if p x]] *)
Definition list_comp (a : loc) (p : T -> bool) : M loc :=
  xs ← contents a; alloc (List.filter p xs).

(** [a + b] *)
Definition concat_ (a b : loc) : M loc :=
  xs ← contents a; ys ← contents b; alloc (xs ++ ys).

(** [sorted(a)] *)
Definition sorted_ (a : loc) : M loc :=
  xs ← contents a; alloc (sorted xs).

(** [range(lo, hi)] *)
Definition range (lo hi : Z) : list Z :=
  (fun k => lo + Z.of_nat k) <$> seq 0 (Z.to_nat (hi - lo)).

(** [for x in xs: s = body(x, s)] *)
Fixpoint for_each {X S} (xs : list X) (s : S) (body : X -> S -> M (T:=T) S) : M S :=
  match xs with
  | [] => ret s
  | x :: xs' => s' ← body x s; for_each xs' s' body
  end.

(** [for x in xs: body(x)], where [body] returns [true] to [break]. *)
Fixpoint for_break {X} (xs : list X) (body : X -> M (T:=T) bool) : M unit :=
  match xs with
  | [] => ret tt
  | x :: xs' => brk ← body x; if brk : bool then ret tt else for_break xs' body
  end.

(** [while cond(s): s = body(s)], at most [fuel] evaluations of [cond]. *)
Fixpoint while_ {S} (fuel : nat) (cond : S -> M (T:=T) bool) (body : S -> M S) (s : S) : M S :=
  match fuel with
  | O => timeout
  | S fuel' =>
      b ← cond s;
      if b : bool then s' ← body s; while_ fuel' cond body s' else ret s
  end.

End Primitives.

(** ** The sorting functions of [algorithms/sorting.py] *)

Section Sorting.
Context {T : Type} `{Cmp T}.

Local Abbreviation store := (gmap loc (list T)).

(** [bubble_sort], lines 23-49.  One iteration of the inner loop: the
    comparison of [a[j]] with [a[j + 1]] and the exchange
    [a[j], a[j + 1] = a[j + 1], a[j]], which reads both elements again
    before it writes. *)
Definition bubble_step (a : loc) (j : Z) (swapped : bool) : M (T:=T) bool :=
  x ← getitem a j;
  y ← getitem a (j + 1);
  if py_gt x y then
    y' ← getitem a (j + 1);
    x' ← getitem a j;
    setitem a j y';;
    setitem a (j + 1) x';;
    ret true
  else ret swapped.

(** One iteration of the outer loop of [bubble_sort]; the result says
    whether the loop is left. *)
Definition bubble_pass (a : loc) (n i : Z) : M (T:=T) bool :=
  swapped ← for_each (range 0 (n - 1 - i)) false (bubble_step a);
  ret (negb swapped).

Definition bubble_sort (arr : loc) : M (T:=T) loc :=
  a ← list_ arr;
  n ← len a;
  for_break (range 0 n) (bubble_pass a n);;
  ret a.

(** [insertion_sort], lines 52-75.  The [while] loop: its condition
    [j >= 0 and a[j] > key], which does not read [a[j]] when [j] is
    negative, and its body. *)
Definition shift_cond (a : loc) (key : T) (j : Z) : M (T:=T) bool :=
  if 0 <=? j then x ← getitem a j; ret (py_gt x key) else ret false.

Definition shift_body (a : loc) (j : Z) : M (T:=T) Z :=
  x ← getitem a j;
  setitem a (j + 1) x;;
  ret (j - 1).

Definition insertion_step (fuel : nat) (a : loc) (i : Z) (_ : unit) : M (T:=T) unit :=
  key ← getitem a i;
  j ← while_ fuel (shift_cond a key) (shift_body a) (i - 1);
  setitem a (j + 1) key.

Definition insertion_sort (fuel : nat) (arr : loc) : M (T:=T) loc :=
  a ← list_ arr;
  n ← len a;
  for_each (range 1 n) tt (insertion_step fuel a);;
  ret a.

(** [merge_sort], lines 78-111.  The [while] loop of [_merge]: its
    condition [i < len(left) and j < len(right)] and its body, on the pair
    of the two positions. *)
Definition merge_cond (left right : loc) (ij : Z * Z) : M (T:=T) bool :=
  nl ← len left;
  if fst ij <? nl then nr ← len right; ret (snd ij <? nr) else ret false.

Definition merge_body (left right out : loc) (ij : Z * Z) : M (T:=T) (Z * Z) :=
  x ← getitem left (fst ij);
  y ← getitem right (snd ij);
  if py_le x y then
    x' ← getitem left (fst ij);
    append out x';;
    ret (fst ij + 1, snd ij)
  else
    y' ← getitem right (snd ij);
    append out y';;
    ret (fst ij, snd ij + 1).

Definition _merge (fuel : nat) (left right : loc) : M (T:=T) loc :=
  out ← alloc [];
  ij ← while_ fuel (merge_cond left right) (merge_body left right out) (0, 0);
  tl ← slice_from left (fst ij);
  extend out tl;;
  tr ← slice_from right (snd ij);
  extend out tr;;
  ret out.

(** [fuel] bounds the depth of the recursion, and the loop of the merge at
    each level; [//] on integers that are not negative is [Z.div]. *)
Fixpoint merge_sort (fuel : nat) (arr : loc) : M (T:=T) loc :=
  match fuel with
  | O => timeout
  | S fuel' =>
      n ← len arr;
      if n <=? 1 then list_ arr
      else
        m ← len arr;
        let mid := m / 2 in
        l ← slice_to arr mid;
        left ← merge_sort fuel' l;
        r ← slice_from arr mid;
        right ← merge_sort fuel' r;
        _merge fuel left right
  end.

(** [quick_sort], lines 114-139; [fuel] bounds the depth of the recursion.
    In [quick_sort(left) + middle + quick_sort(right)] the left sum is
    built before the right call. *)
Fixpoint quick_sort (fuel : nat) (arr : loc) : M (T:=T) loc :=
  match fuel with
  | O => timeout
  | S fuel' =>
      a ← list_ arr;
      n ← len a;
      if n <=? 1 then ret a
      else
        m ← len a;
        pivot ← getitem a (m / 2);
        left ← list_comp a (fun x => py_lt x pivot);
        middle ← list_comp a (fun x => py_eq x pivot);
        right ← list_comp a (fun x => py_gt x pivot);
        ql ← quick_sort fuel' left;
        t ← concat_ ql middle;
        qr ← quick_sort fuel' right;
        concat_ t qr
  end.

(** [python_sort], lines 142-147. *)
Definition python_sort (arr : loc) : M (T:=T) loc := sorted_ arr.

End Sorting.

(** ** Element types and inputs of the examples *)

(** Python integers with their comparison operators. *)
Global Instance Z_cmp : Cmp Z :=
  {| py_lt := Z.ltb; py_le := Z.leb; py_eq := Z.eqb; py_gt := Z.gtb |}.

(** Records that are compared by their key alone: two of them with the
    same key compare equal and can still be told apart by their tag. *)
Record item := Item { item_key : Z; item_tag : Z }.

Global Instance item_cmp : Cmp item :=
  {| py_lt x y := item_key x <? item_key y;
     py_le x y := item_key x <=? item_key y;
     py_eq x y := item_key x =? item_key y;
     py_gt x y := item_key x >? item_key y |}.

(** Integers under a comparison that is not an order: [x <= y] answers
    whether [x + y] is even, [<] and [>] are the negations and [==] the
    conjunction, as for an order.  What a sorting function returns under
    it shows which elements it compares, and in which order. *)
Definition parity_cmp : Cmp Z :=
  {| py_lt x y := negb (Z.even (y + x));
     py_le x y := Z.even (x + y);
     py_eq x y := Z.even (x + y) && Z.even (y + x);
     py_gt x y := negb (Z.even (x + y)) |}.

(** The list that [run] returns a reference to, if it returns. *)
Definition result_list {T : Type} (o : outcome (gmap loc (list T)) loc) : option (list T) :=
  match o with
  | Done r s => s !! r
  | _ => None
  end.

(** The store after [run], if it returns. *)
Definition result_store {T : Type} (o : outcome (gmap loc (list T)) loc)
    : option (gmap loc (list T)) :=
  match o with
  | Done _ s => Some s
  | _ => None
  end.

(** The list of the test [test_with_duplicates], as the only object of a
    store, and a list of records with repeated keys. *)
Definition example_list : list Z := [5; 1; 3; 5; 2; 1; 4].

Definition example_store : gmap loc (list Z) := {[ 0%nat := example_list ]}.

Definition example_items : list item :=
  [Item 2 0; Item 1 1; Item 2 2; Item 1 3; Item 2 4].

Definition example_item_store : gmap loc (list item) := {[ 0%nat := example_items ]}.

(** ** The timing harness of [experiments/experiment.py] *)

(** The functions under test. *)
Inductive algo := Bubble | Insertion | Merge | Quick | Timsort.

(** The dictionary [algos], in insertion order. *)
Definition algos : list (string * algo) :=
  [("Bubble", Bubble); ("Insertion", Insertion); ("Merge", Merge);
   ("Quick", Quick); ("Timsort", Timsort)]%string.

Definition run_algo (fuel : nat) (f : algo) (arr : loc) : M (T:=Z) loc :=
  match f with
  | Bubble => bubble_sort arr
  | Insertion => insertion_sort fuel arr
  | Merge => merge_sort fuel arr
  | Quick => quick_sort fuel arr
  | Timsort => python_sort arr
  end.

Definition Rsum (xs : list R) : R := foldr Rplus 0%R xs.

(** Modelled from the spec: [statistics.mean] of the platform, the
    arithmetic mean; it raises [StatisticsError] on no data.  Floating
    point numbers are taken as the reals they denote. *)
Definition mean (xs : list R) : option R :=
  match xs with
  | [] => None
  | _ => Some (Rsum xs / INR (length xs))%R
  end.

(** Modelled from the spec: [statistics.pstdev] of the platform, the
    population standard deviation: the square root of the mean of the
    squared deviations from the mean, with divisor the number of data. *)
Definition pstdev (xs : list R) : option R :=
  match mean xs with
  | None => None
  | Some mu =>
      Some (sqrt (Rsum ((fun x => (x - mu) * (x - mu))%R <$> xs) / INR (length xs)))
  end.

(** [statistics.stdev], the sample standard deviation with divisor
    [n - 1], which the harness does not use. *)
Definition sample_stdev (xs : list R) : option R :=
  match mean xs with
  | None => None
  | Some mu =>
      if decide (length xs = 1%nat) then None
      else Some (sqrt (Rsum ((fun x => (x - mu) * (x - mu))%R <$> xs)
                       / INR (length xs - 1)))
  end.

(** [[s for s in sizes if s <= 1024]] for the two quadratic algorithms,
    [sizes] for the others. *)
Definition sizes_to_run (name : string) (sizes : list Z) : list Z :=
  if (String.eqb name "Bubble" || String.eqb name "Insertion")%string
  then List.filter (fun s => s <=? 1024) sizes
  else sizes.

Definition default_sizes : list Z := [128; 256; 512; 1024; 2048; 4096].

Inductive herror :=
| StatisticsError
| KeyError
| SortRaise (e : exn)
| SortOutOfFuel.

Section Harness.
(** The pseudorandom generator and the clock are the environment of a run:
    [seed_rng] is [random.seed], [randint g a b] draws from [[a, b]] and
    gives the next generator state, [clock k] is what the [k]-th call of
    [time.perf_counter] returns.  [fuel] bounds the sorting functions. *)
Context {G : Type} (seed_rng : Z -> G) (randint : G -> Z -> Z -> Z * G).
Context (clock : nat -> R) (fuel : nat).

Record world := World {
  heap : gmap loc (list Z);
  gen : G;
  ticks : nat
}.

Inductive hres (A : Type) :=
| HDone (a : A) (w : world)
| HFail (e : herror).
Arguments HDone {A} a w.
Arguments HFail {A} e.

Definition Run (A : Type) : Type := world -> hres A.

Definition hret {A} (a : A) : Run A := fun w => HDone a w.

Definition hbind {A B} (m : Run A) (k : A -> Run B) : Run B :=
  fun w => match m w with
           | HDone a w' => k a w'
           | HFail e => HFail e
           end.

Global Instance Run_ret : MRet Run := fun A a => hret a.
Global Instance Run_bind : MBind Run := fun A B k m => hbind m k.

Definition hraise {A} (e : herror) : Run A := fun _ => HFail e.

(** [time.perf_counter()] *)
Definition perf_counter : Run R :=
  fun w => HDone (clock (ticks w))
             {| heap := heap w; gen := gen w; ticks := S (ticks w) |}.

(** [func(arr)] *)
Definition call_sort (func : algo) (arr : loc) : Run loc :=
  fun w => match run_algo fuel func arr (heap w) with
           | Done r s' => HDone r {| heap := s'; gen := gen w; ticks := ticks w |}
           | Raise e => HFail (SortRaise e)
           | OutOfFuel => HFail SortOutOfFuel
           end.

(** [time_function], lines 32-35. *)
Definition time_function (func : algo) (arr : loc) : Run R :=
  start ← perf_counter;
  call_sort func arr;;
  stop ← perf_counter;
  mret (stop - start)%R.

(** [[random.randint(0, hi) for _ in js]] *)
Fixpoint draw_list (js : list Z) (hi : Z) (g : G) : list Z * G :=
  match js with
  | [] => ([], g)
  | _ :: js' =>
      let (x, g1) := randint g 0 hi in
      let (xs, g2) := draw_list js' hi g1 in
      (x :: xs, g2)
  end.

(** [arr = [random.randint(0, n * 10) for _ in range(n)]] *)
Definition random_array (n : Z) : Run loc :=
  fun w =>
    let (xs, g') := draw_list (range 0 n) (n * 10) (gen w) in
    let l := fresh (dom (heap w)) in
    HDone l {| heap := <[l := xs]> (heap w); gen := g'; ticks := ticks w |}.

(** The loop [for _ in range(trials)] with the list [times]. *)
Fixpoint run_trials (func : algo) (n : Z) (js : list Z) (times : list R) : Run (list R) :=
  match js with
  | [] => mret times
  | _ :: js' =>
      arr ← random_array n;
      t ← time_function func arr;
      run_trials func n js' (times ++ [t])
  end.

Definition lift_stat (o : option R) : Run R :=
  match o with
  | Some x => mret x
  | None => hraise StatisticsError
  end.

(** The body of the loop over the sizes: the row recorded for [n]. *)
Definition measure (func : algo) (n trials : Z) : Run (Z * R * R) :=
  times ← run_trials func n (range 0 trials) [];
  avg ← lift_stat (mean times);
  stdev ← lift_stat (pstdev times);
  mret (n, avg, stdev).

(** The loop over [sizes_to_run]; [results[name].append((n, avg, stdev))]. *)
Fixpoint run_sizes (name : string) (func : algo) (ns : list Z) (trials : Z)
    (results : gmap string (list (Z * R * R))) : Run (gmap string (list (Z * R * R))) :=
  match ns with
  | [] => mret results
  | n :: ns' =>
      row ← measure func n trials;
      match results !! name with
      | Some rows => run_sizes name func ns' trials (<[name := rows ++ [row]]> results)
      | None => hraise KeyError
      end
  end.

(** The loop over [algos.items()]. *)
Fixpoint run_algos (fs : list (string * algo)) (sizes : list Z) (trials : Z)
    (results : gmap string (list (Z * R * R))) : Run (gmap string (list (Z * R * R))) :=
  match fs with
  | [] => mret results
  | (name, func) :: fs' =>
      results' ← run_sizes name func (sizes_to_run name sizes) trials results;
      run_algos fs' sizes trials results'
  end.

(** [run_experiments], lines 38-71, up to the point where the
    measurements are complete; writing the table and the chart is not part
    of the model, so [outdir] is not used. *)
Definition run_experiments (sizes : option (list Z)) (trials : Z)
    (outdir : option string) (seed : Z) : Run (gmap string (list (Z * R * R))) :=
  fun w =>
    let w0 := {| heap := heap w; gen := seed_rng seed; ticks := ticks w |} in
    let sizes' := match sizes with Some l => l | None => default_sizes end in
    let results := list_to_map ((fun nf => (fst nf, [])) <$> algos) in
    run_algos algos sizes' trials results w0.

End Harness.

Arguments HDone {G A} a w.
Arguments HFail {G A} e.

(** The [k] elapsed times that [time_function] returns from the [t0]-th
    reading of the clock on: two readings for each. *)
Fixpoint elapsed_samples (clock : nat -> R) (t0 k : nat) : list R :=
  match k with
  | O => []
  | S k' => (clock (S t0) - clock t0)%R :: elapsed_samples clock (S (S t0)) k'
  end.

(** The row for size [n] from [k] trials that start at reading [t0]. *)
Definition stat_row (clock : nat -> R) (k t0 : nat) (n : Z) : Z * R * R :=
  let ts := elapsed_samples clock t0 k in
  let avg := (Rsum ts / INR k)%R in
  (n, avg, sqrt (Rsum ((fun t => (t - avg) * (t - avg))%R <$> ts) / INR k)).

(** The rows for the sizes [ns], measured one after the other. *)
Fixpoint rows_from (clock : nat -> R) (k t0 : nat) (ns : list Z) : list (Z * R * R) :=
  match ns with
  | [] => []
  | n :: ns' => stat_row clock k t0 n :: rows_from clock k (t0 + 2 * k) ns'
  end.

(** An environment to run the harness in: a generator that always draws
    the lower bound and a clock that advances by one at each reading. *)
Definition example_randint (g : unit) (a b : Z) : Z * unit := (a, g).

Definition example_clock (k : nat) : R := INR k.

Definition example_world : world (G:=unit) :=
  {| heap := ∅; gen := tt; ticks := 0 |}.

(** The sizes for which [results] has a row of the algorithm [name]. *)
Definition measured_sizes (results : gmap string (list (Z * R * R))) (name : string)
    : option (list Z) :=
  match results !! name with
  | Some rows => Some ((fun row : Z * R * R => row.1.1) <$> rows)
  | None => None
  end.

(** [row] holds the arithmetic mean and the population standard deviation,
    both with divisor [k], of [k] consecutive elapsed times. *)
Definition aggregated (clock : nat -> R) (k : nat) (row : Z * R * R) : Prop :=
  exists t0,
    let ts := elapsed_samples clock t0 k in
    length ts = k /\
    row.1.2 = (Rsum ts / INR k)%R /\
    row.2 = sqrt (Rsum ((fun t => (t - row.1.2) * (t - row.1.2))%R <$> ts) / INR k).

(** *** The timed calls of a run, one after the other *)

Section TimedCalls.
Context {G : Type} (randint : G -> Z -> Z -> Z * G).

(** The world after one timed call of the sorting function [f] on a new
    list of [n] random numbers: the list and whatever [f] allocates are in
    the heap, the generator has drawn [n] numbers and the clock has been
    read twice.  [None] if [f] does not return. *)
Definition after_call (f : loc -> M (T:=Z) loc) (n : Z) (w : world (G:=G))
    : option (world (G:=G)) :=
  let (xs, g') := draw_list randint (range 0 n) (n * 10) (gen w) in
  let arr := fresh (dom (heap w)) in
  match f arr (<[arr := xs]> (heap w)) with
  | Done _ s' => Some {| heap := s'; gen := g'; ticks := S (S (ticks w)) |}
  | _ => None
  end.

(** The world after the timed calls [cs], each a function with a size. *)
Fixpoint after_calls (cs : list ((loc -> M (T:=Z) loc) * Z)) (w : world (G:=G))
    : option (world (G:=G)) :=
  match cs with
  | [] => Some w
  | (f, n) :: cs' =>
      match after_call f n w with
      | Some w1 => after_calls cs' w1
      | None => None
      end
  end.

End TimedCalls.

(** [k] calls of [f] at each of the sizes [ns], size after size. *)
Definition calls_for (f : loc -> M (T:=Z) loc) (k : nat) (ns : list Z)
    : list ((loc -> M (T:=Z) loc) * Z) :=
  flat_map (fun n => replicate k (f, n)) ns.

(** ** The command line of [experiments/experiment.py] *)

(** The value of the attributes of [args]. *)
Record namespace := Namespace {
  min_power : Z;
  max_power : Z;
  trials : Z;
  seed : Z;
  outdir : option string
}.

(** The [default=] of the five [add_argument] calls. *)
Definition defaults : namespace :=
  {| min_power := 7; max_power := 12; trials := 3; seed := 0; outdir := None |}.

(** The five options that [main] declares with [add_argument]; the first
    four are declared with [type=int]. *)
Inductive opt := OptMinPower | OptMaxPower | OptTrials | OptSeed | OptOutdir.


(** *** The conversion [int] *)

Definition digit (c : ascii) : option Z :=
  let n := nat_of_ascii c in
  if ((48 <=? n) && (n <=? 57))%nat then Some (Z.of_nat n - 48) else None.

(** White space as [int] takes it in an ASCII string: the characters 9 to
    13 and the space. *)
Definition is_space (c : ascii) : bool :=
  let n := nat_of_ascii c in
  (((9 <=? n) && (n <=? 13)) || (n =? 32))%nat.

Fixpoint all_space (s : string) : bool :=
  match s with
  | EmptyString => true
  | String c s' => is_space c && all_space s'
  end.

Fixpoint lstrip (s : string) : string :=
  match s with
  | EmptyString => EmptyString
  | String c s' => if is_space c then lstrip s' else s
  end.

(** What follows the first digit of a literal: more digits, a single
    underscore between two digits, and white space at the end. *)
Fixpoint int_tail (s : string) (acc : Z) : option Z :=
  match s with
  | EmptyString => Some acc
  | String c s' =>
      match digit c with
      | Some d => int_tail s' (10 * acc + d)
      | None =>
          if Ascii.eqb c "_" then
            match s' with
            | EmptyString => None
            | String c' s'' =>
                match digit c' with
                | Some d => int_tail s'' (10 * acc + d)
                | None => None
                end
            end
          else if all_space s then Some acc else None
      end
  end.

(** A literal without its sign: it starts with a digit. *)
Definition int_body (s : string) : option Z :=
  match s with
  | EmptyString => None
  | String c s' =>
      match digit c with
      | Some d => int_tail s' d
      | None => None
      end
  end.

(** The strings on which [int] is modelled: ASCII characters only, where
    the digits and the white space are the ASCII ones, and at most 640 of
    them, which is below every limit that the platform can be configured
    to put on the length of a literal. *)
Definition plain (s : string) : bool :=
  (String.length s <=? 640)%nat
  && forallb (fun c => (nat_of_ascii c <? 128)%nat) (String.list_ascii_of_string s).

Inductive int_result :=
| IntOk (z : Z)
| IntError
| IntNotModelled.

Definition int_signed (negative : bool) (s : string) : int_result :=
  match int_body s with
  | Some z => IntOk (if negative then - z else z)
  | None => IntError
  end.

(** Modelled from the spec: the conversion [int] of the platform, which
    the argument parser applies to the value of an option declared with
    [type=int]: white space, an optional sign, decimal digits with single
    underscores between them, white space.  [IntError] is the
    [ValueError] of the platform. *)
Definition py_int (s : string) : int_result :=
  if negb (plain s) then IntNotModelled
  else match lstrip s with
       | String "-"%char s' => int_signed true s'
       | String "+"%char s' => int_signed false s'
       | s' => int_signed false s'
       end.

(** *** The argument parser *)

(** What a word of the command line is taken for: an argument, a request
    for help, one of the five options (with the value that follows [=] in
    the same word, if any), or a word whose treatment is not modelled. *)
Inductive token :=
| TValue
| THelp
| TOpt (o : opt) (explicit : option string)
| TOther.

(** The long options without their two dashes; [None] is [--help], which
    the platform adds to every parser together with [-h]. *)
Definition long_options : list (string * option opt) :=
  [("help", None); ("min-power", Some OptMinPower); ("max-power", Some OptMaxPower);
   ("trials", Some OptTrials); ("seed", Some OptSeed); ("outdir", Some OptOutdir)]%string.

(** A word cut at its first [=]. *)
Fixpoint split_eq (s : string) : string * option string :=
  match s with
  | EmptyString => (EmptyString, None)
  | String c s' =>
      if Ascii.eqb c "=" then (EmptyString, Some s')
      else let (name, explicit) := split_eq s' in (String c name, explicit)
  end.

Fixpoint all_digits (s : string) : bool :=
  match s with
  | EmptyString => true
  | String c s' => match digit c with Some _ => all_digits s' | None => false end
  end.

(** Modelled from the spec: how the platform's parser takes a word.  A
    word that does not start with a dash is an argument, and so is a dash
    followed by digits.  Two dashes start a long option, which may be
    shortened to a prefix that fits one option only and may carry its
    value after [=].  Not modelled: the word [--], an ambiguous or unknown
    option, a value [--] after [=], [--help] with a value, and every other
    word that starts with a dash. *)
Definition classify (t : string) : token :=
  match t with
  | String "-"%char (String "-"%char rest) =>
      let (name, explicit) := split_eq rest in
      match name with
      | EmptyString => TOther
      | _ =>
          match List.filter (fun lo => String.prefix name lo.1) long_options with
          | [(_, Some o)] =>
              match explicit with
              | Some v => if String.eqb v "--" then TOther else TOpt o explicit
              | None => TOpt o None
              end
          | [(_, None)] =>
              match explicit with
              | None => THelp
              | Some _ => TOther
              end
          | _ => TOther
          end
      end
  | String "-"%char rest =>
      if String.eqb rest "h" then THelp
      else match rest with
           | EmptyString => TOther
           | _ => if all_digits rest then TValue else TOther
           end
  | _ => TValue
  end.

Definition is_other (k : token) : bool :=
  match k with
  | TOther => true
  | _ => false
  end.


(** How parsing ends: with the values of [args], with a usage error (the
    platform prints the usage and leaves with status 2), with the help text
    (status 0), or in a way that is not modelled. *)
Inductive parsed :=
| ParseOk (ns : namespace)
| UsageError
| HelpExit
| ParseNotModelled.

(** The effect of one option with its value on [args]. *)
Definition set_opt (o : opt) (v : string) (ns : namespace) : parsed :=
  match o with
  | OptOutdir =>
      ParseOk {| min_power := min_power ns; max_power := max_power ns;
                 trials := trials ns; seed := seed ns; outdir := Some v |}
  | _ =>
      match py_int v with
      | IntOk z =>
          ParseOk
            match o with
            | OptMinPower =>
                {| min_power := z; max_power := max_power ns; trials := trials ns;
                   seed := seed ns; outdir := outdir ns |}
            | OptMaxPower =>
                {| min_power := min_power ns; max_power := z; trials := trials ns;
                   seed := seed ns; outdir := outdir ns |}
            | OptTrials =>
                {| min_power := min_power ns; max_power := max_power ns; trials := z;
                   seed := seed ns; outdir := outdir ns |}
            | OptSeed =>
                {| min_power := min_power ns; max_power := max_power ns;
                   trials := trials ns; seed := z; outdir := outdir ns |}
            | OptOutdir => ns
            end
      | IntError => UsageError
      | IntNotModelled => ParseNotModelled
      end
  end.

(** The words from left to right.  An option takes the value after its
    [=] or else the next word, which has to be an argument; its value is
    converted at once, so that the first word in error decides.  [-h] and
    [--help] end the parsing when they are reached.  An argument that no
    option takes is reported when all words have been seen ([extras]). *)
Fixpoint parse_opts (argv : list string) (ns : namespace) (extras : bool) : parsed :=
  match argv with
  | [] => if extras then UsageError else ParseOk ns
  | t :: rest =>
      match classify t with
      | THelp => HelpExit
      | TValue => parse_opts rest ns true
      | TOpt o (Some v) =>
          match set_opt o v ns with
          | ParseOk ns' => parse_opts rest ns' extras
          | r => r
          end
      | TOpt o None =>
          match rest with
          | [] => UsageError
          | v :: rest' =>
              match classify v with
              | TValue =>
                  match set_opt o v ns with
                  | ParseOk ns' => parse_opts rest' ns' extras
                  | r => r
                  end
              | _ => UsageError
              end
          end
      | TOther => ParseNotModelled
      end
  end.

(** Modelled from the spec: [parser.parse_args()] of the platform for the
    parser that [main] builds, on the words after the program name.  The
    platform looks at every word before it acts on the first, so one word
    that is not modelled leaves the whole command line not modelled. *)
Definition parse_args (argv : list string) : parsed :=
  if existsb (fun t => is_other (classify t)) argv then ParseNotModelled
  else parse_opts argv defaults false.

(** The value of [2 ** p]: an integer for [p >= 0], the floating point
    number [pow(2.0, p)] otherwise. *)
Inductive pynum :=
| PyInt (z : Z)
| PyFloatPow2 (p : Z).

Definition pow2 (p : Z) : pynum :=
  if 0 <=? p then PyInt (2 ^ p) else PyFloatPow2 p.

(** The exponents for which [2 ** p] is modelled: a negative exponent is
    converted to a floating point number first, which the platform refuses
    for integers of too large a magnitude. *)
Definition pow2_modelled (p : Z) : bool := - 2 ^ 1023 <=? p.

(** The arguments of a call of [run_experiments]. *)
Record call := Call {
  call_sizes : list pynum;
  call_trials : Z;
  call_outdir : option string;
  call_seed : Z
}.

(** What [main], lines 111-121, does: it leaves the program with a status,
    or it calls [run_experiments]; [NotModelled] stands for the command
    lines and exponents outside the model.  The memory that the list of
    sizes takes is not modelled. *)
Inductive exit :=
| Exit (status : Z)
| Runs (c : call)
| NotModelled.

Definition main (argv : list string) : exit :=
  match parse_args argv with
  | UsageError => Exit 2
  | HelpExit => Exit 0
  | ParseNotModelled => NotModelled
  | ParseOk args =>
      if forallb pow2_modelled (range (min_power args) (max_power args + 1))
      then Runs {| call_sizes := pow2 <$> range (min_power args) (max_power args + 1);
                   call_trials := trials args;
                   call_outdir := outdir args;
                   call_seed := seed args |}
      else NotModelled
  end.



(** ** Functional descriptions used in the proofs *)

Section Descriptions.
Context {T : Type} `{Cmp T}.

(** The effect of the inner loop of [bubble_sort] on a list with first
    element [x] when [k] neighbouring pairs are visited; [sw] is the flag
    [swapped]. *)
Fixpoint bubble_run (k : nat) (x : T) (l : list T) (sw : bool) : list T * bool :=
  match k, l with
  | S k', y :: l' =>
      if py_gt x y
      then let (r, s) := bubble_run k' x l' true in (y :: r, s)
      else let (r, s) := bubble_run k' y l' sw in (x :: r, s)
  | _, _ => (x :: l, sw)
  end.

(** Running [m] in store [s] returns a list object that did not exist in
    [s], holds [v], and every object of [s] is as it was. *)
Definition returns_fresh (m : M (T:=T) loc) (s : gmap loc (list T)) (v : list T) : Prop :=
  exists r s', m s = Done r s' /\ s !! r = None /\ s' !! r = Some v /\ s ⊆ s'.

(** Running [m] in store [s] returns a list object that holds [v]. *)
Definition returns (m : M (T:=T) loc) (s : gmap loc (list T)) (v : list T) : Prop :=
  exists r s', m s = Done r s' /\ s' !! r = Some v.

(** Running [m] in store [s] returns: no exception, no exhausted fuel. *)
Definition terminates (m : M (T:=T) loc) (s : gmap loc (list T)) : Prop :=
  exists r s', m s = Done r s'.

(** Running [m] in store [s] leaves the object [arr] and every other
    object of [s] as it was, and returns an object that is not [arr] and
    did not exist in [s]. *)
Definition keeps_input (m : M (T:=T) loc) (s : gmap loc (list T)) (arr : loc) : Prop :=
  exists r s', m s = Done r s' /\ s' !! arr = s !! arr /\ r <> arr /\
               s !! r = None /\ s ⊆ s'.

(** Running [m] in store [s] returns a list in which the elements of [a]
    that compare equal are in the order they have in [a]. *)
Definition returns_stable (m : M (T:=T) loc) (s : gmap loc (list T)) (a : list T) : Prop :=
  exists r s' v, m s = Done r s' /\ s' !! r = Some v /\ stable_perm a v.

(** Merging as the specification words it: repeatedly take the lesser of
    the two fronts, the left one when they compare equal. *)
Fixpoint spec_merge (l1 : list T) : list T -> list T :=
  fix go (l2 : list T) : list T :=
    match l1, l2 with
    | [], _ => l2
    | _, [] => l1
    | x :: l1', y :: l2' =>
        if py_le x y then x :: spec_merge l1' l2 else y :: go l2'
    end.

(** Merge sort as the specification words it: a list of length at most 1
    is returned as it is, a longer one is split at [len // 2], both halves
    are sorted and the results merged. *)
Equations? spec_merge_sort (xs : list T) : list T by wf (length xs) lt :=
  spec_merge_sort xs with le_lt_dec (length xs) 1%nat := {
    | left _ => xs
    | right _ =>
        spec_merge (spec_merge_sort (take (Nat.div (length xs) 2) xs))
                   (spec_merge_sort (drop (Nat.div (length xs) 2) xs)) }.
Proof.
  all: change (Nat.divmod (length xs) 1 0 1).1 with (Nat.div (length xs) 2).
  - rewrite length_take. pose proof (Nat.div_lt (length xs) 2). lia.
  - rewrite length_drop. assert (0 < Nat.div (length xs) 2)%nat; [|lia].
    apply Nat.div_str_pos. lia.
Qed.

End Descriptions.

(** ** The test oracle of [tests/test_sorting.py] *)

Section Tests.
Context {T : Type} `{Cmp T}.

(** One of the five functions, by name, on any element type. *)
Definition sort_with (fuel : nat) (f : algo) (arr : loc) : M (T:=T) loc :=
  match f with
  | Bubble => bubble_sort arr
  | Insertion => insertion_sort fuel arr
  | Merge => merge_sort fuel arr
  | Quick => quick_sort fuel arr
  | Timsort => python_sort arr
  end.

(** [xs == ys] on lists: the same length and [==] at every position (the
    platform takes two elements that are the same object as equal without
    calling [==], which gives the same answer when [==] is reflexive). *)
Fixpoint py_list_eq (xs ys : list T) : bool :=
  match xs, ys with
  | [], [] => true
  | x :: xs', y :: ys' => py_eq x y && py_list_eq xs' ys'
  | _, _ => false
  end.

(** How a test ends. *)
Inductive test_result :=
| Passed
| AssertionFailed
| TestRaise (e : exn)
| TestOutOfFuel.

(** The loop [for f in algos: result = f(arr); assert result == expected]
    of [check_all_equal], lines 27-29. *)
Fixpoint check_each (fuel : nat) (fs : list algo) (arr expected : loc)
    (s : gmap loc (list T)) : test_result :=
  match fs with
  | [] => Passed
  | f :: fs' =>
      match sort_with fuel f arr s with
      | Done result s1 =>
          match s1 !! result, s1 !! expected with
          | Some xs, Some ys =>
              if py_list_eq xs ys then check_each fuel fs' arr expected s1
              else AssertionFailed
          | _, _ => TestRaise Dangling
          end
      | Raise e => TestRaise e
      | OutOfFuel => TestOutOfFuel
      end
  end.

(** [check_all_equal], lines 18-29. *)
Definition check_all_equal (fuel : nat) (arr : loc) (s : gmap loc (list T)) : test_result :=
  match sorted_ arr s with
  | Done expected s0 =>
      check_each fuel [Bubble; Insertion; Merge; Quick; Timsort] arr expected s0
  | Raise e => TestRaise e
  | OutOfFuel => TestOutOfFuel
  end.

(** The body of [test_original_unchanged], lines 60-68, for the list
    object [arr]: a snapshot, the five calls, the comparison. *)
Definition original_unchanged (fuel : nat) (arr : loc) : M (T:=T) bool :=
  original ← list_ arr;
  bubble_sort arr;;
  insertion_sort fuel arr;;
  merge_sort fuel arr;;
  quick_sort fuel arr;;
  python_sort arr;;
  xs ← contents arr;
  ys ← contents original;
  ret (py_list_eq xs ys).

(** Strictly decreasing order. *)
Definition gt_rel (x y : T) : Prop := py_gt x y = true.

End Tests.

Section RandomTests.
Context {G : Type} (seed_rng : Z -> G) (randint : G -> Z -> Z -> Z * G).

(** [[random.randint(lo, hi) for _ in js]] *)
Fixpoint draw_between (js : list Z) (lo hi : Z) (g : G) : list Z * G :=
  match js with
  | [] => ([], g)
  | _ :: js' =>
      let (x, g1) := randint g lo hi in
      let (xs, g2) := draw_between js' lo hi g1 in
      (x :: xs, g2)
  end.

(** [random_list], lines 13-15: the list and the generator afterwards. *)
Definition random_list (n seed : Z) : list Z * G :=
  draw_between (range 0 n) (-1000) 1000 (seed_rng seed).

(** [check_all_equal(random_list(n, seed))], the body of
    [test_small_random] and [test_medium_random_performance]. *)
Definition test_random (fuel : nat) (n seed : Z) (s : gmap loc (list Z)) : test_result :=
  match alloc (random_list n seed).1 s with
  | Done arr s1 => check_all_equal fuel arr s1
  | Raise e => TestRaise e
  | OutOfFuel => TestOutOfFuel
  end.

End RandomTests.

(** ** The table and the chart of [run_experiments] *)

(** A cell of a row handed to [csv.writer]. *)
Inductive cell :=
| CStr (s : string)
| CInt (z : Z).

Definition csv_header : list cell :=
  [CStr "algorithm"; CStr "n"; CStr "avg_seconds"; CStr "stdev_seconds"].

(** The rows written to [results.csv], lines 82-85.  [fmt8 x] is the text
    [f"{x:.8f}"]; [results.items()] goes through the keys in the order in
    which they were inserted, which is the order of [algos]. *)
Definition csv_rows (fmt8 : R -> string) (results : gmap string (list (Z * R * R)))
    : list (list cell) :=
  csv_header ::
  flat_map (fun name =>
              (fun row : Z * R * R =>
                 [CStr name; CInt row.1.1; CStr (fmt8 row.1.2); CStr (fmt8 row.2)])
              <$> default [] (results !! name))
           algos.*1.

(** The arguments of the calls of [plt.errorbar], lines 91-97: the label,
    [ns], [ts] and [errs]; an algorithm without data is passed over. *)
Definition plot_series (results : gmap string (list (Z * R * R)))
    : list (string * list Z * list R * list R) :=
  flat_map (fun name =>
              match default [] (results !! name) with
              | [] => []
              | data =>
                  [(name,
                    (fun row : Z * R * R => row.1.1) <$> data,
                    (fun row : Z * R * R => row.1.2) <$> data,
                    (fun row : Z * R * R => row.2) <$> data)]
              end)
           algos.*1.

(** ** Two runs compared *)

(** Two runs end alike: with the same error, or in the same world with
    values related by [rel]. *)
Definition same_run {G A B : Type} (rel : A -> B -> Prop)
    (r1 : hres (G:=G) A) (r2 : hres (G:=G) B) : Prop :=
  match r1, r2 with
  | HDone a w1, HDone b w2 => w1 = w2 /\ rel a b
  | HFail e1, HFail e2 => e1 = e2
  | _, _ => False
  end.

(** * Verification *)

(** ** The orders of the examples *)

Global Instance Z_total : TotalOrder Z.
Proof.
  split; simpl.
  - intros x y. destruct (Z.leb_spec x y), (Z.leb_spec y x); auto; lia.
  - intros x y z Hxy%Z.leb_le Hyz%Z.leb_le. apply Z.leb_le. lia.
  - intros x y. destruct (Z.ltb_spec x y), (Z.leb_spec y x); auto; lia.
  - intros x y. rewrite Z.gtb_ltb.
    destruct (Z.ltb_spec y x), (Z.leb_spec x y); auto; lia.
  - intros x y. destruct (Z.eqb_spec x y), (Z.leb_spec x y), (Z.leb_spec y x); auto; lia.
Qed.

Global Instance item_total : TotalOrder item.
Proof.
  split; simpl.
  - intros x y. exact (py_le_total (T:=Z) (item_key x) (item_key y)).
  - intros x y z. exact (py_le_trans (T:=Z) (item_key x) (item_key y) (item_key z)).
  - intros x y. exact (py_lt_le (T:=Z) (item_key x) (item_key y)).
  - intros x y. exact (py_gt_le (T:=Z) (item_key x) (item_key y)).
  - intros x y. exact (py_eq_le (T:=Z) (item_key x) (item_key y)).
Qed.


(** ** Facts about the order *)

Section OrderFacts.
Context {T : Type} {CT : Cmp T} {OT : TotalOrder T}.

Lemma py_le_refl (x : T) : py_le x x = true.
Proof. destruct (py_le_total x x); assumption. Qed.

Lemma py_gt_true (x y : T) : py_gt x y = true -> py_le x y = false /\ py_le y x = true.
Proof.
  rewrite py_gt_le. intros E. apply negb_true_iff in E. split; [exact E|].
  destruct (py_le_total x y); congruence.
Qed.

Lemma py_gt_false (x y : T) : py_gt x y = false -> py_le x y = true.
Proof. rewrite py_gt_le. apply negb_false_iff. Qed.

Lemma py_lt_true (x y : T) : py_lt x y = true -> py_le y x = false /\ py_le x y = true.
Proof.
  rewrite py_lt_le. intros E. apply negb_true_iff in E. split; [exact E|].
  destruct (py_le_total x y); congruence.
Qed.

Lemma py_lt_false (x y : T) : py_lt x y = false -> py_le y x = true.
Proof. rewrite py_lt_le. apply negb_false_iff. Qed.

Lemma py_eq_true (x y : T) : py_eq x y = true <-> py_le x y = true /\ py_le y x = true.
Proof. rewrite py_eq_le. apply andb_true_iff. Qed.

Lemma py_eq_refl (x : T) : py_eq x x = true.
Proof. apply py_eq_true. split; apply py_le_refl. Qed.

Lemma py_eq_sym (x y : T) : py_eq x y = py_eq y x.
Proof. rewrite !py_eq_le. apply andb_comm. Qed.

Lemma py_eq_class (k x y : T) :
  py_eq k x = true -> py_eq k y = true -> py_le x y = true.
Proof.
  intros [_ E1]%py_eq_true [E2 _]%py_eq_true. exact (py_le_trans x k y E1 E2).
Qed.

Lemma py_eq_trans (x y z : T) :
  py_eq x y = true -> py_eq y z = true -> py_eq x z = true.
Proof.
  intros [E1 E2]%py_eq_true [E3 E4]%py_eq_true. apply py_eq_true.
  split; eapply py_le_trans; eassumption.
Qed.

(** Two elements in strict order are not in the same class. *)
Lemma class_apart (k x y : T) :
  py_le x y = false -> py_eq k x && py_eq k y = false.
Proof.
  intros E. destruct (py_eq k x) eqn:E1, (py_eq k y) eqn:E2; try reflexivity.
  rewrite (py_eq_class k x y E1 E2) in E. discriminate.
Qed.

Global Instance le_rel_trans : Transitive (le_rel (T:=T)).
Proof. intros x y z. apply py_le_trans. Qed.

Global Instance le_rel_refl : Reflexive (le_rel (T:=T)).
Proof. intros x. apply py_le_refl. Qed.

(** *** Stable rearrangements *)

Lemma stable_perm_refl (xs : list T) : stable_perm xs xs.
Proof. intros k. reflexivity. Qed.

Lemma stable_perm_sym (xs ys : list T) : stable_perm xs ys -> stable_perm ys xs.
Proof. intros E k. symmetry. apply E. Qed.

Lemma stable_perm_trans (xs ys zs : list T) :
  stable_perm xs ys -> stable_perm ys zs -> stable_perm xs zs.
Proof. intros E1 E2 k. rewrite E2. apply E1. Qed.

Lemma stable_perm_app (xs xs' ys ys' : list T) :
  stable_perm xs xs' -> stable_perm ys ys' -> stable_perm (xs ++ ys) (xs' ++ ys').
Proof. intros E1 E2 k. rewrite !List.filter_app, E1, E2. reflexivity. Qed.

Lemma stable_perm_cons (x : T) (xs ys : list T) :
  stable_perm xs ys -> stable_perm (x :: xs) (x :: ys).
Proof. intros E. apply (stable_perm_app [x] [x]); [apply stable_perm_refl | exact E]. Qed.

(** Exchanging two neighbours in strict order keeps every class. *)
Lemma stable_perm_swap (x y : T) (l : list T) :
  py_le x y = false -> stable_perm (x :: y :: l) (y :: x :: l).
Proof.
  intros E k. pose proof (class_apart k x y E) as D. simpl.
  destruct (py_eq k x), (py_eq k y); try reflexivity. discriminate.
Qed.

Lemma stable_perm_elem (xs ys : list T) (x : T) :
  stable_perm xs ys -> In x xs -> In x ys.
Proof.
  intros E Hx.
  assert (In x (List.filter (py_eq x) ys)) as Hy.
  { rewrite E. apply List.filter_In. split; [exact Hx | apply py_eq_refl]. }
  apply List.filter_In in Hy. tauto.
Qed.

Lemma stable_perm_Forall (P : T -> Prop) (xs ys : list T) :
  stable_perm xs ys -> List.Forall P xs -> List.Forall P ys.
Proof.
  intros E HP. apply List.Forall_forall. intros x Hx.
  apply (proj1 (List.Forall_forall P xs) HP).
  apply (stable_perm_elem ys xs); [apply stable_perm_sym, E | exact Hx].
Qed.

Lemma stable_perm_nil (ys : list T) : stable_perm [] ys -> ys = [].
Proof.
  intros E. destruct ys as [|y ys]; [reflexivity|].
  specialize (E y). simpl in E. rewrite py_eq_refl in E. discriminate.
Qed.

Lemma stable_perm_length (xs ys : list T) :
  stable_perm xs ys -> length xs = length ys.
Proof.
  revert ys. induction xs as [|x xs IH]; intros ys E.
  - rewrite (stable_perm_nil ys E). reflexivity.
  - assert (exists l1 l2, ys = l1 ++ x :: l2 /\ List.filter (py_eq x) l1 = []) as (l1 & l2 & -> & E1).
    { pose proof (E x) as Ex. simpl in Ex. rewrite py_eq_refl in Ex.
      clear E IH. revert Ex. generalize (List.filter (py_eq x) xs). intros r.
      induction ys as [|y ys IH]; simpl; [discriminate|].
      destruct (py_eq x y) eqn:Exy.
      - intros [= -> _]. exists [], ys. split; reflexivity.
      - intros (l1 & l2 & -> & E1)%IH. exists (y :: l1), l2.
        split; [reflexivity|]. simpl. rewrite Exy. exact E1. }
    rewrite length_app. simpl. rewrite <- Nat.add_succ_comm. simpl. f_equal.
    rewrite <- length_app. apply IH. intros k.
    pose proof (E k) as Ek. rewrite List.filter_app in Ek. simpl in Ek.
    rewrite List.filter_app.
    destruct (py_eq k x) eqn:Ekx.
    + assert (List.filter (py_eq k) l1 = []) as E2.
      { clear -E1 Ekx OT. induction l1 as [|z l1 IH]; [reflexivity|].
        simpl in *. destruct (py_eq x z) eqn:Exz; [discriminate|].
        destruct (py_eq k z) eqn:Ekz.
        - rewrite (py_eq_trans x k z) in Exz; [discriminate| |exact Ekz].
          rewrite py_eq_sym. exact Ekx.
        - apply IH, E1. }
      rewrite E2 in *. simpl in *. congruence.
    + exact Ek.
Qed.

(** *** The reference sort *)

Lemma insert_stable_Forall (P : T -> Prop) (x : T) (l : list T) :
  P x -> List.Forall P l -> List.Forall P (insert_stable x l).
Proof.
  intros Hx Hl. induction Hl as [|y l Hy Hl IH]; simpl.
  - constructor; [exact Hx | constructor].
  - destruct (py_lt y x); repeat constructor; assumption.
Qed.

Lemma insert_stable_sorted (x : T) (l : list T) :
  StronglySorted le_rel l -> StronglySorted le_rel (insert_stable x l).
Proof.
  induction 1 as [|y l Hl IH Hy]; simpl.
  - repeat constructor.
  - destruct (py_lt y x) eqn:E.
    + constructor; [exact IH|]. apply insert_stable_Forall; [|exact Hy].
      apply py_lt_true in E. apply E.
    + apply py_lt_false in E. constructor; [constructor; assumption|].
      constructor; [exact E|].
      eapply List.Forall_impl; [|exact Hy]. intros z Hz.
      exact (py_le_trans x y z E Hz).
Qed.

Lemma insert_stable_stable (x : T) (l : list T) :
  stable_perm (x :: l) (insert_stable x l).
Proof.
  induction l as [|y l IH]; simpl; [apply stable_perm_refl|].
  destruct (py_lt y x) eqn:E; [|apply stable_perm_refl].
  apply py_lt_true in E. destruct E as [E _].
  eapply stable_perm_trans; [apply stable_perm_swap, E|].
  apply stable_perm_cons, IH.
Qed.

Lemma insert_stable_perm (x : T) (l : list T) :
  Permutation (x :: l) (insert_stable x l).
Proof.
  induction l as [|y l IH]; simpl; [reflexivity|].
  destruct (py_lt y x); [|reflexivity].
  rewrite perm_swap. apply perm_skip, IH.
Qed.

Lemma sorted_sorted (l : list T) : StronglySorted le_rel (sorted l).
Proof.
  induction l as [|x l IH]; simpl; [constructor|].
  apply insert_stable_sorted, IH.
Qed.

Lemma sorted_stable (l : list T) : stable_perm l (sorted l).
Proof.
  induction l as [|x l IH]; simpl; [apply stable_perm_refl|].
  eapply stable_perm_trans; [apply stable_perm_cons, IH|].
  apply insert_stable_stable.
Qed.

Lemma sorted_perm (l : list T) : Permutation l (sorted l).
Proof.
  induction l as [|x l IH]; simpl; [reflexivity|].
  rewrite <- insert_stable_perm. apply perm_skip, IH.
Qed.

(** Two sorted lists with the same classes are the same list. *)
Lemma sorted_stable_eq (l1 l2 : list T) :
  StronglySorted le_rel l1 -> StronglySorted le_rel l2 ->
  stable_perm l1 l2 -> l1 = l2.
Proof.
  intros S1. revert l2. induction S1 as [|a t1 S1 IH F1]; intros l2 S2 E.
  - symmetry. apply stable_perm_nil, E.
  - destruct S2 as [|b t2 S2 F2].
    + apply stable_perm_sym, stable_perm_nil in E. discriminate.
    + assert (py_le b a = true) as Eba.
      { assert (In a (b :: t2)) as [->|Ha].
        { apply (stable_perm_elem (a :: t1)); [exact E | left; reflexivity]. }
        - apply py_le_refl.
        - exact (proj1 (List.Forall_forall _ _) F2 a Ha). }
      assert (py_le a b = true) as Eab.
      { assert (In b (a :: t1)) as [->|Hb].
        { apply (stable_perm_elem (b :: t2)); [apply stable_perm_sym, E | left; reflexivity]. }
        - apply py_le_refl.
        - exact (proj1 (List.Forall_forall _ _) F1 b Hb). }
      assert (a = b) as <-.
      { pose proof (E a) as Ea. simpl in Ea. rewrite py_eq_refl in Ea.
        rewrite (proj2 (py_eq_true a b) (conj Eab Eba)) in Ea. congruence. }
      f_equal. apply IH; [exact S2|]. intros k.
      pose proof (E k) as Ek. simpl in Ek. destruct (py_eq k a); congruence.
Qed.

(** A stable sort returns what the platform's sort returns. *)
Lemma sorted_unique (xs ys : list T) :
  StronglySorted le_rel ys -> stable_perm xs ys -> ys = sorted xs.
Proof.
  intros S E. apply sorted_stable_eq; [exact S | apply sorted_sorted |].
  eapply stable_perm_trans; [apply stable_perm_sym, E | apply sorted_stable].
Qed.

End OrderFacts.

(** ** Facts about the store and the primitive operations *)

Section MachineFacts.
Context {T : Type} {CT : Cmp T}.

Local Abbreviation store := (gmap loc (list T)).

Lemma bind_Done {A B} (m : M (T:=T) A) (k : A -> M B) (s s' : store) (a : A) :
  m s = Done a s' -> (m ≫= k) s = k a s'.
Proof. intros E. unfold mbind, M_bind, bind. rewrite E. reflexivity. Qed.

Lemma bind_eq {A B} (m : M (T:=T) A) (k : A -> M B) (s : store) :
  (m ≫= k) s = match m s with
               | Done a s' => k a s'
               | Raise e => Raise e
               | OutOfFuel => OutOfFuel
               end.
Proof. reflexivity. Qed.

Lemma fresh_None (s : store) : s !! fresh (dom s) = None.
Proof. apply not_elem_of_dom, is_fresh. Qed.

Lemma alloc_eq (xs : list T) (s : store) :
  alloc xs s = Done (fresh (dom s)) (<[fresh (dom s) := xs]> s).
Proof. reflexivity. Qed.

Lemma contents_ok (s : store) (a : loc) (xs : list T) :
  s !! a = Some xs -> contents a s = Done xs s.
Proof. intros E. unfold contents. rewrite E. reflexivity. Qed.

Lemma len_ok (s : store) (a : loc) (xs : list T) :
  s !! a = Some xs -> len a s = Done (Z.of_nat (length xs)) s.
Proof. intros E. unfold len. rewrite (bind_Done _ _ _ _ _ (contents_ok _ _ _ E)). reflexivity. Qed.

Lemma norm_index_nat (n k : nat) (i : Z) :
  i = Z.of_nat k -> (k < n)%nat -> norm_index n i = Some k.
Proof.
  intros -> Hk. unfold norm_index.
  destruct (Z.leb_spec 0 (Z.of_nat k)); [|lia].
  destruct (Z.ltb_spec (Z.of_nat k) (Z.of_nat n)); [|lia].
  rewrite Nat2Z.id. reflexivity.
Qed.

Lemma getitem_ok (s : store) (a : loc) (xs : list T) (i : Z) (k : nat) (x : T) :
  s !! a = Some xs -> i = Z.of_nat k -> xs !! k = Some x ->
  getitem a i s = Done x s.
Proof.
  intros E Hi Hx. unfold getitem.
  rewrite (bind_Done _ _ _ _ _ (contents_ok _ _ _ E)).
  rewrite (norm_index_nat _ k) by eauto using lookup_lt_Some.
  rewrite Hx. reflexivity.
Qed.

Lemma setitem_ok (s : store) (a : loc) (xs : list T) (i : Z) (k : nat) (v : T) :
  s !! a = Some xs -> i = Z.of_nat k -> (k < length xs)%nat ->
  setitem a i v s = Done tt (<[a := <[k := v]> xs]> s).
Proof.
  intros E Hi Hk. unfold setitem.
  rewrite (bind_Done _ _ _ _ _ (contents_ok _ _ _ E)).
  rewrite (norm_index_nat _ k) by assumption. reflexivity.
Qed.

Lemma append_ok (s : store) (a : loc) (xs : list T) (v : T) :
  s !! a = Some xs -> append a v s = Done tt (<[a := xs ++ [v]]> s).
Proof.
  intros E. unfold append.
  rewrite (bind_Done _ _ _ _ _ (contents_ok _ _ _ E)). reflexivity.
Qed.

Lemma extend_ok (s : store) (a b : loc) (xs ys : list T) :
  s !! a = Some xs -> s !! b = Some ys ->
  extend a b s = Done tt (<[a := xs ++ ys]> s).
Proof.
  intros Ea Eb. unfold extend.
  rewrite (bind_Done _ _ _ _ _ (contents_ok _ _ _ Ea)).
  rewrite (bind_Done _ _ _ _ _ (contents_ok _ _ _ Eb)). reflexivity.
Qed.

Lemma clamp_nonneg (n : nat) (k : Z) : 0 <= k -> clamp n k = Nat.min (Z.to_nat k) n.
Proof.
  intros Hk. unfold clamp. destruct (Z.ltb_spec k 0); lia.
Qed.

Lemma slice_to_ok (s : store) (a : loc) (xs : list T) (hi : Z) :
  s !! a = Some xs -> 0 <= hi ->
  slice_to a hi s = alloc (take (Z.to_nat hi) xs) s.
Proof.
  intros E Hk. unfold slice_to.
  rewrite (bind_Done _ _ _ _ _ (contents_ok _ _ _ E)).
  rewrite clamp_nonneg by assumption. f_equal.
  destruct (Nat.le_ge_cases (Z.to_nat hi) (length xs)).
  - rewrite Nat.min_l by assumption. reflexivity.
  - rewrite Nat.min_r by assumption. rewrite !take_ge by lia. reflexivity.
Qed.

Lemma slice_from_ok (s : store) (a : loc) (xs : list T) (lo : Z) :
  s !! a = Some xs -> 0 <= lo ->
  slice_from a lo s = alloc (drop (Z.to_nat lo) xs) s.
Proof.
  intros E Hk. unfold slice_from.
  rewrite (bind_Done _ _ _ _ _ (contents_ok _ _ _ E)).
  rewrite clamp_nonneg by assumption. f_equal.
  destruct (Nat.le_ge_cases (Z.to_nat lo) (length xs)).
  - rewrite Nat.min_l by assumption. reflexivity.
  - rewrite Nat.min_r by assumption. rewrite !drop_ge by lia. reflexivity.
Qed.

Lemma list_ok (s : store) (a : loc) (xs : list T) :
  s !! a = Some xs -> list_ a s = alloc xs s.
Proof.
  intros E. unfold list_.
  rewrite (bind_Done _ _ _ _ _ (contents_ok _ _ _ E)). reflexivity.
Qed.

Lemma list_comp_ok (s : store) (a : loc) (xs : list T) (p : T -> bool) :
  s !! a = Some xs -> list_comp a p s = alloc (List.filter p xs) s.
Proof.
  intros E. unfold list_comp.
  rewrite (bind_Done _ _ _ _ _ (contents_ok _ _ _ E)). reflexivity.
Qed.

Lemma concat_ok (s : store) (a b : loc) (xs ys : list T) :
  s !! a = Some xs -> s !! b = Some ys -> concat_ a b s = alloc (xs ++ ys) s.
Proof.
  intros Ea Eb. unfold concat_.
  rewrite (bind_Done _ _ _ _ _ (contents_ok _ _ _ Ea)).
  rewrite (bind_Done _ _ _ _ _ (contents_ok _ _ _ Eb)). reflexivity.
Qed.

Lemma sorted_ok (s : store) (a : loc) (xs : list T) :
  s !! a = Some xs -> sorted_ a s = alloc (sorted xs) s.
Proof.
  intros E. unfold sorted_.
  rewrite (bind_Done _ _ _ _ _ (contents_ok _ _ _ E)). reflexivity.
Qed.

Lemma range_nil (lo hi : Z) : hi <= lo -> range lo hi = [].
Proof. intros Hle. unfold range. replace (Z.to_nat (hi - lo)) with 0%nat by lia. reflexivity. Qed.

Lemma range_cons (lo hi : Z) : lo < hi -> range lo hi = lo :: range (lo + 1) hi.
Proof.
  intros Hlt. unfold range.
  replace (Z.to_nat (hi - lo)) with (S (Z.to_nat (hi - (lo + 1)))) by lia.
  simpl. f_equal; [lia|].
  rewrite <- fmap_S_seq, <- list_fmap_compose. apply list_fmap_ext.
  intros _ k _. simpl. lia.
Qed.

Lemma lookup_mid0 (pre rest : list T) (x : T) :
  (pre ++ x :: rest) !! length pre = Some x.
Proof. apply list_lookup_middle. reflexivity. Qed.

Lemma lookup_mid1 (pre rest : list T) (x y : T) :
  (pre ++ x :: y :: rest) !! S (length pre) = Some y.
Proof.
  replace (pre ++ x :: y :: rest) with ((pre ++ [x]) ++ y :: rest)
    by (rewrite <- app_assoc; reflexivity).
  apply list_lookup_middle. rewrite length_app. simpl. lia.
Qed.

Lemma insert_mid0 (pre rest : list T) (x v : T) :
  <[length pre := v]> (pre ++ x :: rest) = pre ++ v :: rest.
Proof.
  rewrite insert_app_r_alt by lia. rewrite Nat.sub_diag. reflexivity.
Qed.

Lemma insert_mid1 (pre rest : list T) (x y v : T) :
  <[S (length pre) := v]> (pre ++ x :: y :: rest) = pre ++ x :: v :: rest.
Proof.
  rewrite insert_app_r_alt by lia.
  replace (S (length pre) - length pre)%nat with 1%nat by lia. reflexivity.
Qed.

End MachineFacts.

(** ** [bubble_sort] *)

Section BubbleFacts.
Context {T : Type} {CT : Cmp T} {OT : TotalOrder T}.

Local Abbreviation store := (gmap loc (list T)).

Lemma StronglySorted_app_le (l1 l2 : list T) :
  StronglySorted le_rel l1 -> StronglySorted le_rel l2 ->
  (forall x y, In x l1 -> In y l2 -> py_le x y = true) ->
  StronglySorted le_rel (l1 ++ l2).
Proof.
  intros S1 S2 Hle. induction S1 as [|x l1 S1 IH F]; simpl; [exact S2|].
  constructor.
  - apply IH. intros a b Ha Hb. apply Hle; [right; exact Ha | exact Hb].
  - apply List.Forall_app. split; [exact F|].
    apply List.Forall_forall. intros y Hy. apply Hle; [left; reflexivity | exact Hy].
Qed.

Lemma StronglySorted_app_inv (l1 l2 : list T) :
  StronglySorted le_rel (l1 ++ l2) ->
  StronglySorted le_rel l2 /\ (forall x y, In x l1 -> In y l2 -> py_le x y = true).
Proof.
  induction l1 as [|a l1 IH]; simpl; intros S.
  - split; [exact S|]. intros x y [].
  - inversion S as [|? ? S' F]; subst. destruct (IH S') as [S2 Hc].
    split; [exact S2|]. intros x y [<-|Hx] Hy.
    + apply (proj1 (List.Forall_forall _ _) F). apply List.in_or_app. right. exact Hy.
    + apply Hc; assumption.
Qed.

Lemma bubble_run_flag (k : nat) (x : T) (l : list T) :
  (bubble_run k x l true).2 = true.
Proof.
  revert x l. induction k as [|k IH]; intros x [|y l]; simpl; try reflexivity.
  destruct (py_gt x y).
  - specialize (IH x l). destruct (bubble_run k x l true). exact IH.
  - specialize (IH y l). destruct (bubble_run k y l true). exact IH.
Qed.

Lemma bubble_run_stable (k : nat) (x : T) (l : list T) (sw : bool) :
  stable_perm (x :: l) (bubble_run k x l sw).1.
Proof.
  revert x l sw. induction k as [|k IH]; intros x [|y l] sw; simpl;
    try apply stable_perm_refl.
  destruct (py_gt x y) eqn:E.
  - specialize (IH x l true). destruct (bubble_run k x l true) as [r s]. simpl in *.
    eapply stable_perm_trans; [apply stable_perm_swap, (py_gt_true _ _ E)|].
    apply stable_perm_cons, IH.
  - specialize (IH y l sw). destruct (bubble_run k y l sw) as [r s]. simpl in *.
    apply stable_perm_cons, IH.
Qed.

Lemma bubble_run_app (k : nat) (x : T) (l1 l2 : list T) (sw : bool) :
  (k <= length l1)%nat ->
  bubble_run k x (l1 ++ l2) sw =
  ((bubble_run k x l1 sw).1 ++ l2, (bubble_run k x l1 sw).2).
Proof.
  revert x l1 sw. induction k as [|k IH]; intros x l1 sw Hk.
  - destruct l1; reflexivity.
  - destruct l1 as [|y l1]; simpl in Hk; [lia|]. simpl.
    destruct (py_gt x y).
    + rewrite IH by lia. destruct (bubble_run k x l1 true). reflexivity.
    + rewrite IH by lia. destruct (bubble_run k y l1 sw). reflexivity.
Qed.

(** A pass over the whole list ends with an element that no other exceeds. *)
Lemma bubble_run_last (x : T) (l : list T) (sw : bool) :
  exists r m, (bubble_run (length l) x l sw).1 = r ++ [m] /\
              List.Forall (fun z => py_le z m = true) (x :: l).
Proof.
  revert x sw. induction l as [|y l IH]; intros x sw; simpl.
  - exists [], x. split; [reflexivity|]. repeat constructor. apply py_le_refl.
  - destruct (py_gt x y) eqn:E.
    + destruct (IH x true) as (r & m & Er & F).
      destruct (bubble_run (length l) x l true) as [r0 s]. simpl in *. subst r0.
      exists (y :: r), m. split; [reflexivity|].
      inversion F as [|? ? Hx Hl]; subst.
      constructor; [exact Hx|]. constructor; [|exact Hl].
      exact (py_le_trans y x m (proj2 (py_gt_true _ _ E)) Hx).
    + destruct (IH y sw) as (r & m & Er & F).
      destruct (bubble_run (length l) y l sw) as [r0 s]. simpl in *. subst r0.
      exists (x :: r), m. split; [reflexivity|].
      inversion F as [|? ? Hy Hl]; subst.
      constructor; [|exact F].
      exact (py_le_trans x y m (py_gt_false _ _ E) Hy).
Qed.

(** A pass without exchange leaves the list as it is, and the part it
    visited was in order. *)
Lemma bubble_run_noswap (x : T) (l : list T) :
  (bubble_run (length l) x l false).2 = false ->
  (bubble_run (length l) x l false).1 = x :: l /\ StronglySorted le_rel (x :: l).
Proof.
  revert x. induction l as [|y l IH]; intros x; simpl.
  - intros _. split; [reflexivity|]. repeat constructor.
  - destruct (py_gt x y) eqn:E.
    + pose proof (bubble_run_flag (length l) x l) as F.
      destruct (bubble_run (length l) x l true). simpl in *. congruence.
    + specialize (IH y). destruct (bubble_run (length l) y l false) as [r s].
      simpl in *. intros Hs. destruct (IH Hs) as [-> S]. split; [reflexivity|].
      constructor; [exact S|]. apply py_gt_false in E.
      constructor; [exact E|]. inversion S as [|? ? _ F]; subst.
      eapply List.Forall_impl; [|exact F]. intros z Hz. exact (py_le_trans x y z E Hz).
Qed.

End BubbleFacts.

Section BubbleLoops.
Context {T : Type} {CT : Cmp T} {OT : TotalOrder T}.

Local Abbreviation store := (gmap loc (list T)).

Lemma bubble_step_ok (a : loc) (s0 : store) (pre rest : list T) (x y : T) (j : Z) (sw : bool) :
  j = Z.of_nat (length pre) ->
  bubble_step a j sw (<[a := pre ++ x :: y :: rest]> s0) =
  if py_gt x y then Done true (<[a := pre ++ y :: x :: rest]> s0)
  else Done sw (<[a := pre ++ x :: y :: rest]> s0).
Proof.
  intros ->. unfold bubble_step.
  erewrite bind_Done;
    [|eapply getitem_ok; [apply lookup_insert_eq | | apply lookup_mid0]; reflexivity].
  erewrite bind_Done;
    [|eapply getitem_ok; [apply lookup_insert_eq | | apply lookup_mid1]; lia].
  destruct (py_gt x y); [|reflexivity].
  erewrite bind_Done;
    [|eapply getitem_ok; [apply lookup_insert_eq | | apply lookup_mid1]; lia].
  erewrite bind_Done;
    [|eapply getitem_ok; [apply lookup_insert_eq | | apply lookup_mid0]; reflexivity].
  erewrite bind_Done;
    [|eapply (setitem_ok _ _ _ _ (length pre));
      [apply lookup_insert_eq | reflexivity | rewrite length_app; simpl; lia]].
  rewrite insert_insert_eq, insert_mid0.
  erewrite bind_Done;
    [|eapply (setitem_ok _ _ _ _ (S (length pre)));
      [apply lookup_insert_eq | lia | rewrite length_app; simpl; lia]].
  rewrite insert_insert_eq, insert_mid1. reflexivity.
Qed.

(** The inner loop started at position [length pre] does to the list what
    [bubble_run] describes. *)
Lemma bubble_inner_ok (a : loc) (s0 : store) (k : nat) :
  forall (pre : list T) (x : T) (rest : list T) (sw : bool) (lo hi : Z),
    (k <= length rest)%nat ->
    lo = Z.of_nat (length pre) -> hi = lo + Z.of_nat k ->
    for_each (range lo hi) sw (bubble_step a) (<[a := pre ++ x :: rest]> s0) =
    Done (bubble_run k x rest sw).2 (<[a := pre ++ (bubble_run k x rest sw).1]> s0).
Proof.
  induction k as [|k IH]; intros pre x rest sw lo hi Hk Hlo Hhi.
  - rewrite range_nil by lia. destruct rest; reflexivity.
  - destruct rest as [|y rest]; simpl in Hk; [lia|].
    rewrite range_cons by lia. cbn [for_each].
    rewrite bind_eq, bubble_step_ok by exact Hlo.
    cbn [bubble_run]. destruct (py_gt x y).
    + replace (pre ++ y :: x :: rest) with ((pre ++ [y]) ++ x :: rest)
        by (rewrite <- app_assoc; reflexivity).
      rewrite (IH (pre ++ [y]) x rest true (lo + 1) hi);
        [|lia|rewrite length_app; simpl; lia|lia].
      destruct (bubble_run k x rest true) as [r s]. simpl.
      rewrite <- app_assoc. reflexivity.
    + replace (pre ++ x :: y :: rest) with ((pre ++ [x]) ++ y :: rest)
        by (rewrite <- app_assoc; reflexivity).
      rewrite (IH (pre ++ [x]) y rest sw (lo + 1) hi);
        [|lia|rewrite length_app; simpl; lia|lia].
      destruct (bubble_run k y rest sw) as [r s]. simpl.
      rewrite <- app_assoc. reflexivity.
Qed.

(** Pass [i] on a list whose last [i] elements are [back]. *)
Lemma bubble_pass_ok (a : loc) (s0 : store) (x : T) (l back : list T) (n i : Z) :
  i = Z.of_nat (length back) -> n = Z.of_nat (length (x :: l ++ back)) ->
  bubble_pass a n i (<[a := x :: l ++ back]> s0) =
  Done (negb (bubble_run (length l) x l false).2)
       (<[a := (bubble_run (length l) x l false).1 ++ back]> s0).
Proof.
  intros Hi Hn. unfold bubble_pass.
  simpl in Hn. rewrite length_app in Hn.
  erewrite bind_Done;
    [|apply (bubble_inner_ok a s0 (length l) [] x (l ++ back) false);
      [rewrite length_app; lia | reflexivity | simpl; lia]].
  rewrite bubble_run_app by lia. reflexivity.
Qed.

(** [m] passes of the outer loop from pass [length back] on, when the
    last elements [back] are in order and none of the others exceeds
    them: afterwards this holds of the last [length back + m] elements. *)
Lemma bubble_outer_ok (a : loc) (s0 : store) (n : Z) (m : nat) :
  forall (front back : list T),
    (m <= length front)%nat -> n = Z.of_nat (length (front ++ back)) ->
    StronglySorted le_rel back ->
    (forall x y, In x front -> In y back -> py_le x y = true) ->
    exists front' back',
      for_break (range (Z.of_nat (length back)) (Z.of_nat (length back + m)))
        (bubble_pass a n) (<[a := front ++ back]> s0)
      = Done tt (<[a := front' ++ back']> s0) /\
      length back' = (length back + m)%nat /\
      StronglySorted le_rel back' /\
      (forall x y, In x front' -> In y back' -> py_le x y = true) /\
      stable_perm (front ++ back) (front' ++ back').
Proof.
  induction m as [|m IH]; intros front back Hm Hn Sb Hfb.
  - rewrite range_nil by lia. exists front, back.
    split; [reflexivity|]. split; [lia|]. split; [exact Sb|].
    split; [exact Hfb | apply stable_perm_refl].
  - destruct front as [|x l]; [simpl in Hm; lia|]. simpl in Hm.
    rewrite range_cons by lia. cbn [for_break].
    erewrite bind_Done; [|apply bubble_pass_ok; [reflexivity | exact Hn]].
    pose proof (bubble_run_stable (length l) x l false) as Hst.
    destruct (bubble_run (length l) x l false) as [r0 sw] eqn:Er.
    destruct sw; simpl.
    + destruct (bubble_run_last x l false) as (r & mx & E & F).
      rewrite Er in E. simpl in E, Hst. subst r0.
      assert (In mx (x :: l)) as Hmx.
      { apply (stable_perm_elem (r ++ [mx])); [apply stable_perm_sym, Hst|].
        apply List.in_or_app. right. left. reflexivity. }
      assert (forall z, In z r -> In z (x :: l)) as Hr.
      { intros z Hz. apply (stable_perm_elem (r ++ [mx])); [apply stable_perm_sym, Hst|].
        apply List.in_or_app. left. exact Hz. }
      assert (length r = length l) as Hlr.
      { apply stable_perm_length in Hst. rewrite length_app in Hst. simpl in Hst. lia. }
      destruct (IH r (mx :: back)) as (front' & back' & Hrun & Hlen & Sres & Hcross & Hres).
      * lia.
      * rewrite Hn. simpl. rewrite !length_app. simpl. lia.
      * constructor; [exact Sb|]. apply List.Forall_forall. intros y Hy.
        apply Hfb; assumption.
      * intros z y Hz [<-|Hy].
        -- exact (proj1 (List.Forall_forall _ _) F z (Hr z Hz)).
        -- apply Hfb; [apply Hr, Hz | exact Hy].
      * exists front', back'. rewrite <- app_assoc. simpl.
        replace (Z.of_nat (length back) + 1) with (Z.of_nat (length (mx :: back)))
          by (simpl; lia).
        replace (Z.of_nat (length back + S m))
          with (Z.of_nat (length (mx :: back) + m)) by (simpl; lia).
        split; [exact Hrun|]. split; [simpl in Hlen; lia|].
        split; [exact Sres|]. split; [exact Hcross|].
        eapply stable_perm_trans; [|exact Hres].
        change (x :: l ++ back) with ((x :: l) ++ back).
        replace (r ++ mx :: back) with ((r ++ [mx]) ++ back)
          by (rewrite <- app_assoc; reflexivity).
        apply stable_perm_app; [exact Hst | apply stable_perm_refl].
    + pose proof (bubble_run_noswap x l) as Hns. rewrite Er in Hns.
      simpl in Hns. destruct (Hns eq_refl) as [-> Sf].
      set (c := (length (x :: l) - S m)%nat).
      assert (StronglySorted le_rel (take c (x :: l) ++ drop c (x :: l) ++ back)) as Sall.
      { rewrite app_assoc, take_drop. apply StronglySorted_app_le; assumption. }
      exists (take c (x :: l)), (drop c (x :: l) ++ back).
      split; [rewrite app_assoc, take_drop; reflexivity|].
      split; [rewrite length_app, length_drop; subst c; simpl; lia|].
      split; [exact (proj1 (StronglySorted_app_inv _ _ Sall))|].
      split; [exact (proj2 (StronglySorted_app_inv _ _ Sall))|].
      rewrite app_assoc, take_drop. apply stable_perm_refl.
Qed.

End BubbleLoops.

Section BubbleSpec.
Context {T : Type} {CT : Cmp T} {OT : TotalOrder T}.

Local Abbreviation store := (gmap loc (list T)).

Lemma returns_fresh_insert (m : M (T:=T) loc) (s : store) (a : loc) (v : list T) :
  s !! a = None -> m s = Done a (<[a := v]> s) -> returns_fresh m s v.
Proof.
  intros Ha E. exists a, (<[a := v]> s).
  split; [exact E|]. split; [exact Ha|]. split; [apply lookup_insert_eq|].
  apply insert_subseteq, Ha.
Qed.

Lemma bubble_sort_spec (s : store) (arr : loc) (xs : list T) :
  s !! arr = Some xs -> returns_fresh (bubble_sort arr) s (sorted xs).
Proof.
  intros E. apply (returns_fresh_insert _ _ (fresh (dom s))); [apply fresh_None|].
  unfold bubble_sort.
  erewrite bind_Done; [|rewrite (list_ok _ _ _ E); apply alloc_eq].
  erewrite bind_Done; [|apply len_ok, lookup_insert_eq].
  destruct (bubble_outer_ok (fresh (dom s)) s (Z.of_nat (length xs)) (length xs) xs [])
    as (front' & back' & Hrun & Hlen & Sb & _ & Hst).
  - lia.
  - rewrite app_nil_r. reflexivity.
  - constructor.
  - intros x y _ [].
  - rewrite app_nil_r in Hrun, Hst. simpl in Hrun, Hlen.
    assert (front' = []) as ->.
    { apply stable_perm_length in Hst. rewrite length_app in Hst.
      destruct front'; [reflexivity | simpl in Hst; lia]. }
    simpl in Hrun, Hst.
    erewrite bind_Done; [|exact Hrun].
    rewrite (sorted_unique xs back' Sb Hst). reflexivity.
Qed.

End BubbleSpec.

(** ** [insertion_sort] *)

Section InsertionFacts.
Context {T : Type} {CT : Cmp T} {OT : TotalOrder T}.

Local Abbreviation store := (gmap loc (list T)).

Lemma while_S {S} (fuel : nat) (cond : S -> M (T:=T) bool) (body : S -> M S) (st : S) :
  while_ (Datatypes.S fuel) cond body st =
  (b ← cond st; if b : bool then st' ← body st; while_ fuel cond body st' else ret st).
Proof. reflexivity. Qed.

Lemma shift_cond_neg (a : loc) (key : T) (j : Z) (s : store) :
  j < 0 -> shift_cond a key j s = Done false s.
Proof. intros Hj. unfold shift_cond. destruct (Z.leb_spec 0 j); [lia | reflexivity]. Qed.

Lemma shift_cond_ok (a : loc) (key z : T) (j : Z) (k : nat) (xs : list T) (s : store) :
  s !! a = Some xs -> j = Z.of_nat k -> xs !! k = Some z ->
  shift_cond a key j s = Done (py_gt z key) s.
Proof.
  intros E Hj Hz. unfold shift_cond. destruct (Z.leb_spec 0 j); [|lia].
  erewrite bind_Done; [|eapply getitem_ok; eassumption]. reflexivity.
Qed.

Lemma shift_body_ok (a : loc) (s0 : store) (p rest : list T) (z d : T) (j : Z) :
  j = Z.of_nat (length p) ->
  shift_body a j (<[a := p ++ z :: d :: rest]> s0) =
  Done (j - 1) (<[a := p ++ z :: z :: rest]> s0).
Proof.
  intros ->. unfold shift_body.
  erewrite bind_Done;
    [|eapply getitem_ok; [apply lookup_insert_eq | | apply lookup_mid0]; reflexivity].
  erewrite bind_Done;
    [|eapply (setitem_ok _ _ _ _ (S (length p)));
      [apply lookup_insert_eq | lia | rewrite length_app; simpl; lia]].
  rewrite insert_insert_eq, insert_mid1. reflexivity.
Qed.

(** The [while] loop started below a hole at position [length p1]: the
    elements greater than [key] at the end of [p1] move one place up. *)
Lemma shift_loop_ok (a : loc) (s0 : store) (key : T) (p1 : list T) :
  forall (d : T) (rest : list T) (fuel : nat),
    (length p1 < fuel)%nat ->
    exists q1 q2 d',
      while_ fuel (shift_cond a key) (shift_body a) (Z.of_nat (length p1) - 1)
        (<[a := p1 ++ d :: rest]> s0)
      = Done (Z.of_nat (length q1) - 1) (<[a := q1 ++ d' :: q2 ++ rest]> s0) /\
      p1 = q1 ++ q2 /\
      List.Forall (fun z => py_gt z key = true) q2 /\
      (forall q z, q1 = q ++ [z] -> py_gt z key = false).
Proof.
  induction p1 as [|z p IH] using rev_ind; intros d rest fuel Hf.
  - destruct fuel as [|fuel]; [simpl in Hf; lia|].
    exists [], [], d. rewrite while_S.
    erewrite bind_Done; [|apply shift_cond_neg; simpl; lia].
    split; [reflexivity|]. split; [reflexivity|]. split; [constructor|].
    intros [|? ?] ? ?; discriminate.
  - destruct fuel as [|fuel]; [lia|].
    rewrite length_app in Hf. simpl in Hf.
    rewrite while_S. rewrite <- app_assoc. simpl.
    replace (Z.of_nat (length (p ++ [z])) - 1) with (Z.of_nat (length p))
      by (rewrite length_app; simpl; lia).
    erewrite bind_Done;
      [|eapply shift_cond_ok; [apply lookup_insert_eq | reflexivity | apply lookup_mid0]].
    destruct (py_gt z key) eqn:Ez.
    + erewrite bind_Done; [|apply shift_body_ok; reflexivity].
      destruct (IH z (z :: rest) fuel) as (q1 & q2 & d' & Hrun & Hp & Hq2 & Hq1); [lia|].
      exists q1, (q2 ++ [z]), d'.
      split; [rewrite Hrun, <- app_assoc; reflexivity|].
      split; [rewrite Hp, <- app_assoc; reflexivity|].
      split; [|exact Hq1].
      apply List.Forall_app. split; [exact Hq2|]. constructor; [exact Ez | constructor].
    + exists (p ++ [z]), [], d.
      split.
      { rewrite <- app_assoc. simpl. replace (Z.of_nat (length (p ++ [z])) - 1)
          with (Z.of_nat (length p)) by (rewrite length_app; simpl; lia). reflexivity. }
      split; [rewrite app_nil_r; reflexivity|]. split; [constructor|].
      intros q z' Hq. apply app_inj_tail in Hq. destruct Hq as [_ <-]. exact Ez.
Qed.

Lemma insertion_step_ok (a : loc) (s0 : store) (fuel : nat) (pre post : list T) (key : T) (i : Z) :
  (length pre < fuel)%nat -> i = Z.of_nat (length pre) ->
  exists q1 q2,
    insertion_step fuel a i tt (<[a := pre ++ key :: post]> s0)
    = Done tt (<[a := (q1 ++ key :: q2) ++ post]> s0) /\
    pre = q1 ++ q2 /\
    List.Forall (fun z => py_gt z key = true) q2 /\
    (forall q z, q1 = q ++ [z] -> py_gt z key = false).
Proof.
  intros Hf ->. unfold insertion_step.
  erewrite bind_Done;
    [|eapply getitem_ok; [apply lookup_insert_eq | | apply lookup_mid0]; reflexivity].
  destruct (shift_loop_ok a s0 key pre key post fuel Hf)
    as (q1 & q2 & d' & Hrun & Hp & Hq2 & Hq1).
  exists q1, q2. erewrite bind_Done; [|exact Hrun].
  split; [|tauto].
  erewrite (setitem_ok _ _ _ _ (length q1));
    [|apply lookup_insert_eq | lia | rewrite length_app; simpl; lia].
  rewrite insert_insert_eq, insert_mid0, <- app_assoc. reflexivity.
Qed.

(** Putting [key] behind the elements it is not less than keeps the order. *)
Lemma insert_back_sorted (key : T) (q1 q2 : list T) :
  StronglySorted le_rel (q1 ++ q2) ->
  List.Forall (fun z => py_gt z key = true) q2 ->
  (forall q z, q1 = q ++ [z] -> py_gt z key = false) ->
  StronglySorted le_rel (q1 ++ key :: q2).
Proof.
  intros S Hq2 Hq1.
  destruct (StronglySorted_app_inv _ _ S) as [S2 Hc].
  assert (StronglySorted le_rel q1) as S1.
  { clear -S. induction q1 as [|x q1 IH]; [constructor|].
    simpl in S. inversion S as [|? ? S' F]; subst.
    constructor; [apply IH, S'|]. apply List.Forall_app in F. tauto. }
  apply StronglySorted_app_le; [exact S1| |].
  - constructor; [exact S2|].
    eapply List.Forall_impl; [|exact Hq2]. intros z Hz. apply (py_gt_true _ _ Hz).
  - assert (forall x, In x q1 -> py_le x key = true) as Hk.
    { destruct q1 as [|x0 q1'] using rev_ind; [intros x []|].
      clear IHq1'. pose proof (Hq1 _ _ eq_refl) as Ex0. apply py_gt_false in Ex0.
      intros x Hx. apply List.in_app_or in Hx. destruct Hx as [Hx|[<-|[]]]; [|exact Ex0].
      apply (py_le_trans x x0 key); [|exact Ex0].
      destruct (StronglySorted_app_inv _ _ S1) as [_ Hc1].
      apply Hc1; [exact Hx | left; reflexivity]. }
    intros x y Hx [<-|Hy]; [apply Hk, Hx|]. apply Hc; assumption.
Qed.

(** ... and keeps every class in its order. *)
Lemma insert_back_stable (key : T) (q1 q2 : list T) :
  List.Forall (fun z => py_gt z key = true) q2 ->
  stable_perm ((q1 ++ q2) ++ [key]) (q1 ++ key :: q2).
Proof.
  intros Hq2. rewrite <- app_assoc.
  apply stable_perm_app; [apply stable_perm_refl|].
  induction Hq2 as [|z q2 Hz Hq2 IH]; [apply stable_perm_refl|].
  simpl. eapply stable_perm_trans; [apply stable_perm_cons, IH|].
  apply stable_perm_swap. apply py_gt_true in Hz. apply Hz.
Qed.

Lemma insertion_outer_ok (a : loc) (s0 : store) (fuel : nat) (n : Z) (post : list T) :
  forall (pre : list T),
    (length (pre ++ post) < fuel)%nat -> n = Z.of_nat (length (pre ++ post)) ->
    StronglySorted le_rel pre ->
    exists res,
      for_each (range (Z.of_nat (length pre)) n) tt (insertion_step fuel a)
        (<[a := pre ++ post]> s0) = Done tt (<[a := res]> s0) /\
      StronglySorted le_rel res /\ stable_perm (pre ++ post) res.
Proof.
  induction post as [|key post IH]; intros pre Hf Hn Sp.
  - rewrite app_nil_r in *. rewrite range_nil by lia. exists pre.
    split; [reflexivity|]. split; [exact Sp | apply stable_perm_refl].
  - rewrite length_app in Hf, Hn. simpl in Hf, Hn.
    rewrite range_cons by lia. cbn [for_each].
    destruct (insertion_step_ok a s0 fuel pre post key (Z.of_nat (length pre)))
      as (q1 & q2 & Hrun & Hp & Hq2 & Hq1); [lia | reflexivity |].
    erewrite bind_Done; [|exact Hrun].
    assert (length (q1 ++ key :: q2) = S (length pre)) as Hl.
    { rewrite Hp, !length_app. simpl. lia. }
    destruct (IH (q1 ++ key :: q2)) as (res & Hres & Sres & Hst).
    + rewrite length_app, Hl. lia.
    + rewrite length_app, Hl. lia.
    + apply insert_back_sorted; [rewrite <- Hp; exact Sp | exact Hq2 | exact Hq1].
    + exists res. rewrite Hl in Hres.
      replace (Z.of_nat (length pre) + 1) with (Z.of_nat (S (length pre))) by lia.
      split; [exact Hres|]. split; [exact Sres|].
      eapply stable_perm_trans; [|exact Hst].
      replace (pre ++ key :: post) with ((pre ++ [key]) ++ post)
        by (rewrite <- app_assoc; reflexivity).
      apply stable_perm_app; [|apply stable_perm_refl].
      rewrite Hp. apply insert_back_stable, Hq2.
Qed.

Lemma insertion_sort_spec (s : store) (arr : loc) (xs : list T) (fuel : nat) :
  s !! arr = Some xs -> (length xs < fuel)%nat ->
  returns_fresh (insertion_sort fuel arr) s (sorted xs).
Proof.
  intros E Hf. apply (returns_fresh_insert _ _ (fresh (dom s))); [apply fresh_None|].
  unfold insertion_sort.
  erewrite bind_Done; [|rewrite (list_ok _ _ _ E); apply alloc_eq].
  erewrite bind_Done; [|apply len_ok, lookup_insert_eq].
  destruct xs as [|x l].
  - rewrite range_nil by (simpl; lia). reflexivity.
  - destruct (insertion_outer_ok (fresh (dom s)) s fuel (Z.of_nat (length (x :: l))) l [x])
      as (res & Hrun & Sres & Hst); [exact Hf | reflexivity | repeat constructor|].
    simpl in Hrun. erewrite bind_Done; [|exact Hrun].
    rewrite (sorted_unique (x :: l) res Sres Hst). reflexivity.
Qed.

End InsertionFacts.

(** ** [merge_sort] *)

Section MergeFacts.
Context {T : Type} {CT : Cmp T} {OT : TotalOrder T}.

Local Abbreviation store := (gmap loc (list T)).

Lemma spec_merge_nil_l (l : list T) : spec_merge [] l = l.
Proof. destruct l; reflexivity. Qed.

Lemma spec_merge_nil_r (l : list T) : spec_merge l [] = l.
Proof. destruct l; reflexivity. Qed.

Lemma spec_merge_cons (x y : T) (l1 l2 : list T) :
  spec_merge (x :: l1) (y :: l2) =
  if py_le x y then x :: spec_merge l1 (y :: l2) else y :: spec_merge (x :: l1) l2.
Proof. reflexivity. Qed.

Lemma spec_merge_sort_base (xs : list T) :
  (length xs <= 1)%nat -> spec_merge_sort xs = xs.
Proof.
  intros Hl. rewrite spec_merge_sort_equation_1.
  destruct (le_lt_dec (length xs) 1); [reflexivity | lia].
Qed.

Lemma spec_merge_sort_rec (xs : list T) :
  (1 < length xs)%nat ->
  spec_merge_sort xs =
  spec_merge (spec_merge_sort (take (Nat.div (length xs) 2) xs))
             (spec_merge_sort (drop (Nat.div (length xs) 2) xs)).
Proof.
  intros Hl. rewrite spec_merge_sort_equation_1.
  destruct (le_lt_dec (length xs) 1); [lia | reflexivity].
Qed.

Lemma spec_merge_length (l1 l2 : list T) :
  length (spec_merge l1 l2) = (length l1 + length l2)%nat.
Proof.
  revert l2. induction l1 as [|x l1 IH1]; intros l2.
  - rewrite spec_merge_nil_l. reflexivity.
  - induction l2 as [|y l2 IH2]; [rewrite spec_merge_nil_r; simpl; lia|].
    rewrite spec_merge_cons. destruct (py_le x y); simpl.
    + rewrite IH1. simpl. lia.
    + simpl in IH2. rewrite IH2. lia.
Qed.

Lemma spec_merge_Forall (P : T -> Prop) (l1 l2 : list T) :
  List.Forall P l1 -> List.Forall P l2 -> List.Forall P (spec_merge l1 l2).
Proof.
  intros F1. revert l2. induction F1 as [|x l1 Hx F1 IH1]; intros l2 F2.
  - rewrite spec_merge_nil_l. exact F2.
  - induction F2 as [|y l2 Hy F2 IH2]; [rewrite spec_merge_nil_r; constructor; assumption|].
    rewrite spec_merge_cons. destruct (py_le x y).
    + constructor; [exact Hx|]. apply IH1. constructor; assumption.
    + constructor; [exact Hy | exact IH2].
Qed.

Lemma spec_merge_sorted (l1 l2 : list T) :
  StronglySorted le_rel l1 -> StronglySorted le_rel l2 ->
  StronglySorted le_rel (spec_merge l1 l2).
Proof.
  intros S1. revert l2. induction S1 as [|x l1 S1 IH1 F1]; intros l2 S2.
  - rewrite spec_merge_nil_l. exact S2.
  - induction S2 as [|y l2 S2 IH2 F2]; [rewrite spec_merge_nil_r; constructor; assumption|].
    rewrite spec_merge_cons. destruct (py_le x y) eqn:E.
    + constructor; [apply IH1; constructor; assumption|].
      apply spec_merge_Forall; [exact F1|].
      constructor; [exact E|].
      eapply List.Forall_impl; [|exact F2]. intros z Hz. exact (py_le_trans x y z E Hz).
    + constructor; [exact IH2|].
      assert (py_le y x = true) as E' by (destruct (py_le_total x y); congruence).
      apply spec_merge_Forall; [|exact F2].
      constructor; [exact E'|].
      eapply List.Forall_impl; [|exact F1]. intros z Hz. exact (py_le_trans y x z E' Hz).
Qed.

(** An element moved in front of elements it is strictly less than. *)
Lemma stable_perm_front (y : T) (l r : list T) :
  List.Forall (fun z => py_le z y = false) l ->
  stable_perm (l ++ y :: r) (y :: l ++ r).
Proof.
  induction 1 as [|z l Hz Hl IH]; [apply stable_perm_refl|].
  simpl. eapply stable_perm_trans; [apply stable_perm_cons, IH|].
  apply stable_perm_swap, Hz.
Qed.

Lemma spec_merge_stable (l1 l2 : list T) :
  StronglySorted le_rel l1 -> stable_perm (l1 ++ l2) (spec_merge l1 l2).
Proof.
  intros S1. revert l2. induction S1 as [|x l1 S1 IH1 F1]; intros l2.
  - rewrite spec_merge_nil_l. apply stable_perm_refl.
  - induction l2 as [|y l2 IH2];
      [rewrite spec_merge_nil_r, app_nil_r; apply stable_perm_refl|].
    rewrite spec_merge_cons. destruct (py_le x y) eqn:E.
    + simpl. apply stable_perm_cons, IH1.
    + eapply stable_perm_trans; [|apply stable_perm_cons, IH2].
      apply (stable_perm_front y (x :: l1) l2).
      constructor; [exact E|].
      eapply List.Forall_impl; [|exact F1]. intros z Hz.
      destruct (py_le z y) eqn:Ezy; [|reflexivity].
      rewrite (py_le_trans x z y Hz Ezy) in E. discriminate.
Qed.

Lemma spec_merge_sort_sorted_stable (xs : list T) :
  StronglySorted le_rel (spec_merge_sort xs) /\ stable_perm xs (spec_merge_sort xs).
Proof.
  remember (length xs) as n eqn:Hn. revert xs Hn.
  induction n as [n IH] using lt_wf_ind. intros xs ->.
  destruct (le_lt_dec (length xs) 1) as [Hl|Hl].
  - rewrite spec_merge_sort_base by exact Hl. split; [|apply stable_perm_refl].
    destruct xs as [|x [|y xs]]; [constructor | repeat constructor | simpl in Hl; lia].
  - rewrite spec_merge_sort_rec by exact Hl.
    assert (0 < Nat.div (length xs) 2 < length xs)%nat as Hmid.
    { split; [apply Nat.div_str_pos; lia | apply Nat.div_lt; lia]. }
    destruct (IH (length (take (Nat.div (length xs) 2) xs))) with
      (xs := take (Nat.div (length xs) 2) xs) as [S1 P1];
      [rewrite length_take; lia | reflexivity |].
    destruct (IH (length (drop (Nat.div (length xs) 2) xs))) with
      (xs := drop (Nat.div (length xs) 2) xs) as [S2 P2];
      [rewrite length_drop; lia | reflexivity |].
    split; [apply spec_merge_sorted; assumption|].
    eapply stable_perm_trans; [|apply spec_merge_stable, S1].
    rewrite <- (take_drop (Nat.div (length xs) 2) xs) at 1.
    apply stable_perm_app; assumption.
Qed.

Lemma spec_merge_sort_sorted (xs : list T) : spec_merge_sort xs = sorted xs.
Proof.
  destruct (spec_merge_sort_sorted_stable xs) as [S P].
  apply sorted_unique; assumption.
Qed.

End MergeFacts.

Section MergeLoops.
Context {T : Type} {CT : Cmp T} {OT : TotalOrder T}.

Local Abbreviation store := (gmap loc (list T)).

Lemma subseteq_insert_fresh (s s1 : store) (l : loc) (v : list T) :
  s ⊆ s1 -> s1 !! l = None -> s ⊆ <[l := v]> s1.
Proof.
  intros Hsub Hl. apply insert_subseteq_r; [|exact Hsub].
  exact (lookup_weaken_None _ _ _ Hl Hsub).
Qed.

Lemma merge_cond_ok (left right : loc) (L R : list T) (i j : Z) (s : store) :
  s !! left = Some L -> s !! right = Some R ->
  merge_cond left right (i, j) s =
  Done ((i <? Z.of_nat (length L)) && (j <? Z.of_nat (length R))) s.
Proof.
  intros EL ER. unfold merge_cond.
  erewrite bind_Done; [|apply len_ok, EL]. simpl.
  destruct (i <? Z.of_nat (length L)); [|reflexivity].
  erewrite bind_Done; [|apply len_ok, ER]. reflexivity.
Qed.

Lemma merge_body_ok (left right out : loc) (s0 : store) (L R o : list T)
    (x y : T) (i j : Z) (ki kj : nat) :
  s0 !! left = Some L -> s0 !! right = Some R -> out <> left -> out <> right ->
  i = Z.of_nat ki -> j = Z.of_nat kj -> L !! ki = Some x -> R !! kj = Some y ->
  merge_body left right out (i, j) (<[out := o]> s0) =
  if py_le x y then Done (i + 1, j) (<[out := o ++ [x]]> s0)
  else Done (i, j + 1) (<[out := o ++ [y]]> s0).
Proof.
  intros EL ER Hl Hr Hi Hj Hx Hy. unfold merge_body. simpl.
  assert (<[out := o]> s0 !! left = Some L) as EL' by (rewrite lookup_insert_ne; assumption).
  assert (<[out := o]> s0 !! right = Some R) as ER' by (rewrite lookup_insert_ne; assumption).
  erewrite bind_Done; [|eapply getitem_ok; eassumption].
  erewrite bind_Done; [|eapply getitem_ok; eassumption].
  destruct (py_le x y).
  - erewrite bind_Done; [|eapply getitem_ok; eassumption].
    erewrite bind_Done; [|apply append_ok, lookup_insert_eq].
    rewrite insert_insert_eq. reflexivity.
  - erewrite bind_Done; [|eapply getitem_ok; eassumption].
    erewrite bind_Done; [|apply append_ok, lookup_insert_eq].
    rewrite insert_insert_eq. reflexivity.
Qed.

(** The [while] loop of [_merge] from positions [length pre1] and
    [length pre2]: what it appends to [out], followed by what is left of
    the two lists, is the merge of the parts not yet visited. *)
Lemma merge_loop_ok (left right out : loc) (s0 : store) (fuel : nat) :
  forall (pre1 l1 pre2 l2 o : list T),
    s0 !! left = Some (pre1 ++ l1) -> s0 !! right = Some (pre2 ++ l2) ->
    out <> left -> out <> right ->
    (length l1 + length l2 < fuel)%nat ->
    exists i' j' m,
      while_ fuel (merge_cond left right) (merge_body left right out)
        (Z.of_nat (length pre1), Z.of_nat (length pre2)) (<[out := o]> s0)
      = Done (i', j') (<[out := o ++ m]> s0) /\
      0 <= i' /\ 0 <= j' /\
      m ++ drop (Z.to_nat i') (pre1 ++ l1) ++ drop (Z.to_nat j') (pre2 ++ l2)
      = spec_merge l1 l2.
Proof.
  induction fuel as [|fuel IH]; intros pre1 l1 pre2 l2 o EL ER Hl Hr Hf; [lia|].
  rewrite while_S.
  erewrite bind_Done;
    [|eapply merge_cond_ok; rewrite lookup_insert_ne by assumption; eassumption].
  rewrite !length_app.
  destruct l1 as [|x l1].
  { destruct (Z.ltb_spec (Z.of_nat (length pre1)) (Z.of_nat (length pre1 + length (@nil T))));
      [simpl in *; lia|]. simpl andb. cbv iota.
    exists (Z.of_nat (length pre1)), (Z.of_nat (length pre2)), [].
    rewrite app_nil_r. split; [reflexivity|]. split; [lia|]. split; [lia|].
    rewrite !Nat2Z.id, !drop_app_length, spec_merge_nil_l. reflexivity. }
  destruct l2 as [|y l2].
  { destruct (Z.ltb_spec (Z.of_nat (length pre2)) (Z.of_nat (length pre2 + length (@nil T))));
      [simpl in *; lia|]. rewrite andb_false_r.
    exists (Z.of_nat (length pre1)), (Z.of_nat (length pre2)), [].
    rewrite app_nil_r. split; [reflexivity|]. split; [lia|]. split; [lia|].
    rewrite !Nat2Z.id, !drop_app_length, spec_merge_nil_r, app_nil_r. reflexivity. }
  destruct (Z.ltb_spec (Z.of_nat (length pre1)) (Z.of_nat (length pre1 + length (x :: l1))));
    [|simpl in *; lia].
  destruct (Z.ltb_spec (Z.of_nat (length pre2)) (Z.of_nat (length pre2 + length (y :: l2))));
    [|simpl in *; lia].
  cbn [andb].
  rewrite bind_eq.
  rewrite (merge_body_ok left right out s0 _ _ o x y _ _ (length pre1) (length pre2)
             EL ER Hl Hr eq_refl eq_refl (lookup_mid0 _ _ _) (lookup_mid0 _ _ _)).
  rewrite spec_merge_cons. simpl in Hf. destruct (py_le x y).
  - destruct (IH (pre1 ++ [x]) l1 pre2 (y :: l2) (o ++ [x]))
      as (i' & j' & m & Hrun & Hi & Hj & Hm).
    + rewrite <- app_assoc. exact EL.
    + exact ER.
    + exact Hl.
    + exact Hr.
    + simpl. lia.
    + exists i', j', (x :: m).
      rewrite length_app in Hrun. simpl in Hrun.
      replace (Z.of_nat (length pre1) + 1) with (Z.of_nat (length pre1 + 1)) by lia.
      rewrite Hrun, <- app_assoc. split; [reflexivity|]. split; [exact Hi|].
      split; [exact Hj|]. rewrite <- app_assoc in Hm. simpl in *. rewrite Hm. reflexivity.
  - destruct (IH pre1 (x :: l1) (pre2 ++ [y]) l2 (o ++ [y]))
      as (i' & j' & m & Hrun & Hi & Hj & Hm).
    + exact EL.
    + rewrite <- app_assoc. exact ER.
    + exact Hl.
    + exact Hr.
    + simpl. lia.
    + exists i', j', (y :: m).
      rewrite length_app in Hrun. simpl in Hrun.
      replace (Z.of_nat (length pre2) + 1) with (Z.of_nat (length pre2 + 1)) by lia.
      rewrite Hrun, <- app_assoc. split; [reflexivity|]. split; [exact Hi|].
      split; [exact Hj|]. rewrite <- app_assoc in Hm. simpl in *. rewrite Hm. reflexivity.
Qed.

Lemma _merge_ok (fuel : nat) (left right : loc) (L R : list T) (s : store) :
  s !! left = Some L -> s !! right = Some R ->
  (length L + length R < fuel)%nat ->
  returns_fresh (_merge fuel left right) s (spec_merge L R).
Proof.
  intros EL ER Hf. unfold returns_fresh, _merge.
  set (out := fresh (dom s)).
  assert (s !! out = None) as Hout by apply fresh_None.
  assert (out <> left) as Hl by congruence.
  assert (out <> right) as Hr by congruence.
  erewrite bind_Done; [|apply alloc_eq]. fold out.
  destruct (merge_loop_ok left right out s fuel [] L [] R [] EL ER Hl Hr Hf)
    as (i' & j' & m & Hrun & Hi & Hj & Hm).
  simpl in Hrun, Hm. erewrite bind_Done; [|exact Hrun]. simpl.
  set (s1 := <[out := m]> s).
  assert (s ⊆ s1) as H1 by (apply insert_subseteq, Hout).
  erewrite bind_Done;
    [|erewrite slice_from_ok;
      [apply alloc_eq | exact (lookup_weaken _ _ _ _ EL H1) | exact Hi]].
  set (tl := fresh (dom s1)).
  assert (s1 !! tl = None) as Htl by apply fresh_None.
  assert (tl <> out) as Hne1.
  { intros E. rewrite E in Htl. unfold s1 in Htl. rewrite lookup_insert_eq in Htl. discriminate. }
  erewrite bind_Done;
    [|eapply extend_ok;
      [rewrite lookup_insert_ne by exact Hne1; apply lookup_insert_eq
      |apply lookup_insert_eq]].
  set (s2 := <[out := m ++ drop (Z.to_nat i') L]> (<[tl := drop (Z.to_nat i') L]> s1)).
  assert (s ⊆ s2) as H2.
  { apply insert_subseteq_r; [exact Hout|]. apply subseteq_insert_fresh; assumption. }
  erewrite bind_Done;
    [|erewrite slice_from_ok;
      [apply alloc_eq | exact (lookup_weaken _ _ _ _ ER H2) | exact Hj]].
  set (tr := fresh (dom s2)).
  assert (s2 !! tr = None) as Htr by apply fresh_None.
  assert (tr <> out) as Hne2.
  { intros E. rewrite E in Htr. unfold s2 in Htr. rewrite lookup_insert_eq in Htr. discriminate. }
  erewrite bind_Done;
    [|eapply extend_ok;
      [rewrite lookup_insert_ne by exact Hne2; apply lookup_insert_eq
      |apply lookup_insert_eq]].
  exists out, (<[out := (m ++ drop (Z.to_nat i') L) ++ drop (Z.to_nat j') R]>
                 (<[tr := drop (Z.to_nat j') R]> s2)).
  split; [reflexivity|]. split; [exact Hout|].
  split; [rewrite lookup_insert_eq, <- app_assoc, Hm; reflexivity|].
  apply insert_subseteq_r; [exact Hout|]. apply subseteq_insert_fresh; assumption.
Qed.

Lemma returns_fresh_alloc (s : store) (v : list T) : returns_fresh (alloc v) s v.
Proof. apply (returns_fresh_insert _ _ (fresh (dom s))); [apply fresh_None | reflexivity]. Qed.

(** The scheme keeps the length whatever the comparison answers. *)
Lemma spec_merge_sort_length (xs : list T) : length (spec_merge_sort xs) = length xs.
Proof.
  remember (length xs) as n eqn:Hn. revert xs Hn.
  induction n as [n IH] using lt_wf_ind. intros xs ->.
  destruct (le_lt_dec (length xs) 1) as [Hl|Hl].
  - rewrite spec_merge_sort_base by exact Hl. reflexivity.
  - rewrite spec_merge_sort_rec by exact Hl.
    assert (0 < Nat.div (length xs) 2 < length xs)%nat as Hmid.
    { split; [apply Nat.div_str_pos; lia | apply Nat.div_lt; lia]. }
    rewrite spec_merge_length.
    rewrite (IH (length (take (Nat.div (length xs) 2) xs))) with
      (xs := take (Nat.div (length xs) 2) xs); [|rewrite length_take; lia | reflexivity].
    rewrite (IH (length (drop (Nat.div (length xs) 2) xs))) with
      (xs := drop (Nat.div (length xs) 2) xs); [|rewrite length_drop; lia | reflexivity].
    rewrite length_take, length_drop. lia.
Qed.

Lemma merge_sort_spec (fuel : nat) :
  forall (s : store) (arr : loc) (xs : list T),
    s !! arr = Some xs -> (length xs < fuel)%nat ->
    returns_fresh (merge_sort fuel arr) s (spec_merge_sort xs).
Proof.
  induction fuel as [|fuel IH]; intros s arr xs E Hf; [lia|].
  unfold returns_fresh. cbn [merge_sort].
  erewrite bind_Done; [|apply len_ok, E].
  destruct (Z.leb_spec (Z.of_nat (length xs)) 1) as [Hl|Hl].
  - rewrite spec_merge_sort_base by lia. rewrite (list_ok _ _ _ E).
    apply returns_fresh_alloc.
  - rewrite spec_merge_sort_rec by lia.
    erewrite bind_Done; [|apply len_ok, E]. cbv zeta.
    assert (Z.to_nat (Z.of_nat (length xs) / 2) = Nat.div (length xs) 2) as Hmid.
    { change 2 with (Z.of_nat 2).
      rewrite <- (Nat2Z.inj_div (length xs) 2), Nat2Z.id. reflexivity. }
    assert (0 < Nat.div (length xs) 2 < length xs)%nat as Hm.
    { split; [apply Nat.div_str_pos; lia | apply Nat.div_lt; lia]. }
    erewrite bind_Done;
      [|erewrite slice_to_ok; [apply alloc_eq | exact E | apply Z.div_pos; lia]].
    rewrite Hmid.
    set (xl := take (Nat.div (length xs) 2) xs).
    set (xr := drop (Nat.div (length xs) 2) xs).
    set (s1 := <[fresh (dom s) := xl]> s).
    assert (s ⊆ s1) as H1 by apply insert_subseteq, fresh_None.
    destruct (IH s1 (fresh (dom s)) xl) as (left & s2 & Hrun1 & Hn1 & Hv1 & H2).
    { apply lookup_insert_eq. }
    { unfold xl. rewrite length_take. lia. }
    erewrite bind_Done; [|exact Hrun1].
    assert (s ⊆ s2) as H12 by (etrans; eassumption).
    erewrite bind_Done;
      [|erewrite slice_from_ok;
        [apply alloc_eq | exact (lookup_weaken _ _ _ _ E H12) | apply Z.div_pos; lia]].
    rewrite Hmid. fold xr.
    set (s3 := <[fresh (dom s2) := xr]> s2).
    assert (s2 ⊆ s3) as H3 by apply insert_subseteq, fresh_None.
    destruct (IH s3 (fresh (dom s2)) xr) as (right & s4 & Hrun2 & Hn2 & Hv2 & H4).
    { apply lookup_insert_eq. }
    { unfold xr. rewrite length_drop. lia. }
    erewrite bind_Done; [|exact Hrun2].
    assert (s ⊆ s4) as H14 by (etrans; [exact H12 | etrans; eassumption]).
    destruct (_merge_ok (S fuel) left right (spec_merge_sort xl) (spec_merge_sort xr) s4)
      as (out & s5 & Hrun3 & Hn3 & Hv3 & H5).
    { apply (lookup_weaken s2); [exact Hv1 | etrans; eassumption]. }
    { exact Hv2. }
    { rewrite !spec_merge_sort_length. unfold xl, xr.
      rewrite length_take, length_drop. lia. }
    exists out, s5. split; [exact Hrun3|].
    split; [exact (lookup_weaken_None _ _ _ Hn3 H14)|].
    split; [exact Hv3 | etrans; eassumption].
Qed.

End MergeLoops.

(** ** [quick_sort] *)

Section QuickFacts.
Context {T : Type} {CT : Cmp T} {OT : TotalOrder T}.

Local Abbreviation store := (gmap loc (list T)).

Lemma filter_filter_keep (f g : T -> bool) (l : list T) :
  (forall x, f x = true -> g x = true) ->
  List.filter f (List.filter g l) = List.filter f l.
Proof.
  intros Hfg. induction l as [|x l IH]; [reflexivity|]. simpl.
  destruct (g x) eqn:Eg; simpl.
  - rewrite IH. reflexivity.
  - destruct (f x) eqn:Ef; [|exact IH]. rewrite (Hfg x Ef) in Eg. discriminate.
Qed.

Lemma filter_filter_drop (f g : T -> bool) (l : list T) :
  (forall x, f x = true -> g x = false) ->
  List.filter f (List.filter g l) = [].
Proof.
  intros Hfg. induction l as [|x l IH]; [reflexivity|]. simpl.
  destruct (g x) eqn:Eg; [|exact IH]. simpl.
  destruct (f x) eqn:Ef; [|exact IH]. rewrite (Hfg x Ef) in Eg. discriminate.
Qed.

Lemma filter_shorter (f : T -> bool) (l : list T) (p : T) :
  In p l -> f p = false -> (length (List.filter f l) < length l)%nat.
Proof.
  induction l as [|x l IH]; intros Hin Hp; [destruct Hin|]. simpl.
  pose proof (List.filter_length_le f l) as Hle.
  destruct Hin as [->|Hin].
  - rewrite Hp. lia.
  - specialize (IH Hin Hp). destruct (f x); simpl; lia.
Qed.

Lemma sorted_Forall (P : T -> Prop) (l : list T) :
  List.Forall P l -> List.Forall P (sorted l).
Proof. apply stable_perm_Forall, sorted_stable. Qed.

Lemma sorted_filter_In (f : T -> bool) (l : list T) (x : T) :
  In x (sorted (List.filter f l)) -> f x = true.
Proof.
  intros Hx.
  assert (List.Forall (fun z => f z = true) (sorted (List.filter f l))) as F.
  { apply sorted_Forall, List.Forall_forall. intros z Hz.
    apply List.filter_In in Hz. tauto. }
  exact (proj1 (List.Forall_forall _ _) F x Hx).
Qed.

Lemma sorted_short (l : list T) : (length l <= 1)%nat -> sorted l = l.
Proof. destruct l as [|x [|y l]]; simpl; intros Hl; [reflexivity | reflexivity | lia]. Qed.

(** Elements that all compare equal are in order. *)
Lemma class_sorted (p : T) (l : list T) :
  List.Forall (fun x => py_eq x p = true) l -> StronglySorted le_rel l.
Proof.
  induction 1 as [|x l Hx F IH]; constructor; [exact IH|].
  eapply List.Forall_impl; [|exact F]. intros y Hy.
  apply (py_eq_class p); rewrite py_eq_sym; assumption.
Qed.

(** The three-way partition around [p], with the outer parts sorted, is
    the sorted list. *)
Lemma quick_partition (p : T) (xs : list T) :
  sorted (List.filter (fun x => py_lt x p) xs)
    ++ List.filter (fun x => py_eq x p) xs
    ++ sorted (List.filter (fun x => py_gt x p) xs)
  = sorted xs.
Proof.
  apply sorted_unique.
  - apply StronglySorted_app_le; [apply sorted_sorted| |].
    + apply StronglySorted_app_le; [|apply sorted_sorted|].
      * apply (class_sorted p), List.Forall_forall. intros x Hx.
        apply List.filter_In in Hx. tauto.
      * intros x y Hx Hy. apply List.filter_In in Hx. destruct Hx as [_ Hx].
        apply sorted_filter_In in Hy. apply py_eq_true in Hx. apply py_gt_true in Hy.
        apply (py_le_trans x p y); tauto.
    + intros x y Hx Hy. apply sorted_filter_In in Hx. apply py_lt_true in Hx.
      apply (py_le_trans x p y); [tauto|].
      apply List.in_app_or in Hy. destruct Hy as [Hy|Hy].
      * apply List.filter_In in Hy. destruct Hy as [_ Hy]. apply py_eq_true in Hy. tauto.
      * apply sorted_filter_In in Hy. apply py_gt_true in Hy. tauto.
  - intros k. rewrite !List.filter_app, !sorted_stable.
    destruct (py_eq k p) eqn:Ekp.
    + rewrite filter_filter_drop, (filter_filter_keep _ (fun x => py_eq x p)),
        filter_filter_drop; [rewrite app_nil_r; reflexivity| | |].
      * intros x Hx. rewrite py_gt_le. apply negb_false_iff.
        apply (py_eq_class k); assumption.
      * intros x Hx. apply (py_eq_trans x k p); [rewrite py_eq_sym|]; assumption.
      * intros x Hx. rewrite py_lt_le. apply negb_false_iff.
        apply (py_eq_class k); assumption.
    + destruct (py_le k p) eqn:Elk.
      * assert (py_le p k = false) as Epk.
        { rewrite py_eq_le, Elk in Ekp. exact Ekp. }
        assert (forall x, py_eq k x = true -> py_le p x = false) as Hx.
        { intros x [_ Hx]%py_eq_true. destruct (py_le p x) eqn:E; [|reflexivity].
          rewrite (py_le_trans p x k E Hx) in Epk. discriminate. }
        rewrite (filter_filter_keep _ (fun x => py_lt x p)),
          filter_filter_drop, filter_filter_drop; [rewrite app_nil_r; reflexivity| | |].
        -- intros x Ex. rewrite py_gt_le. apply negb_false_iff.
           destruct (py_le_total x p) as [E|E]; [exact E|].
           rewrite (Hx x Ex) in E. discriminate.
        -- intros x Ex. rewrite py_eq_le, (Hx x Ex). apply andb_false_r.
        -- intros x Ex. rewrite py_lt_le, (Hx x Ex). reflexivity.
      * assert (forall x, py_eq k x = true -> py_le x p = false) as Hx.
        { intros x [Hx _]%py_eq_true. destruct (py_le x p) eqn:E; [|reflexivity].
          rewrite (py_le_trans k x p Hx E) in Elk. discriminate. }
        rewrite filter_filter_drop, filter_filter_drop,
          (filter_filter_keep _ (fun x => py_gt x p)); [reflexivity| | |].
        -- intros x Ex. rewrite py_gt_le, (Hx x Ex). reflexivity.
        -- intros x Ex. rewrite py_eq_le, (Hx x Ex). reflexivity.
        -- intros x Ex. rewrite py_lt_le. apply negb_false_iff.
           destruct (py_le_total x p) as [E|E]; [|exact E].
           rewrite (Hx x Ex) in E. discriminate.
Qed.

End QuickFacts.

Section QuickLoops.
Context {T : Type} {CT : Cmp T} {OT : TotalOrder T}.

Local Abbreviation store := (gmap loc (list T)).

Lemma quick_sort_spec (fuel : nat) :
  forall (s : store) (arr : loc) (xs : list T),
    s !! arr = Some xs -> (length xs < fuel)%nat ->
    returns_fresh (quick_sort fuel arr) s (sorted xs).
Proof.
  induction fuel as [|fuel IH]; intros s arr xs E Hf; [lia|].
  unfold returns_fresh. cbn [quick_sort].
  erewrite bind_Done; [|rewrite (list_ok _ _ _ E); apply alloc_eq].
  set (a := fresh (dom s)). set (s1 := <[a := xs]> s).
  assert (s !! a = None) as Ha by apply fresh_None.
  assert (s ⊆ s1) as H1 by apply insert_subseteq, Ha.
  assert (s1 !! a = Some xs) as Ea by apply lookup_insert_eq.
  erewrite bind_Done; [|apply len_ok, Ea].
  destruct (Z.leb_spec (Z.of_nat (length xs)) 1) as [Hl|Hl].
  { exists a, s1. rewrite sorted_short by lia. repeat split; assumption. }
  erewrite bind_Done; [|apply len_ok, Ea].
  assert (Z.of_nat (length xs) / 2 = Z.of_nat (Nat.div (length xs) 2)) as Hmid.
  { change 2 with (Z.of_nat 2). rewrite <- (Nat2Z.inj_div (length xs) 2). reflexivity. }
  assert (Nat.div (length xs) 2 < length xs)%nat as Hm by (apply Nat.div_lt; lia).
  destruct (lookup_lt_is_Some_2 xs _ Hm) as [p Ep].
  erewrite bind_Done; [|eapply getitem_ok; [exact Ea | exact Hmid | exact Ep]].
  assert (In p xs) as Hp by (apply list_elem_of_In, list_elem_of_lookup; eauto).
  set (L := List.filter (fun x => py_lt x p) xs).
  set (Mi := List.filter (fun x => py_eq x p) xs).
  set (R := List.filter (fun x => py_gt x p) xs).
  assert (length L < length xs)%nat as HL.
  { apply (filter_shorter _ xs p Hp). rewrite py_lt_le, py_le_refl. reflexivity. }
  assert (length R < length xs)%nat as HR.
  { apply (filter_shorter _ xs p Hp). rewrite py_gt_le, py_le_refl. reflexivity. }
  erewrite bind_Done; [|rewrite (list_comp_ok _ _ _ _ Ea); apply alloc_eq].
  fold L. set (left := fresh (dom s1)). set (s2 := <[left := L]> s1).
  assert (s1 ⊆ s2) as H2 by apply insert_subseteq, fresh_None.
  erewrite bind_Done;
    [|rewrite (list_comp_ok _ _ _ _ (lookup_weaken _ _ _ _ Ea H2)); apply alloc_eq].
  fold Mi. set (middle := fresh (dom s2)). set (s3 := <[middle := Mi]> s2).
  assert (s2 ⊆ s3) as H3 by apply insert_subseteq, fresh_None.
  assert (s1 ⊆ s3) as H13 by (etrans; eassumption).
  erewrite bind_Done;
    [|rewrite (list_comp_ok _ _ _ _ (lookup_weaken _ _ _ _ Ea H13)); apply alloc_eq].
  fold R. set (right := fresh (dom s3)). set (s4 := <[right := R]> s3).
  assert (s3 ⊆ s4) as H4 by apply insert_subseteq, fresh_None.
  destruct (IH s4 left L) as (ql & s5 & Hrun1 & Hn1 & Hv1 & H5).
  { apply (lookup_weaken s2); [apply lookup_insert_eq | etrans; eassumption]. }
  { lia. }
  erewrite bind_Done; [|exact Hrun1].
  erewrite bind_Done;
    [|erewrite concat_ok;
      [apply alloc_eq | exact Hv1
      |apply (lookup_weaken s3); [apply lookup_insert_eq | etrans; eassumption]]].
  set (t := fresh (dom s5)). set (s6 := <[t := sorted L ++ Mi]> s5).
  assert (s5 ⊆ s6) as H6 by apply insert_subseteq, fresh_None.
  destruct (IH s6 right R) as (qr & s7 & Hrun2 & Hn2 & Hv2 & H7).
  { apply (lookup_weaken s4); [apply lookup_insert_eq | etrans; eassumption]. }
  { lia. }
  erewrite bind_Done; [|exact Hrun2].
  erewrite concat_ok;
    [|apply (lookup_weaken s6); [apply lookup_insert_eq | exact H7] | exact Hv2].
  assert (s ⊆ s7) as H17.
  { etrans; [exact H1|]. etrans; [exact H13|]. etrans; [exact H4|].
    etrans; [exact H5|]. etrans; eassumption. }
  exists (fresh (dom s7)), (<[fresh (dom s7) := (sorted L ++ Mi) ++ sorted R]> s7).
  split; [reflexivity|].
  split; [exact (lookup_weaken_None _ _ _ (fresh_None s7) H17)|].
  split; [rewrite lookup_insert_eq, <- app_assoc; unfold L, Mi, R;
          rewrite quick_partition; reflexivity|].
  etrans; [exact H17 | apply insert_subseteq, fresh_None].
Qed.

Lemma python_sort_spec (s : store) (arr : loc) (xs : list T) :
  s !! arr = Some xs -> returns_fresh (python_sort arr) s (sorted xs).
Proof.
  intros E. unfold python_sort. unfold returns_fresh.
  rewrite (sorted_ok _ _ _ E). apply returns_fresh_alloc.
Qed.

End QuickLoops.

(** ** The sorting functions: results *)

Section SortingClaims.
Context {T : Type} {CT : Cmp T} {OT : TotalOrder T}.

Local Abbreviation store := (gmap loc (list T)).

Lemma returns_fresh_returns (m : M (T:=T) loc) (s : store) (v : list T) :
  returns_fresh m s v -> returns m s v.
Proof. intros (r & s' & E & _ & Hv & _). exists r, s'. split; assumption. Qed.

Lemma returns_fresh_terminates (m : M (T:=T) loc) (s : store) (v : list T) :
  returns_fresh m s v -> terminates m s.
Proof. intros (r & s' & E & _). exists r, s'. exact E. Qed.

Lemma returns_fresh_keeps (m : M (T:=T) loc) (s : store) (arr : loc) (a v : list T) :
  s !! arr = Some a -> returns_fresh m s v -> keeps_input m s arr.
Proof.
  intros Ea (r & s' & E & Hn & Hv & Hsub). exists r, s'.
  split; [exact E|]. split; [rewrite Ea; exact (lookup_weaken _ _ _ _ Ea Hsub)|].
  split; [congruence|]. split; assumption.
Qed.

Lemma returns_fresh_stable (m : M (T:=T) loc) (s : store) (a : list T) :
  returns_fresh m s (sorted a) -> returns_stable m s a.
Proof.
  intros (r & s' & E & _ & Hv & _). exists r, s', (sorted a).
  split; [exact E|]. split; [exact Hv | apply sorted_stable].
Qed.

(** The five functions return the same list on every input. *)
Lemma all_sort_specs (s : store) (arr : loc) (a : list T) (fuel : nat) :
  s !! arr = Some a -> (length a < fuel)%nat ->
  returns_fresh (bubble_sort arr) s (sorted a) /\
  returns_fresh (insertion_sort fuel arr) s (sorted a) /\
  returns_fresh (merge_sort fuel arr) s (sorted a) /\
  returns_fresh (quick_sort fuel arr) s (sorted a) /\
  returns_fresh (python_sort arr) s (sorted a).
Proof.
  intros E Hf.
  split; [apply bubble_sort_spec, E|].
  split; [apply insertion_sort_spec; assumption|].
  split; [rewrite <- spec_merge_sort_sorted; apply merge_sort_spec; assumption|].
  split; [apply quick_sort_spec; assumption|].
  apply python_sort_spec, E.
Qed.

(** C1: for every list [a] of mutually comparable elements, each of the
    five functions returns the list that the platform's [sorted] returns
    for [a], which holds the elements of [a] in non-decreasing order. *)
Theorem sorts_equal_reference (s : store) (arr : loc) (a : list T) (fuel : nat) :
  s !! arr = Some a -> (length a < fuel)%nat ->
  (returns (bubble_sort arr) s (sorted a) /\
   returns (insertion_sort fuel arr) s (sorted a) /\
   returns (merge_sort fuel arr) s (sorted a) /\
   returns (quick_sort fuel arr) s (sorted a) /\
   returns (python_sort arr) s (sorted a)) /\
  Permutation a (sorted a) /\ StronglySorted le_rel (sorted a).
Proof.
  intros E Hf.
  destruct (all_sort_specs s arr a fuel E Hf) as (H1 & H2 & H3 & H4 & H5).
  split; [|split; [apply sorted_perm | apply sorted_sorted]].
  repeat split; apply returns_fresh_returns; assumption.
Qed.

(** C2: calling any of the five functions leaves the input list, and
    every other existing list, unchanged, and the list returned is a new
    object, different from the input, whatever the size of the input. *)
Theorem sorts_keep_input (s : store) (arr : loc) (a : list T) (fuel : nat) :
  s !! arr = Some a -> (length a < fuel)%nat ->
  keeps_input (bubble_sort arr) s arr /\
  keeps_input (insertion_sort fuel arr) s arr /\
  keeps_input (merge_sort fuel arr) s arr /\
  keeps_input (quick_sort fuel arr) s arr /\
  keeps_input (python_sort arr) s arr.
Proof.
  intros E Hf.
  destruct (all_sort_specs s arr a fuel E Hf) as (H1 & H2 & H3 & H4 & H5).
  repeat split; eapply returns_fresh_keeps; eassumption.
Qed.

(** C3: [bubble_sort], [insertion_sort], [merge_sort] and [python_sort]
    are stable: elements that compare equal are in the result in the
    order they have in the input. *)
Theorem stable_sorts (s : store) (arr : loc) (a : list T) (fuel : nat) :
  s !! arr = Some a -> (length a < fuel)%nat ->
  returns_stable (bubble_sort arr) s a /\
  returns_stable (insertion_sort fuel arr) s a /\
  returns_stable (merge_sort fuel arr) s a /\
  returns_stable (python_sort arr) s a.
Proof.
  intros E Hf.
  destruct (all_sort_specs s arr a fuel E Hf) as (H1 & H2 & H3 & H4 & H5).
  repeat split; apply returns_fresh_stable; assumption.
Qed.

(** C4, as amended: [quick_sort] is stable as well: on every input the
    elements that compare equal are in the result in the order they have
    in the input. *)
Theorem quick_sort_stable (s : store) (arr : loc) (a : list T) (fuel : nat) :
  s !! arr = Some a -> (length a < fuel)%nat ->
  returns_stable (quick_sort fuel arr) s a.
Proof.
  intros E Hf. apply returns_fresh_stable, quick_sort_spec; assumption.
Qed.

(** C6: on every list of mutually comparable elements each of the five
    functions returns; none raises an exception, and the loops and the
    recursion of [insertion_sort], [merge_sort] and [quick_sort] end
    within a number of steps bounded by the length of the list. *)
Theorem sorts_terminate (s : store) (arr : loc) (a : list T) (fuel : nat) :
  s !! arr = Some a -> (length a < fuel)%nat ->
  terminates (bubble_sort arr) s /\
  terminates (insertion_sort fuel arr) s /\
  terminates (merge_sort fuel arr) s /\
  terminates (quick_sort fuel arr) s /\
  terminates (python_sort arr) s.
Proof.
  intros E Hf.
  destruct (all_sort_specs s arr a fuel E Hf) as (H1 & H2 & H3 & H4 & H5).
  repeat split; eapply returns_fresh_terminates; eassumption.
Qed.

End SortingClaims.

(** ** The scheme of [merge_sort] *)

Section MergeScheme.
(** Any comparison: no law of an order is assumed, so the list returned
    depends on which elements are compared and in which order. *)
Context {T : Type} {CT : Cmp T}.

Local Abbreviation store := (gmap loc (list T)).

Lemma returns_unique (m : M (T:=T) loc) (s : store) (v1 v2 : list T) :
  returns m s v1 -> returns m s v2 -> v1 = v2.
Proof.
  intros (r1 & s1 & E1 & H1) (r2 & s2 & E2 & H2).
  rewrite E1 in E2. injection E2 as -> ->. congruence.
Qed.

(** C5: [merge_sort] follows the scheme of the specification whatever the
    comparison [<=] answers, a comparison that is no order included: it
    returns, in a new list, what [spec_merge_sort] computes.  A list of
    length at most 1 is returned as a copy.  A longer one gives the merge
    of what [merge_sort] returns for [[0, mid)] and for [[mid, end)] with
    [mid = len // 2].  [_merge] computes [spec_merge], for any two lists,
    and [spec_merge] takes the left front element when [left <= right]
    holds (so also when the two compare equal), the right one otherwise,
    and the rest of the other list when one is used up. *)
Theorem merge_sort_scheme (s : store) (arr : loc) (a : list T) (fuel : nat) :
  s !! arr = Some a -> (length a < fuel)%nat ->
  returns_fresh (merge_sort fuel arr) s (spec_merge_sort a) /\
  ((length a <= 1)%nat ->
   spec_merge_sort a = a /\ returns_fresh (merge_sort fuel arr) s a) /\
  ((1 < length a)%nat ->
   spec_merge_sort a =
   spec_merge (spec_merge_sort (take (Nat.div (length a) 2) a))
              (spec_merge_sort (drop (Nat.div (length a) 2) a)) /\
   forall (sl sr : store) (l r : loc) (vl vr : list T),
     sl !! l = Some (take (Nat.div (length a) 2) a) ->
     sr !! r = Some (drop (Nat.div (length a) 2) a) ->
     returns (merge_sort fuel l) sl vl ->
     returns (merge_sort fuel r) sr vr ->
     returns_fresh (merge_sort fuel arr) s (spec_merge vl vr)) /\
  (forall (s0 : store) (left right : loc) (L R : list T) (f : nat),
     s0 !! left = Some L -> s0 !! right = Some R ->
     (length L + length R < f)%nat ->
     returns_fresh (_merge f left right) s0 (spec_merge L R)) /\
  (forall x y l1 l2,
     spec_merge (x :: l1) (y :: l2) =
     if py_le x y then x :: spec_merge l1 (y :: l2)
     else y :: spec_merge (x :: l1) l2) /\
  (forall l, spec_merge [] l = l /\ spec_merge l [] = l).
Proof.
  intros E Hf.
  pose proof (merge_sort_spec fuel s arr a E Hf) as Hspec.
  split; [exact Hspec|].
  split.
  { intros Hl. rewrite spec_merge_sort_base in Hspec by exact Hl.
    split; [apply spec_merge_sort_base, Hl | exact Hspec]. }
  split.
  { intros Hl. split; [apply spec_merge_sort_rec, Hl|].
    intros sl sr l r vl vr El Er Hvl Hvr.
    assert (0 < Nat.div (length a) 2 < length a)%nat as Hmid.
    { split; [apply Nat.div_str_pos; lia | apply Nat.div_lt; lia]. }
    assert (vl = spec_merge_sort (take (Nat.div (length a) 2) a)) as ->.
    { apply (returns_unique (merge_sort fuel l) sl); [exact Hvl|].
      apply returns_fresh_returns, merge_sort_spec; [exact El|].
      rewrite length_take. lia. }
    assert (vr = spec_merge_sort (drop (Nat.div (length a) 2) a)) as ->.
    { apply (returns_unique (merge_sort fuel r) sr); [exact Hvr|].
      apply returns_fresh_returns, merge_sort_spec; [exact Er|].
      rewrite length_drop. lia. }
    rewrite <- spec_merge_sort_rec by exact Hl. exact Hspec. }
  split; [intros s0 left right L R f EL ER Hlen; apply _merge_ok; assumption|].
  split; [intros; apply spec_merge_cons|].
  intros l. split; [apply spec_merge_nil_l | apply spec_merge_nil_r].
Qed.

End MergeScheme.

(** ** The passes of [bubble_sort] *)

Section BubblePasses.
Context {T : Type} {CT : Cmp T} {OT : TotalOrder T}.

Local Abbreviation store := (gmap loc (list T)).

Lemma bubble_run_sorted (k : nat) (x : T) (l : list T) (sw : bool) :
  StronglySorted le_rel (x :: l) -> bubble_run k x l sw = (x :: l, sw).
Proof.
  revert x l. induction k as [|k IH]; intros x [|y l] S; try reflexivity.
  simpl. inversion S as [|? ? S' F]; subst. inversion F as [|? ? Hxy _]; subst.
  rewrite py_gt_le, Hxy. simpl. rewrite (IH y l S'). reflexivity.
Qed.

Lemma StronglySorted_prefix (l1 l2 : list T) :
  StronglySorted le_rel (l1 ++ l2) -> StronglySorted le_rel l1.
Proof.
  induction l1 as [|x l1 IH]; [constructor|]. simpl. intros S.
  inversion S as [|? ? S' F]; subst.
  constructor; [apply IH, S'|]. apply List.Forall_app in F. tauto.
Qed.

(** A pass whose range is empty. *)
Lemma bubble_pass_late (w : loc) (n i : Z) (s : store) :
  n - 1 - i <= 0 -> bubble_pass w n i s = Done true s.
Proof. intros Hi. unfold bubble_pass. rewrite range_nil by lia. reflexivity. Qed.

(** Pass [length back] on the list [front ++ back]. *)
Lemma bubble_pass_split (w : loc) (s0 : store) (front back : list T) (n i : Z) :
  i = Z.of_nat (length back) -> n = Z.of_nat (length (front ++ back)) ->
  bubble_pass w n i (<[w := front ++ back]> s0) =
  match front with
  | [] => Done true (<[w := front ++ back]> s0)
  | x :: l => Done (negb (bubble_run (length l) x l false).2)
                (<[w := (bubble_run (length l) x l false).1 ++ back]> s0)
  end.
Proof.
  intros Hi Hn. destruct front as [|x l].
  - apply bubble_pass_late. simpl in Hn. lia.
  - apply bubble_pass_ok; assumption.
Qed.

(** A pass that exchanges nothing leaves the list as it is, and so does
    every later pass. *)
Lemma bubble_pass_noswap (w : loc) (s0 s' : store) (cur : list T) (i : nat) :
  bubble_pass w (Z.of_nat (length cur)) (Z.of_nat i) (<[w := cur]> s0) = Done true s' ->
  s' = <[w := cur]> s0 /\
  forall i' : nat, (i <= i')%nat ->
    bubble_pass w (Z.of_nat (length cur)) (Z.of_nat i') (<[w := cur]> s0)
    = Done true (<[w := cur]> s0).
Proof.
  intros Hrun.
  destruct (Nat.le_gt_cases (length cur) i) as [Hi|Hi].
  { rewrite bubble_pass_late in Hrun by lia. injection Hrun as <-.
    split; [reflexivity|]. intros i' Hi'. apply bubble_pass_late. lia. }
  set (c := (length cur - i)%nat).
  assert (length (drop c cur) = i) as Hb by (rewrite length_drop; subst c; lia).
  assert (cur = take c cur ++ drop c cur) as Hcur by (symmetry; apply take_drop).
  rewrite Hcur in Hrun at 2.
  rewrite (bubble_pass_split w s0 (take c cur) (drop c cur)) in Hrun;
    [|lia | rewrite take_drop; reflexivity].
  assert (StronglySorted le_rel (take c cur) /\ s' = <[w := cur]> s0) as [Sf ->].
  { destruct (take c cur) as [|x l] eqn:Et.
    - split; [constructor|]. injection Hrun as <-. rewrite Hcur at 2. reflexivity.
    - injection Hrun as Hflag <-. apply negb_true_iff in Hflag.
      destruct (bubble_run_noswap x l Hflag) as [-> S].
      split; [exact S|]. rewrite Hcur at 2. reflexivity. }
  split; [reflexivity|]. intros i' Hi'.
  destruct (Nat.le_gt_cases (length cur) i') as [Hl|Hl];
    [apply bubble_pass_late; lia|].
  set (c' := (length cur - i')%nat).
  assert (cur = take c' cur ++ drop c' cur) as Hcur' by (symmetry; apply take_drop).
  rewrite Hcur' at 2.
  rewrite (bubble_pass_split w s0 (take c' cur) (drop c' cur));
    [|rewrite length_drop; subst c'; lia | rewrite take_drop; reflexivity].
  assert (StronglySorted le_rel (take c' cur)) as Sf'.
  { replace (take c' cur) with (take c' (take c cur))
      by (rewrite take_take; f_equal; subst c c'; lia).
    rewrite <- (take_drop c' (take c cur)) in Sf. exact (StronglySorted_prefix _ _ Sf). }
  destruct (take c' cur) as [|x l] eqn:Et.
  - rewrite Hcur' at 2. reflexivity.
  - rewrite (bubble_run_sorted _ x l false Sf'). simpl.
    rewrite Hcur' at 2. reflexivity.
Qed.

(** The last elements of a list that are in order and not exceeded by the
    others are the last elements of the sorted list. *)
Lemma sorted_suffix (a front back : list T) :
  stable_perm a (front ++ back) -> StronglySorted le_rel back ->
  (forall x y, In x front -> In y back -> py_le x y = true) ->
  drop (length front) (sorted a) = back.
Proof.
  intros Hst Sb Hc.
  assert (sorted front ++ back = sorted a) as <-.
  { apply sorted_unique.
    - apply StronglySorted_app_le; [apply sorted_sorted | exact Sb |].
      intros x y Hx Hy. apply Hc; [|exact Hy].
      apply (stable_perm_elem (sorted front)); [apply stable_perm_sym, sorted_stable | exact Hx].
    - eapply stable_perm_trans; [exact Hst|].
      apply stable_perm_app; [apply sorted_stable | apply stable_perm_refl]. }
  apply drop_app_length'. apply stable_perm_length, sorted_stable.
Qed.

(** C10: in [bubble_sort], once the outer loop has gone through pass [i],
    the last [i + 1] positions of the working copy hold what the sorted
    list holds there, the [i + 1] largest elements; a pass neither reads
    nor changes the positions that earlier passes have completed; and a
    pass that exchanges nothing ends the loop with the list as it is,
    which the passes skipped would have left as it is too. *)
Theorem bubble_passes (s : store) (arr : loc) (a : list T) :
  s !! arr = Some a ->
  let w := fresh (dom s) in
  let n := Z.of_nat (length a) in
  (forall i : nat, (i < length a)%nat ->
     exists cur,
       for_break (range 0 (Z.of_nat i + 1)) (bubble_pass w n) (<[w := a]> s)
       = Done tt (<[w := cur]> s) /\
       drop (length a - S i) cur = drop (length a - S i) (sorted a)) /\
  (forall (front : list T) (i : nat),
     (length front + i = length a)%nat ->
     exists front' brk,
       forall (back : list T) (s0 : store),
         length back = i ->
         bubble_pass w n (Z.of_nat i) (<[w := front ++ back]> s0)
         = Done brk (<[w := front' ++ back]> s0)) /\
  (forall (cur : list T) (i : nat) (s0 s' : store),
     length cur = length a ->
     bubble_pass w n (Z.of_nat i) (<[w := cur]> s0) = Done true s' ->
     s' = <[w := cur]> s0 /\
     (forall hi, for_break (range (Z.of_nat i) hi) (bubble_pass w n) (<[w := cur]> s0)
                 = Done tt (<[w := cur]> s0)) /\
     (forall i' : nat, (i <= i')%nat ->
        bubble_pass w n (Z.of_nat i') (<[w := cur]> s0) = Done true (<[w := cur]> s0))).
Proof.
  intros E w n. split; [|split].
  - intros i Hi.
    destruct (bubble_outer_ok w s n (S i) a [])
      as (front' & back' & Hrun & Hlen & Sb & Hc & Hst).
    + lia.
    + rewrite app_nil_r. reflexivity.
    + constructor.
    + intros x y _ [].
    + rewrite app_nil_r in Hrun, Hst. simpl in Hrun, Hlen.
      replace (Z.of_nat i + 1) with (Z.of_nat (S i)) by lia.
      exists (front' ++ back'). split; [exact Hrun|].
      assert (length front' = (length a - S i)%nat) as <-.
      { apply stable_perm_length in Hst. rewrite length_app in Hst. lia. }
      rewrite drop_app_length. symmetry. apply sorted_suffix; assumption.
  - intros front i Hlen.
    exists (match front with
            | [] => []
            | x :: l => (bubble_run (length l) x l false).1
            end),
           (match front with
            | [] => true
            | x :: l => negb (bubble_run (length l) x l false).2
            end).
    intros back s0 Hb.
    rewrite (bubble_pass_split w s0 front back);
      [destruct front; reflexivity | lia | subst n; rewrite length_app; lia].
  - intros cur i s0 s' Hlen Hrun. subst n. rewrite <- Hlen in *.
    destruct (bubble_pass_noswap w s0 s' cur i Hrun) as [-> Hlater].
    split; [reflexivity|]. split; [|exact Hlater].
    intros hi. destruct (Z.le_gt_cases hi (Z.of_nat i)) as [Hh|Hh].
    + rewrite range_nil by lia. reflexivity.
    + rewrite range_cons by lia. cbn [for_break].
      erewrite bind_Done; [|exact Hrun]. reflexivity.
Qed.

End BubblePasses.

(** ** The results at concrete inputs *)

Lemma sorts_equal_reference_witness :
  (returns (bubble_sort 0%nat) example_store (sorted example_list) /\
   returns (insertion_sort 8 0%nat) example_store (sorted example_list) /\
   returns (merge_sort 8 0%nat) example_store (sorted example_list) /\
   returns (quick_sort 8 0%nat) example_store (sorted example_list) /\
   returns (python_sort 0%nat) example_store (sorted example_list)) /\
  Permutation example_list (sorted example_list) /\
  StronglySorted le_rel (sorted example_list).
Proof.
  apply (sorts_equal_reference example_store 0%nat example_list 8).
  - reflexivity.
  - simpl. lia.
Defined.

Lemma sorts_keep_input_witness :
  keeps_input (bubble_sort 0%nat) example_store 0%nat /\
  keeps_input (insertion_sort 8 0%nat) example_store 0%nat /\
  keeps_input (merge_sort 8 0%nat) example_store 0%nat /\
  keeps_input (quick_sort 8 0%nat) example_store 0%nat /\
  keeps_input (python_sort 0%nat) example_store 0%nat.
Proof.
  apply (sorts_keep_input example_store 0%nat example_list 8).
  - reflexivity.
  - simpl. lia.
Defined.

Lemma stable_sorts_witness :
  returns_stable (bubble_sort 0%nat) example_item_store example_items /\
  returns_stable (insertion_sort 6 0%nat) example_item_store example_items /\
  returns_stable (merge_sort 6 0%nat) example_item_store example_items /\
  returns_stable (python_sort 0%nat) example_item_store example_items.
Proof.
  apply (stable_sorts example_item_store 0%nat example_items 6).
  - reflexivity.
  - simpl. lia.
Defined.

Lemma quick_sort_stable_witness :
  returns_stable (quick_sort 6 0%nat) example_item_store example_items.
Proof.
  apply (quick_sort_stable example_item_store 0%nat example_items 6).
  - reflexivity.
  - simpl. lia.
Defined.

(** C4 as stated does not hold: there is no input, of any element type,
    on which [quick_sort] returns a list where elements that compare equal
    are in another order than in the input. *)
Lemma quick_sort_never_reorders :
  ~ exists (T : Type) (CT : Cmp T) (OT : TotalOrder T)
      (s : gmap loc (list T)) (arr : loc) (a : list T) (fuel : nat)
      (r : loc) (s' : gmap loc (list T)) (v : list T),
      s !! arr = Some a /\ (length a < fuel)%nat /\
      quick_sort fuel arr s = Done r s' /\ s' !! r = Some v /\
      ~ stable_perm a v.
Proof.
  intros (T & CT & OT & s & arr & a & fuel & r & s' & v & E & Hf & Hrun & Hv & Hn).
  destruct (quick_sort_spec fuel s arr a E Hf) as (r0 & s0 & Hrun0 & _ & Hv0 & _).
  rewrite Hrun in Hrun0. injection Hrun0 as -> ->.
  rewrite Hv in Hv0. injection Hv0 as ->.
  apply Hn, sorted_stable.
Qed.

Lemma merge_sort_scheme_witness :
  ({[ 0%nat := [0; 1; 0] ]} : gmap loc (list Z)) !! 0%nat = Some [0; 1; 0] /\
  returns_fresh (merge_sort (H:=parity_cmp) 4 0%nat) {[ 0%nat := [0; 1; 0] ]}
    (spec_merge_sort (H:=parity_cmp) [0; 1; 0]).
Proof.
  split; [reflexivity|].
  apply (merge_sort_scheme (CT:=parity_cmp) {[ 0%nat := [0; 1; 0] ]} 0%nat [0; 1; 0] 4).
  - reflexivity.
  - simpl. lia.
Defined.

(** The scheme shows under [parity_cmp]: for [0, 1, 0] the split at
    [len // 2 = 1] gives [0, 0, 1] and that is what [merge_sort] returns,
    where a split after two elements gives [0, 1, 0], which is also what
    [bubble_sort] returns.  On a tie the left element comes first. *)
Lemma merge_sort_split_shows :
  result_list (merge_sort (H:=parity_cmp) 4 0%nat {[ 0%nat := [0; 1; 0] ]})
  = Some [0; 0; 1] /\
  spec_merge_sort (H:=parity_cmp) [0; 1; 0] = [0; 0; 1] /\
  spec_merge (H:=parity_cmp) (spec_merge_sort (H:=parity_cmp) (take 2 [0; 1; 0]))
                             (spec_merge_sort (H:=parity_cmp) (drop 2 [0; 1; 0]))
  = [0; 1; 0] /\
  result_list (bubble_sort (H:=parity_cmp) 0%nat {[ 0%nat := [0; 1; 0] ]})
  = Some [0; 1; 0] /\
  result_list (merge_sort 3 0%nat {[ 0%nat := [Item 1 0; Item 1 1] ]})
  = Some [Item 1 0; Item 1 1].
Proof.
  split; [vm_compute; reflexivity|].
  split.
  { rewrite (spec_merge_sort_rec (CT:=parity_cmp)) by (simpl; lia).
    change (Nat.div (length [0; 1; 0]) 2) with 1%nat.
    change (take 1 [0; 1; 0]) with [0]. change (drop 1 [0; 1; 0]) with [1; 0].
    rewrite (spec_merge_sort_rec (CT:=parity_cmp) [1; 0]) by (simpl; lia).
    change (Nat.div (length [1; 0]) 2) with 1%nat.
    change (take 1 [1; 0]) with [1]. change (drop 1 [1; 0]) with [0].
    rewrite !(spec_merge_sort_base (CT:=parity_cmp)) by (simpl; lia).
    reflexivity. }
  split.
  { change (take 2 [0; 1; 0]) with [0; 1]. change (drop 2 [0; 1; 0]) with [0].
    rewrite (spec_merge_sort_rec (CT:=parity_cmp) [0; 1]) by (simpl; lia).
    change (Nat.div (length [0; 1]) 2) with 1%nat.
    change (take 1 [0; 1]) with [0]. change (drop 1 [0; 1]) with [1].
    rewrite !(spec_merge_sort_base (CT:=parity_cmp)) by (simpl; lia).
    reflexivity. }
  split; vm_compute; reflexivity.
Qed.

Lemma sorts_terminate_witness :
  terminates (bubble_sort 0%nat) example_store /\
  terminates (insertion_sort 8 0%nat) example_store /\
  terminates (merge_sort 8 0%nat) example_store /\
  terminates (quick_sort 8 0%nat) example_store /\
  terminates (python_sort 0%nat) example_store.
Proof.
  apply (sorts_terminate example_store 0%nat example_list 8).
  - reflexivity.
  - simpl. lia.
Defined.

Lemma bubble_passes_witness :
  example_store !! 0%nat = Some example_list /\
  exists cur,
    for_break (range 0 (Z.of_nat 2 + 1))
      (bubble_pass (fresh (dom example_store)) (Z.of_nat (length example_list)))
      (<[fresh (dom example_store) := example_list]> example_store)
    = Done tt (<[fresh (dom example_store) := cur]> example_store) /\
    drop (length example_list - 3) cur = drop (length example_list - 3) (sorted example_list).
Proof.
  split; [reflexivity|].
  apply (proj1 (bubble_passes example_store 0%nat example_list eq_refl) 2%nat).
  simpl. lia.
Defined.

(** ** The timing harness *)

Section HarnessFacts.
Context {G : Type} (seed_rng : Z -> G) (randint : G -> Z -> Z -> Z * G).
Context (clock : nat -> R) (fuel : nat).

Lemma run_bind_Done {A B} (m : Run (G:=G) A) (k : A -> Run B) (w w' : world) (a : A) :
  m w = HDone a w' -> (m ≫= k) w = k a w'.
Proof. intros E. unfold mbind, Run_bind, hbind. rewrite E. reflexivity. Qed.

Lemma call_sort_ok (func : algo) (arr : loc) (w : world (G:=G)) (xs : list Z) :
  heap w !! arr = Some xs -> (length xs < fuel)%nat ->
  exists r s',
    call_sort fuel func arr w = HDone r {| heap := s'; gen := gen w; ticks := ticks w |}.
Proof.
  intros E Hf.
  destruct (all_sort_specs (heap w) arr xs fuel E Hf) as (H1 & H2 & H3 & H4 & H5).
  assert (returns_fresh (run_algo fuel func arr) (heap w) (sorted xs)) as (r & s' & Hrun & _).
  { destruct func; assumption. }
  exists r, s'. unfold call_sort. rewrite Hrun. reflexivity.
Qed.

Lemma time_function_ok (func : algo) (arr : loc) (w : world (G:=G)) (xs : list Z) :
  heap w !! arr = Some xs -> (length xs < fuel)%nat ->
  exists s',
    time_function clock fuel func arr w =
    HDone (clock (S (ticks w)) - clock (ticks w))%R
      {| heap := s'; gen := gen w; ticks := S (S (ticks w)) |}.
Proof.
  intros E Hf. unfold time_function.
  erewrite run_bind_Done; [|reflexivity].
  destruct (call_sort_ok func arr
              {| heap := heap w; gen := gen w; ticks := S (ticks w) |} xs E Hf)
    as (r & s' & Hrun).
  erewrite run_bind_Done; [|exact Hrun].
  exists s'. reflexivity.
Qed.

Lemma draw_list_length (js : list Z) (hi : Z) (g : G) :
  length (draw_list randint js hi g).1 = length js.
Proof.
  revert g. induction js as [|j js IH]; intros g; [reflexivity|]. simpl.
  destruct (randint g 0 hi) as [x g1]. specialize (IH g1).
  destruct (draw_list randint js hi g1) as [xs g2]. simpl in *. lia.
Qed.

Lemma range_length (lo hi : Z) : length (range lo hi) = Z.to_nat (hi - lo).
Proof. unfold range. rewrite length_fmap, length_seq. reflexivity. Qed.

(** One trial: a new array, one timed call. *)
Lemma trial_ok (func : algo) (n : Z) (w : world (G:=G)) :
  (Z.to_nat n < fuel)%nat ->
  exists w',
    (random_array randint n ≫= time_function clock fuel func) w =
    HDone (clock (S (ticks w)) - clock (ticks w))%R w' /\
    ticks w' = S (S (ticks w)).
Proof.
  intros Hf.
  pose proof (draw_list_length (range 0 n) (n * 10) (gen w)) as Hl.
  destruct (draw_list randint (range 0 n) (n * 10) (gen w)) as [xs g'] eqn:Ed.
  simpl in Hl. rewrite range_length in Hl.
  erewrite run_bind_Done; [|unfold random_array; rewrite Ed; reflexivity].
  destruct (time_function_ok func (fresh (dom (heap w)))
              {| heap := <[fresh (dom (heap w)) := xs]> (heap w); gen := g'; ticks := ticks w |}
              xs) as (s' & Hrun).
  - apply lookup_insert_eq.
  - rewrite Hl. replace (n - 0) with n by lia. exact Hf.
  - rewrite Hrun. eexists. split; reflexivity.
Qed.

Lemma run_trials_ok (func : algo) (n : Z) (js : list Z) :
  (Z.to_nat n < fuel)%nat ->
  forall (times : list R) (w : world (G:=G)),
  exists w',
    run_trials randint clock fuel func n js times w =
    HDone (times ++ elapsed_samples clock (ticks w) (length js)) w' /\
    ticks w' = (ticks w + 2 * length js)%nat.
Proof.
  intros Hf. induction js as [|j js IH]; intros times w.
  - exists w. simpl. rewrite app_nil_r. split; [reflexivity | lia].
  - destruct (trial_ok func n w Hf) as (w1 & Hrun & Ht).
    unfold mbind, Run_bind, hbind in Hrun.
    cbn [run_trials]. unfold mbind, Run_bind, hbind.
    destruct (random_array randint n w) as [arr w0|e]; [|discriminate].
    rewrite Hrun.
    destruct (IH (times ++ [(clock (S (ticks w)) - clock (ticks w))%R]) w1)
      as (w' & Hrun' & Ht').
    exists w'. split.
    + rewrite Hrun', Ht, <- app_assoc. reflexivity.
    + rewrite Ht', Ht. simpl. lia.
Qed.

Lemma elapsed_samples_length (t0 k : nat) : length (elapsed_samples clock t0 k) = k.
Proof. revert t0. induction k as [|k IH]; intros t0; simpl; [|rewrite IH]; reflexivity. Qed.

Lemma measure_ok (func : algo) (n trials : Z) (w : world (G:=G)) :
  0 < trials -> (Z.to_nat n < fuel)%nat ->
  exists w',
    measure randint clock fuel func n trials w =
    HDone (stat_row clock (Z.to_nat trials) (ticks w) n) w' /\
    ticks w' = (ticks w + 2 * Z.to_nat trials)%nat.
Proof.
  intros Ht Hf. unfold measure.
  destruct (run_trials_ok func n (range 0 trials) Hf [] w) as (w' & Hrun & Hticks).
  rewrite range_length in Hrun, Hticks. replace (trials - 0) with trials in * by lia.
  erewrite run_bind_Done; [|exact Hrun]. simpl app.
  exists w'. split; [|exact Hticks].
  unfold stat_row, pstdev, mean.
  pose proof (elapsed_samples_length (ticks w) (Z.to_nat trials)) as Hl.
  destruct (elapsed_samples clock (ticks w) (Z.to_nat trials)) as [|t ts] eqn:Es;
    [simpl in Hl; lia|].
  rewrite Hl. reflexivity.
Qed.

Lemma run_sizes_ok (name : string) (func : algo) (trials : Z) (ns : list Z) :
  0 < trials -> (forall n, n ∈ ns -> (Z.to_nat n < fuel)%nat) ->
  forall (results : gmap string (list (Z * R * R))) (rows : list (Z * R * R))
         (w : world (G:=G)),
    results !! name = Some rows ->
    exists w',
      run_sizes randint clock fuel name func ns trials results w =
      HDone (<[name := rows ++ rows_from clock (Z.to_nat trials) (ticks w) ns]> results) w'.
Proof.
  intros Ht. induction ns as [|n ns IH]; intros Hf results rows w E.
  - exists w. simpl. rewrite app_nil_r, insert_id by exact E. reflexivity.
  - destruct (measure_ok func n trials w Ht) as (w1 & Hrun & Hticks).
    { apply Hf. left. }
    cbn [run_sizes]. erewrite run_bind_Done; [|exact Hrun]. rewrite E.
    destruct (IH (fun m Hm => Hf m (list_elem_of_further _ _ _ Hm))
                (<[name := rows ++ [stat_row clock (Z.to_nat trials) (ticks w) n]]> results)
                (rows ++ [stat_row clock (Z.to_nat trials) (ticks w) n]) w1)
      as (w' & Hrun').
    { apply lookup_insert_eq. }
    exists w'. rewrite Hrun', insert_insert_eq, Hticks, <- app_assoc. reflexivity.
Qed.

Lemma run_algos_ok (sizes : list Z) (trials : Z) (fs : list (string * algo)) :
  0 < trials -> (forall n, n ∈ sizes -> (Z.to_nat n < fuel)%nat) ->
  NoDup fs.*1 ->
  forall (results : gmap string (list (Z * R * R))) (w : world (G:=G)),
    (forall name, name ∈ fs.*1 -> results !! name = Some []) ->
    exists results' w',
      run_algos randint clock fuel fs sizes trials results w = HDone results' w' /\
      (forall name, name ∈ fs.*1 ->
         exists t0, results' !! name =
                    Some (rows_from clock (Z.to_nat trials) t0 (sizes_to_run name sizes))) /\
      (forall name, name ∉ fs.*1 -> results' !! name = results !! name).
Proof.
  intros Ht Hf. induction fs as [|[name func] fs IH]; intros Hnd results w Hres.
  - exists results, w. split; [reflexivity|]. split; [|reflexivity].
    intros name Hn. inversion Hn.
  - simpl in Hnd. apply NoDup_cons in Hnd. destruct Hnd as [Hname Hnd].
    destruct (run_sizes_ok name func trials (sizes_to_run name sizes) Ht) with
      (results := results) (rows := @nil (Z * R * R)) (w := w) as (w1 & Hrun).
    { intros n Hn. apply Hf. unfold sizes_to_run in Hn.
      destruct (_ || _)%bool; [|exact Hn].
      apply list_elem_of_In, List.filter_In in Hn. apply list_elem_of_In. tauto. }
    { apply Hres. left. }
    simpl app in Hrun.
    destruct (IH Hnd (<[name := rows_from clock (Z.to_nat trials) (ticks w)
                                    (sizes_to_run name sizes)]> results) w1)
      as (results' & w' & Hrun' & Hin & Hout).
    { intros name' Hn'. rewrite lookup_insert_ne; [apply Hres; right; exact Hn'|].
      intros ->. contradiction. }
    exists results', w'. cbn [run_algos].
    erewrite run_bind_Done; [|exact Hrun]. split; [exact Hrun'|]. split.
    + intros name' Hn'. simpl in Hn'. apply elem_of_cons in Hn'.
      destruct Hn' as [->|Hn']; [|apply Hin, Hn'].
      exists (ticks w). rewrite (Hout name Hname). apply lookup_insert_eq.
    + intros name' Hn'. simpl in Hn'. apply not_elem_of_cons in Hn'.
      destruct Hn' as [Hne Hn']. rewrite (Hout name' Hn').
      apply lookup_insert_ne. congruence.
Qed.

Lemma rows_from_sizes (k t0 : nat) (ns : list Z) :
  (fun row : Z * R * R => row.1.1) <$> rows_from clock k t0 ns = ns.
Proof.
  revert t0. induction ns as [|n ns IH]; intros t0; [reflexivity|].
  simpl. rewrite IH. reflexivity.
Qed.

Lemma rows_from_aggregated (k t0 : nat) (ns : list Z) :
  List.Forall (aggregated clock k) (rows_from clock k t0 ns).
Proof.
  revert t0. induction ns as [|n ns IH]; intros t0; constructor; [|apply IH].
  exists t0. simpl. split; [apply elapsed_samples_length|]. split; reflexivity.
Qed.

Lemma algos_NoDup : NoDup algos.*1.
Proof. apply NoDup_ListNoDup. repeat constructor; simpl; intuition discriminate. Qed.

(** The outcome of [run_experiments]: a row list for each algorithm. *)
Lemma run_experiments_ok (sizes : option (list Z)) (trials : Z)
    (outdir : option string) (seed : Z) (w : world (G:=G)) :
  0 < trials ->
  (forall n, n ∈ default default_sizes sizes -> (Z.to_nat n < fuel)%nat) ->
  exists results w',
    run_experiments seed_rng randint clock fuel sizes trials outdir seed w
    = HDone results w' /\
    (forall name, name ∈ algos.*1 ->
       exists t0, results !! name =
                  Some (rows_from clock (Z.to_nat trials) t0
                          (sizes_to_run name (default default_sizes sizes)))) /\
    (forall name, name ∉ algos.*1 -> results !! name = None).
Proof.
  intros Ht Hf. unfold run_experiments.
  replace (match sizes with Some l => l | None => default_sizes end)
    with (default default_sizes sizes) by (destruct sizes; reflexivity).
  destruct (run_algos_ok (default default_sizes sizes) trials algos Ht Hf algos_NoDup
              (list_to_map ((fun nf : string * algo => (nf.1, [])) <$> algos))
              {| heap := heap w; gen := seed_rng seed; ticks := ticks w |})
    as (results & w' & Hrun & Hin & Hout).
  - intros name Hn. simpl in Hn.
    repeat (apply elem_of_cons in Hn; destruct Hn as [->|Hn]; [reflexivity|]).
    inversion Hn.
  - exists results, w'. split; [exact Hrun|]. split; [exact Hin|].
    intros name Hn. rewrite (Hout name Hn).
    apply not_elem_of_list_to_map_1. rewrite <- list_fmap_compose. exact Hn.
Qed.

(** *** The run as a sequence of timed calls *)

(** One trial is one timed call of the function that [func] names. *)
Lemma trial_plan (func : algo) (n : Z) (w : world (G:=G)) :
  (Z.to_nat n < fuel)%nat ->
  exists w',
    after_call randint (run_algo fuel func) n w = Some w' /\
    (random_array randint n ≫= time_function clock fuel func) w =
    HDone (clock (S (ticks w)) - clock (ticks w))%R w' /\
    ticks w' = S (S (ticks w)).
Proof.
  intros Hf.
  pose proof (draw_list_length (range 0 n) (n * 10) (gen w)) as Hl.
  unfold after_call, mbind, Run_bind, hbind, random_array.
  destruct (draw_list randint (range 0 n) (n * 10) (gen w)) as [xs g'] eqn:Ed.
  simpl in Hl. rewrite range_length in Hl.
  set (arr := fresh (dom (heap w))).
  destruct (all_sort_specs (<[arr := xs]> (heap w)) arr xs fuel) as (H1 & H2 & H3 & H4 & H5).
  { apply lookup_insert_eq. }
  { rewrite Hl. replace (n - 0) with n by lia. exact Hf. }
  assert (returns_fresh (run_algo fuel func arr) (<[arr := xs]> (heap w)) (sorted xs))
    as (r & s' & Hrun & _).
  { destruct func; assumption. }
  rewrite Hrun. eexists. split; [reflexivity|]. split; [|reflexivity].
  unfold time_function, mbind, Run_bind, hbind, perf_counter, call_sort.
  cbn [heap gen ticks]. rewrite Hrun. reflexivity.
Qed.

Lemma after_calls_app (cs1 cs2 : list ((loc -> M (T:=Z) loc) * Z))
    (w w1 : world (G:=G)) :
  after_calls randint cs1 w = Some w1 ->
  after_calls randint (cs1 ++ cs2) w = after_calls randint cs2 w1.
Proof.
  revert w. induction cs1 as [|[f n] cs1 IH]; intros w E.
  - simpl in E. injection E as ->. reflexivity.
  - simpl in *. destruct (after_call randint f n w) as [w0|]; [|discriminate].
    apply IH, E.
Qed.

Lemma run_trials_plan (func : algo) (n : Z) (js : list Z) :
  (Z.to_nat n < fuel)%nat ->
  forall (times : list R) (w : world (G:=G)),
  exists w',
    after_calls randint (replicate (length js) (run_algo fuel func, n)) w = Some w' /\
    run_trials randint clock fuel func n js times w =
    HDone (times ++ elapsed_samples clock (ticks w) (length js)) w' /\
    ticks w' = (ticks w + 2 * length js)%nat.
Proof.
  intros Hf. induction js as [|j js IH]; intros times w.
  - exists w. simpl. rewrite app_nil_r. split; [reflexivity|]. split; [reflexivity | lia].
  - destruct (trial_plan func n w Hf) as (w1 & Hcall & Hrun & Ht).
    unfold mbind, Run_bind, hbind in Hrun.
    cbn [run_trials length replicate after_calls]. unfold mbind, Run_bind, hbind.
    rewrite Hcall.
    destruct (random_array randint n w) as [arr w0|e]; [|discriminate].
    rewrite Hrun.
    destruct (IH (times ++ [(clock (S (ticks w)) - clock (ticks w))%R]) w1)
      as (w' & Hcalls & Hrun' & Ht').
    exists w'. split; [exact Hcalls|]. split.
    + rewrite Hrun', Ht, <- app_assoc. reflexivity.
    + rewrite Ht', Ht. lia.
Qed.

Lemma measure_plan (func : algo) (n trials : Z) (w : world (G:=G)) :
  0 < trials -> (Z.to_nat n < fuel)%nat ->
  exists w',
    after_calls randint (replicate (Z.to_nat trials) (run_algo fuel func, n)) w = Some w' /\
    run_trials randint clock fuel func n (range 0 trials) [] w =
    HDone (elapsed_samples clock (ticks w) (Z.to_nat trials)) w' /\
    measure randint clock fuel func n trials w =
    HDone (stat_row clock (Z.to_nat trials) (ticks w) n) w' /\
    ticks w' = (ticks w + 2 * Z.to_nat trials)%nat.
Proof.
  intros Ht Hf. unfold measure.
  destruct (run_trials_plan func n (range 0 trials) Hf [] w) as (w' & Hcalls & Hrun & Hticks).
  rewrite range_length in Hcalls, Hrun, Hticks.
  replace (trials - 0) with trials in * by lia. simpl app in Hrun.
  exists w'. split; [exact Hcalls|]. split; [exact Hrun|]. split; [|exact Hticks].
  erewrite run_bind_Done; [|exact Hrun].
  unfold stat_row, pstdev, mean.
  pose proof (elapsed_samples_length (ticks w) (Z.to_nat trials)) as Hl.
  destruct (elapsed_samples clock (ticks w) (Z.to_nat trials)) as [|t ts] eqn:Es;
    [simpl in Hl; lia|].
  rewrite Hl. reflexivity.
Qed.

Lemma run_sizes_plan (name : string) (func : algo) (trials : Z) (ns : list Z) :
  0 < trials -> (forall n, n ∈ ns -> (Z.to_nat n < fuel)%nat) ->
  forall (results : gmap string (list (Z * R * R))) (rows : list (Z * R * R))
         (w : world (G:=G)),
    results !! name = Some rows ->
    exists w',
      after_calls randint (calls_for (run_algo fuel func) (Z.to_nat trials) ns) w = Some w' /\
      run_sizes randint clock fuel name func ns trials results w =
      HDone (<[name := rows ++ rows_from clock (Z.to_nat trials) (ticks w) ns]> results) w' /\
      ticks w' = (ticks w + 2 * Z.to_nat trials * length ns)%nat.
Proof.
  intros Ht. induction ns as [|n ns IH]; intros Hf results rows w E.
  - exists w. simpl. rewrite app_nil_r, insert_id by exact E.
    split; [reflexivity|]. split; [reflexivity | lia].
  - destruct (measure_plan func n trials w Ht) as (w1 & Hcalls & _ & Hrun & Hticks).
    { apply Hf. left. }
    cbn [run_sizes]. erewrite run_bind_Done; [|exact Hrun]. rewrite E.
    destruct (IH (fun m Hm => Hf m (list_elem_of_further _ _ _ Hm))
                (<[name := rows ++ [stat_row clock (Z.to_nat trials) (ticks w) n]]> results)
                (rows ++ [stat_row clock (Z.to_nat trials) (ticks w) n]) w1)
      as (w' & Hcalls' & Hrun' & Hticks').
    { apply lookup_insert_eq. }
    exists w'. split; [|split].
    + unfold calls_for. cbn [flat_map].
      rewrite (after_calls_app _ _ _ _ Hcalls). exact Hcalls'.
    + rewrite Hrun', insert_insert_eq, Hticks, <- app_assoc. reflexivity.
    + rewrite Hticks', Hticks. cbn [length]. lia.
Qed.

(** The whole run: the rows of each algorithm with the readings of the
    clock they come from, and the world at the end as the world after the
    timed calls, algorithm after algorithm and size after size. *)
Lemma run_experiments_plan (sizes : option (list Z)) (trials : Z)
    (outdir : option string) (seed : Z) (w : world (G:=G)) :
  0 < trials ->
  (forall n, n ∈ default default_sizes sizes -> (Z.to_nat n < fuel)%nat) ->
  exists results w',
    run_experiments seed_rng randint clock fuel sizes trials outdir seed w
    = HDone results w' /\
    after_calls randint
      (calls_for bubble_sort (Z.to_nat trials)
         (List.filter (fun s => (s <=? 1024)%Z) (default default_sizes sizes)) ++
       calls_for (insertion_sort fuel) (Z.to_nat trials)
         (List.filter (fun s => (s <=? 1024)%Z) (default default_sizes sizes)) ++
       calls_for (merge_sort fuel) (Z.to_nat trials) (default default_sizes sizes) ++
       calls_for (quick_sort fuel) (Z.to_nat trials) (default default_sizes sizes) ++
       calls_for python_sort (Z.to_nat trials) (default default_sizes sizes))
      {| heap := heap w; gen := seed_rng seed; ticks := ticks w |} = Some w' /\
    ticks w' =
    (ticks w + 2 * Z.to_nat trials *
       (2 * length (List.filter (fun s => (s <=? 1024)%Z) (default default_sizes sizes))
        + 3 * length (default default_sizes sizes)))%nat /\
    results !! "Bubble" =
    Some (rows_from clock (Z.to_nat trials) (ticks w)
            (List.filter (fun s => (s <=? 1024)%Z) (default default_sizes sizes))) /\
    results !! "Insertion" =
    Some (rows_from clock (Z.to_nat trials)
            (ticks w + 2 * Z.to_nat trials *
               length (List.filter (fun s => (s <=? 1024)%Z) (default default_sizes sizes)))
            (List.filter (fun s => (s <=? 1024)%Z) (default default_sizes sizes))) /\
    results !! "Merge" =
    Some (rows_from clock (Z.to_nat trials)
            (ticks w + 2 * Z.to_nat trials *
               (2 * length (List.filter (fun s => (s <=? 1024)%Z) (default default_sizes sizes))))
            (default default_sizes sizes)) /\
    results !! "Quick" =
    Some (rows_from clock (Z.to_nat trials)
            (ticks w + 2 * Z.to_nat trials *
               (2 * length (List.filter (fun s => (s <=? 1024)%Z) (default default_sizes sizes))
                + length (default default_sizes sizes)))
            (default default_sizes sizes)) /\
    results !! "Timsort" =
    Some (rows_from clock (Z.to_nat trials)
            (ticks w + 2 * Z.to_nat trials *
               (2 * length (List.filter (fun s => (s <=? 1024)%Z) (default default_sizes sizes))
                + 2 * length (default default_sizes sizes)))
            (default default_sizes sizes)).
Proof.
  intros Ht Hf. unfold run_experiments.
  replace (match sizes with Some l => l | None => default_sizes end)
    with (default default_sizes sizes) by (destruct sizes; reflexivity).
  set (all := default default_sizes sizes) in *.
  set (small := List.filter (fun s => (s <=? 1024)%Z) all).
  set (k := Z.to_nat trials).
  assert (forall n, n ∈ small -> (Z.to_nat n < fuel)%nat) as Hfs.
  { intros n Hn. apply Hf. apply list_elem_of_In, List.filter_In in Hn.
    apply list_elem_of_In. tauto. }
  set (w0 := {| heap := heap w; gen := seed_rng seed; ticks := ticks w |}).
  set (r0 := list_to_map ((fun nf : string * algo => (nf.1, [])) <$> algos)
             : gmap string (list (Z * R * R))).
  cbn [run_algos algos].
  change (sizes_to_run "Bubble" all) with small.
  change (sizes_to_run "Insertion" all) with small.
  change (sizes_to_run "Merge" all) with all.
  change (sizes_to_run "Quick" all) with all.
  change (sizes_to_run "Timsort" all) with all.
  destruct (run_sizes_plan "Bubble" Bubble trials small Ht Hfs r0 [] w0 eq_refl)
    as (w1 & C1 & R1 & T1).
  set (r1 := <["Bubble" := [] ++ rows_from clock k (ticks w0) small]> r0) in *.
  destruct (run_sizes_plan "Insertion" Insertion trials small Ht Hfs r1 [] w1)
    as (w2 & C2 & R2 & T2).
  { unfold r1. rewrite lookup_insert_ne by discriminate. reflexivity. }
  set (r2 := <["Insertion" := [] ++ rows_from clock k (ticks w1) small]> r1) in *.
  destruct (run_sizes_plan "Merge" Merge trials all Ht Hf r2 [] w2)
    as (w3 & C3 & R3 & T3).
  { unfold r2, r1. rewrite !lookup_insert_ne by discriminate. reflexivity. }
  set (r3 := <["Merge" := [] ++ rows_from clock k (ticks w2) all]> r2) in *.
  destruct (run_sizes_plan "Quick" Quick trials all Ht Hf r3 [] w3)
    as (w4 & C4 & R4 & T4).
  { unfold r3, r2, r1. rewrite !lookup_insert_ne by discriminate. reflexivity. }
  set (r4 := <["Quick" := [] ++ rows_from clock k (ticks w3) all]> r3) in *.
  destruct (run_sizes_plan "Timsort" Timsort trials all Ht Hf r4 [] w4)
    as (w5 & C5 & R5 & T5).
  { unfold r4, r3, r2, r1. rewrite !lookup_insert_ne by discriminate. reflexivity. }
  set (r5 := <["Timsort" := [] ++ rows_from clock k (ticks w4) all]> r4) in *.
  exists r5, w5.
  split.
  { erewrite run_bind_Done; [|exact R1].
    erewrite run_bind_Done; [|exact R2].
    erewrite run_bind_Done; [|exact R3].
    erewrite run_bind_Done; [|exact R4].
    erewrite run_bind_Done; [|exact R5].
    reflexivity. }
  split.
  { change (run_algo fuel Bubble) with (bubble_sort (T:=Z)) in C1.
    change (run_algo fuel Insertion) with (insertion_sort (T:=Z) fuel) in C2.
    change (run_algo fuel Merge) with (merge_sort (T:=Z) fuel) in C3.
    change (run_algo fuel Quick) with (quick_sort (T:=Z) fuel) in C4.
    change (run_algo fuel Timsort) with (python_sort (T:=Z)) in C5.
    rewrite (after_calls_app _ _ _ _ C1), (after_calls_app _ _ _ _ C2),
      (after_calls_app _ _ _ _ C3), (after_calls_app _ _ _ _ C4).
    exact C5. }
  assert (ticks w0 = ticks w) as T0 by reflexivity.
  split; [lia|].
  unfold r5, r4, r3, r2, r1. simpl app.
  split; [rewrite !lookup_insert_ne by discriminate; rewrite lookup_insert_eq; reflexivity|].
  split; [rewrite !lookup_insert_ne by discriminate; rewrite lookup_insert_eq;
          do 2 f_equal; lia|].
  split; [rewrite !lookup_insert_ne by discriminate; rewrite lookup_insert_eq;
          do 2 f_equal; lia|].
  split; [rewrite !lookup_insert_ne by discriminate; rewrite lookup_insert_eq;
          do 2 f_equal; lia|].
  rewrite lookup_insert_eq. do 2 f_equal. lia.
Qed.

End HarnessFacts.

Section HarnessClaims.
Context {G : Type} (seed_rng : Z -> G) (randint : G -> Z -> Z -> Z * G).
Context (clock : nat -> R) (fuel : nat).

Lemma run_experiments_unique (sizes : option (list Z)) (trials : Z)
    (outdir : option string) (seed : Z) (w w1 w2 : world (G:=G))
    (r1 r2 : gmap string (list (Z * R * R))) :
  run_experiments seed_rng randint clock fuel sizes trials outdir seed w = HDone r1 w1 ->
  run_experiments seed_rng randint clock fuel sizes trials outdir seed w = HDone r2 w2 ->
  r1 = r2 /\ w1 = w2.
Proof. intros E1 E2. rewrite E1 in E2. injection E2 as -> ->. split; reflexivity. Qed.


(** C8: for every algorithm and size that [run_experiments] measures, the
    row recorded holds the arithmetic mean and the population standard
    deviation, both with divisor the number of trials, of the elapsed
    times of the trials of that measurement.  First for one measurement,
    in any world: the row that [measure] returns is made of the list
    [times] that the loop over the trials has built, as [sum / trials] and
    the square root of [sum of squared deviations / trials], and [times]
    holds the [trials] elapsed times read from the clock during that loop.
    Then for the run: the rows under each name are the rows of its sizes,
    one for each, each from the clock readings of its own trials, the
    measurements following each other in the order of the run. *)
Theorem rows_hold_mean_and_pstdev (sizes : option (list Z)) (trials : Z)
    (outdir : option string) (seed : Z) (w : world (G:=G)) :
  0 < trials ->
  (forall n, n ∈ default default_sizes sizes -> (Z.to_nat n < fuel)%nat) ->
  (forall (func : algo) (n : Z) (w0 : world (G:=G)),
     (Z.to_nat n < fuel)%nat ->
     exists times w1,
       run_trials randint clock fuel func n (range 0 trials) [] w0 = HDone times w1 /\
       times = elapsed_samples clock (ticks w0) (Z.to_nat trials) /\
       length times = Z.to_nat trials /\
       measure randint clock fuel func n trials w0 =
       HDone (n, (Rsum times / INR (Z.to_nat trials))%R,
              sqrt (Rsum ((fun t => (t - Rsum times / INR (Z.to_nat trials))
                                    * (t - Rsum times / INR (Z.to_nat trials)))%R <$> times)
                    / INR (Z.to_nat trials))) w1) /\
  exists results w',
    run_experiments seed_rng randint clock fuel sizes trials outdir seed w
    = HDone results w' /\
    results !! "Bubble" =
    Some (rows_from clock (Z.to_nat trials) (ticks w)
            (List.filter (fun s => (s <=? 1024)%Z) (default default_sizes sizes))) /\
    results !! "Insertion" =
    Some (rows_from clock (Z.to_nat trials)
            (ticks w + 2 * Z.to_nat trials *
               length (List.filter (fun s => (s <=? 1024)%Z) (default default_sizes sizes)))
            (List.filter (fun s => (s <=? 1024)%Z) (default default_sizes sizes))) /\
    results !! "Merge" =
    Some (rows_from clock (Z.to_nat trials)
            (ticks w + 2 * Z.to_nat trials *
               (2 * length (List.filter (fun s => (s <=? 1024)%Z)
                              (default default_sizes sizes))))
            (default default_sizes sizes)) /\
    results !! "Quick" =
    Some (rows_from clock (Z.to_nat trials)
            (ticks w + 2 * Z.to_nat trials *
               (2 * length (List.filter (fun s => (s <=? 1024)%Z)
                              (default default_sizes sizes))
                + length (default default_sizes sizes)))
            (default default_sizes sizes)) /\
    results !! "Timsort" =
    Some (rows_from clock (Z.to_nat trials)
            (ticks w + 2 * Z.to_nat trials *
               (2 * length (List.filter (fun s => (s <=? 1024)%Z)
                              (default default_sizes sizes))
                + 2 * length (default default_sizes sizes)))
            (default default_sizes sizes)) /\
    (forall name, name ∉ algos.*1 -> results !! name = None) /\
    (forall (k t0 : nat) (n : Z) (ns : list Z),
       rows_from clock k t0 (n :: ns) =
       (n, (Rsum (elapsed_samples clock t0 k) / INR k)%R,
        sqrt (Rsum ((fun t => (t - Rsum (elapsed_samples clock t0 k) / INR k)
                              * (t - Rsum (elapsed_samples clock t0 k) / INR k))%R
                    <$> elapsed_samples clock t0 k) / INR k))
       :: rows_from clock k (t0 + 2 * k) ns) /\
    (forall name rows,
       results !! name = Some rows ->
       List.Forall (aggregated clock (Z.to_nat trials)) rows).
Proof.
  intros Ht Hf. split.
  { intros func n w0 Hn.
    destruct (measure_plan randint clock fuel func n trials w0 Ht Hn)
      as (w1 & _ & Hrun & Hm & _).
    exists (elapsed_samples clock (ticks w0) (Z.to_nat trials)), w1.
    split; [exact Hrun|]. split; [reflexivity|].
    split; [apply elapsed_samples_length | exact Hm]. }
  destruct (run_experiments_plan seed_rng randint clock fuel sizes trials outdir seed w Ht Hf)
    as (results & w' & Hrun & Hcalls & Hticks & E1 & E2 & E3 & E4 & E5).
  destruct (run_experiments_ok seed_rng randint clock fuel sizes trials outdir seed w Ht Hf)
    as (results0 & w0 & Hrun0 & Hin & Hout).
  destruct (run_experiments_unique _ _ _ _ _ _ _ _ _ Hrun0 Hrun) as [-> ->].
  exists results, w'. split; [exact Hrun|].
  split; [exact E1|]. split; [exact E2|]. split; [exact E3|].
  split; [exact E4|]. split; [exact E5|]. split; [exact Hout|].
  split; [reflexivity|].
  intros name rows E.
  destruct (decide (name ∈ algos.*1)) as [Hn|Hn].
  - destruct (Hin name Hn) as [t0 E']. rewrite E' in E. injection E as <-.
    apply rows_from_aggregated.
  - rewrite (Hout name Hn) in E. discriminate.
Qed.

End HarnessClaims.


Lemma rows_hold_mean_and_pstdev_witness :
  exists results w',
    run_experiments (fun _ => tt) example_randint example_clock 3000
      (Some [128; 2048]) 3 None 0 example_world
    = HDone results w' /\
    results !! "Bubble" = Some (rows_from example_clock 3 0 [128]) /\
    results !! "Insertion" = Some (rows_from example_clock 3 6 [128]) /\
    results !! "Merge" = Some (rows_from example_clock 3 12 [128; 2048]) /\
    results !! "Quick" = Some (rows_from example_clock 3 24 [128; 2048]) /\
    results !! "Timsort" = Some (rows_from example_clock 3 36 [128; 2048]).
Proof.
  destruct (rows_hold_mean_and_pstdev (fun _ => tt) example_randint example_clock 3000
              (Some [128; 2048]) 3 None 0 example_world)
    as (_ & results & w' & Hrun & E1 & E2 & E3 & E4 & E5 & _).
  - lia.
  - intros n Hn. simpl in Hn.
    repeat (apply elem_of_cons in Hn; destruct Hn as [->|Hn]; [lia|]).
    inversion Hn.
  - exists results, w'. split; [exact Hrun|].
    split; [exact E1|]. split; [exact E2|]. split; [exact E3|].
    split; [exact E4 | exact E5].
Defined.

(** The population standard deviation of the two data 0 and 2 is 1; with
    divisor [n - 1] it would be the square root of 2. *)
Lemma pstdev_divisor_example :
  pstdev [0%R; 2%R] = Some 1%R /\ sample_stdev [0%R; 2%R] = Some (sqrt 2).
Proof.
  unfold pstdev, sample_stdev, mean. simpl. split; f_equal.
  - etrans; [|apply sqrt_1]. f_equal. lra.
  - f_equal. lra.
Qed.

(** ** The command line *)









Lemma range_pow2_modelled (lo hi : Z) :
  - 2 ^ 1023 <= lo -> forallb pow2_modelled (range lo hi) = true.
Proof.
  intros Hlo. apply forallb_forall. intros p Hp.
  apply list_elem_of_In in Hp. unfold range in Hp.
  apply list_elem_of_fmap in Hp. destruct Hp as (k & -> & _).
  unfold pow2_modelled. apply Z.leb_le.
  remember (- 2 ^ 1023) as b. lia.
Qed.

(** What [main] does once the arguments have parsed. *)
Lemma main_parsed (argv : list string) (args : namespace) :
  parse_args argv = ParseOk args ->
  max_power args < min_power args \/ - 2 ^ 1023 <= min_power args ->
  main argv = Runs {| call_sizes := pow2 <$> range (min_power args) (max_power args + 1);
                      call_trials := trials args;
                      call_outdir := outdir args;
                      call_seed := seed args |}.
Proof.
  intros E H. unfold main. rewrite E.
  destruct H as [H|H].
  - rewrite range_nil by lia. reflexivity.
  - rewrite range_pow2_modelled by exact H. reflexivity.
Qed.







(** The forms of a command line that the parser takes, and some that it
    refuses: underscores and white space in an integer, the value after
    [=], a shortened option, a negative number as a value; a value that is
    no integer, a missing value, an option in the place of a value, a word
    that no option takes; the help, which wins when it comes first. *)
Lemma parse_args_forms :
  parse_args ["--trials"; "1_000"]%string
  = ParseOk {| min_power := 7; max_power := 12; trials := 1000; seed := 0; outdir := None |} /\
  parse_args ["--trials"; " 7"]%string
  = ParseOk {| min_power := 7; max_power := 12; trials := 7; seed := 0; outdir := None |} /\
  parse_args ["--min-power=5"; "--max=9"]%string
  = ParseOk {| min_power := 5; max_power := 9; trials := 3; seed := 0; outdir := None |} /\
  parse_args ["--seed"; "-4"; "--outdir"; "out"]%string
  = ParseOk {| min_power := 7; max_power := 12; trials := 3; seed := -4;
               outdir := Some "out"%string |} /\
  parse_args ["--trials"; "1__0"]%string = UsageError /\
  parse_args ["--trials"; "3.5"]%string = UsageError /\
  parse_args ["--trials"]%string = UsageError /\
  parse_args ["--trials"; "--seed"; "1"]%string = UsageError /\
  parse_args ["--trials"; "3"; "4"]%string = UsageError /\
  parse_args ["-h"; "--trials"; "abc"]%string = HelpExit /\
  parse_args ["--trials"; "abc"; "-h"]%string = UsageError /\
  parse_args ["--outdir"; "-x"]%string = ParseNotModelled /\
  parse_args ["--m"; "3"]%string = ParseNotModelled.
Proof. repeat split; vm_compute; reflexivity. Qed.

(** ** The scenarios of [tests/test_sorting.py] *)

Example test_with_duplicates :
  result_list (bubble_sort 0%nat example_store) = Some [1; 1; 2; 3; 4; 5; 5] /\
  result_list (insertion_sort 8 0%nat example_store) = Some [1; 1; 2; 3; 4; 5; 5] /\
  result_list (merge_sort 8 0%nat example_store) = Some [1; 1; 2; 3; 4; 5; 5] /\
  result_list (quick_sort 8 0%nat example_store) = Some [1; 1; 2; 3; 4; 5; 5] /\
  result_list (python_sort 0%nat example_store) = Some [1; 1; 2; 3; 4; 5; 5].
Proof. vm_compute. repeat split. Qed.

Example test_empty :
  result_list (bubble_sort 0%nat {[ 0%nat := @nil Z ]}) = Some [] /\
  result_list (insertion_sort 1 0%nat {[ 0%nat := @nil Z ]}) = Some [] /\
  result_list (merge_sort 1 0%nat {[ 0%nat := @nil Z ]}) = Some [] /\
  result_list (quick_sort 1 0%nat {[ 0%nat := @nil Z ]}) = Some [] /\
  result_list (python_sort 0%nat {[ 0%nat := @nil Z ]}) = Some [].
Proof. vm_compute. repeat split. Qed.

Example test_single :
  result_list (bubble_sort 0%nat {[ 0%nat := [1] ]}) = Some [1] /\
  result_list (insertion_sort 2 0%nat {[ 0%nat := [1] ]}) = Some [1] /\
  result_list (merge_sort 2 0%nat {[ 0%nat := [1] ]}) = Some [1] /\
  result_list (quick_sort 2 0%nat {[ 0%nat := [1] ]}) = Some [1] /\
  result_list (python_sort 0%nat {[ 0%nat := [1] ]}) = Some [1].
Proof. vm_compute. repeat split. Qed.

(** The five calls one after the other on the same list, as in
    [test_original_unchanged]. *)
Example test_original_unchanged :
  (result_store
     ((bubble_sort 0%nat;; insertion_sort 4 0%nat;; merge_sort 4 0%nat;;
       quick_sort 4 0%nat;; python_sort 0%nat) {[ 0%nat := [3; 2; 1] ]})
     ≫= fun s => s !! 0%nat)
  = Some [3; 2; 1].
Proof. vm_compute. reflexivity. Qed.

(** Records with equal keys keep their order, also under [quick_sort]. *)
Example test_stable_items :
  result_list (quick_sort 6 0%nat example_item_store)
  = Some [Item 1 1; Item 1 3; Item 2 0; Item 2 2; Item 2 4] /\
  result_list (merge_sort 6 0%nat example_item_store)
  = Some [Item 1 1; Item 1 3; Item 2 0; Item 2 2; Item 2 4].
Proof. vm_compute. repeat split. Qed.

(** Too little fuel is reported as such, not as a result. *)
Example out_of_fuel :
  insertion_sort 3 0%nat {[ 0%nat := [4; 3; 2; 1] ]} = OutOfFuel.
Proof. vm_compute. reflexivity. Qed.

(** * Further properties of the code *)

(** ** The sorting functions on particular inputs and in sequence *)

Section SortingExtras.
Context {T : Type} {CT : Cmp T} {OT : TotalOrder T}.

Local Abbreviation store := (gmap loc (list T)).

Lemma sorted_id (a : list T) : StronglySorted le_rel a -> sorted a = a.
Proof. intros S. symmetry. apply sorted_unique; [exact S | apply stable_perm_refl]. Qed.

Lemma sorted_length (a : list T) : length (sorted a) = length a.
Proof. symmetry. apply stable_perm_length, sorted_stable. Qed.

Lemma sort_with_spec (s : store) (arr : loc) (a : list T) (fuel : nat) (f : algo) :
  s !! arr = Some a -> (length a < fuel)%nat ->
  returns_fresh (sort_with fuel f arr) s (sorted a).
Proof.
  intros E Hf.
  destruct (all_sort_specs s arr a fuel E Hf) as (H1 & H2 & H3 & H4 & H5).
  destruct f; assumption.
Qed.

(** Each of the five functions returns a list that is already in order,
    lists of elements that all compare equal among them, as a new list
    with the same elements at the same positions. *)
Theorem sorted_input_returned (s : store) (arr : loc) (a : list T) (fuel : nat) (f : algo) :
  s !! arr = Some a -> (length a < fuel)%nat ->
  StronglySorted le_rel a ->
  returns_fresh (sort_with fuel f arr) s a.
Proof.
  intros E Hf S. pose proof (sort_with_spec s arr a fuel f E Hf) as Hs.
  rewrite (sorted_id a S) in Hs. exact Hs.
Qed.

Lemma rev_sorted_of_decreasing (a : list T) :
  StronglySorted gt_rel a -> StronglySorted le_rel (rev a).
Proof.
  induction 1 as [|x l S IH F]; [constructor|]. simpl.
  apply StronglySorted_app_le; [exact IH | repeat constructor|].
  intros y z Hy [<-|[]]. apply List.in_rev in Hy.
  exact (proj2 (py_gt_true x y (proj1 (List.Forall_forall _ _) F y Hy))).
Qed.

Lemma rev_stable_of_decreasing (a : list T) :
  StronglySorted gt_rel a -> stable_perm a (rev a).
Proof.
  induction 1 as [|x l S IH F]; [apply stable_perm_refl|].
  intros k. simpl. rewrite List.filter_app, IH. simpl.
  destruct (py_eq k x) eqn:Ekx; [|apply app_nil_r].
  assert (List.filter (py_eq k) l = []) as ->; [|reflexivity].
  clear -F Ekx OT. induction F as [|y l Hy F IH]; [reflexivity|]. simpl.
  destruct (py_eq k y) eqn:Eky; [|exact IH].
  apply py_gt_true in Hy. destruct Hy as [Hy _].
  rewrite (py_eq_class k x y Ekx Eky) in Hy. discriminate.
Qed.

(** Each of the five functions returns a strictly decreasing list
    reversed. *)
Theorem decreasing_input_reversed (s : store) (arr : loc) (a : list T) (fuel : nat) (f : algo) :
  s !! arr = Some a -> (length a < fuel)%nat ->
  StronglySorted gt_rel a ->
  returns_fresh (sort_with fuel f arr) s (rev a).
Proof.
  intros E Hf S.
  rewrite (sorted_unique a (rev a) (rev_sorted_of_decreasing a S)
             (rev_stable_of_decreasing a S)).
  apply sort_with_spec; assumption.
Qed.

(** Sorting the result of one of the five functions with any of them
    returns the same list again, in one more new object: the second call
    returns an object that did not exist after the first call, so it is
    neither the first result nor the input; the first result still holds
    the sorted list after the second call, the input of the first call is
    as it was, and so is every object that existed before either call. *)
Theorem sort_twice (s : store) (arr : loc) (a : list T) (fuel : nat) (f g : algo) :
  s !! arr = Some a -> (length a < fuel)%nat ->
  returns_fresh (sort_with fuel f arr ≫= sort_with fuel g) s (sorted a) /\
  exists r1 s1 r2 s2,
    sort_with fuel f arr s = Done r1 s1 /\
    sort_with fuel g r1 s1 = Done r2 s2 /\
    (sort_with fuel f arr ≫= sort_with fuel g) s = Done r2 s2 /\
    s !! r1 = None /\ s1 !! r1 = Some (sorted a) /\
    s1 !! r2 = None /\ r2 <> r1 /\ r2 <> arr /\ r1 <> arr /\
    s2 !! r2 = Some (sorted a) /\
    s2 !! r1 = Some (sorted a) /\
    s2 !! arr = Some a /\
    s ⊆ s1 /\ s1 ⊆ s2.
Proof.
  intros E Hf.
  destruct (sort_with_spec s arr a fuel f E Hf) as (r & s1 & E1 & Hn1 & Hv1 & H1).
  destruct (sort_with_spec s1 r (sorted a) fuel g Hv1) as (r2 & s2 & E2 & Hn2 & Hv2 & H2).
  { rewrite sorted_length. exact Hf. }
  rewrite (sorted_id _ (sorted_sorted a)) in Hv2.
  assert ((sort_with fuel f arr ≫= sort_with fuel g) s = Done r2 s2) as E12.
  { rewrite (bind_Done _ _ _ _ _ E1). exact E2. }
  pose proof (lookup_weaken _ _ _ _ E H1) as Ea1.
  split.
  { exists r2, s2. split; [exact E12|].
    split; [exact (lookup_weaken_None _ _ _ Hn2 H1)|].
    split; [exact Hv2 | etrans; eassumption]. }
  exists r, s1, r2, s2.
  split; [exact E1|]. split; [exact E2|]. split; [exact E12|].
  split; [exact Hn1|]. split; [exact Hv1|]. split; [exact Hn2|].
  split; [congruence|]. split; [congruence|]. split; [congruence|].
  split; [exact Hv2|].
  split; [exact (lookup_weaken _ _ _ _ Hv1 H2)|].
  split; [exact (lookup_weaken _ _ _ _ Ea1 H2)|].
  split; assumption.
Qed.

(** A pass of [bubble_sort] reports that the loop is to be left exactly
    when the part of the list that it visits is in order, and then it has
    left the list as it was. *)
Theorem bubble_flag_iff_sorted (w : loc) (s0 : store) (cur : list T) (i : nat) :
  exists brk s',
    bubble_pass w (Z.of_nat (length cur)) (Z.of_nat i) (<[w := cur]> s0) = Done brk s' /\
    (brk = true <-> StronglySorted le_rel (take (length cur - i) cur)) /\
    (brk = true -> s' = <[w := cur]> s0).
Proof.
  destruct (Nat.le_gt_cases (length cur) i) as [Hi|Hi].
  { exists true, (<[w := cur]> s0).
    split; [apply bubble_pass_late; lia|].
    replace (length cur - i)%nat with 0%nat by lia.
    split; [|reflexivity]. split; [constructor | reflexivity]. }
  set (c := (length cur - i)%nat).
  assert (take c cur ++ drop c cur = cur) as Hcur by apply take_drop.
  pose proof (bubble_pass_split w s0 (take c cur) (drop c cur)
                (Z.of_nat (length cur)) (Z.of_nat i)) as Hp.
  rewrite Hcur in Hp.
  specialize (Hp ltac:(rewrite length_drop; subst c; lia) eq_refl).
  destruct (take c cur) as [|x l] eqn:Et.
  - exists true, (<[w := cur]> s0).
    split; [exact Hp|]. split; [|reflexivity]. split; [constructor | reflexivity].
  - eexists _, _. split; [exact Hp|].
    destruct (bubble_run (length l) x l false) as [r sw] eqn:Er. simpl.
    split; [split|].
    + intros Hb. apply negb_true_iff in Hb. subst sw.
      pose proof (bubble_run_noswap x l) as Hns. rewrite Er in Hns.
      exact (proj2 (Hns eq_refl)).
    + intros S. rewrite (bubble_run_sorted _ x l false S) in Er.
      injection Er as _ <-. reflexivity.
    + intros Hb. apply negb_true_iff in Hb. subst sw.
      pose proof (bubble_run_noswap x l) as Hns. rewrite Er in Hns.
      destruct (Hns eq_refl) as [Hr _]. simpl in Hr. subst r.
      rewrite Hcur. reflexivity.
Qed.

(** On a list in order, the [while] loop of [insertion_sort] ends at the
    first evaluation of its condition. *)
Lemma insertion_step_sorted (a : loc) (s0 : store) (pre post : list T) (key : T) (i : Z) :
  i = Z.of_nat (length pre) ->
  StronglySorted le_rel (pre ++ key :: post) ->
  insertion_step 1 a i tt (<[a := pre ++ key :: post]> s0)
  = Done tt (<[a := pre ++ key :: post]> s0).
Proof.
  intros -> S. unfold insertion_step.
  erewrite bind_Done;
    [|eapply getitem_ok; [apply lookup_insert_eq | | apply lookup_mid0]; reflexivity].
  assert (while_ 1 (shift_cond a key) (shift_body a) (Z.of_nat (length pre) - 1)
            (<[a := pre ++ key :: post]> s0)
          = Done (Z.of_nat (length pre) - 1) (<[a := pre ++ key :: post]> s0)) as Hw.
  { rewrite while_S. destruct pre as [|z p _] using rev_ind.
    - erewrite bind_Done; [|apply shift_cond_neg; simpl; lia]. reflexivity.
    - assert (py_gt z key = false) as Ez.
      { rewrite py_gt_le. apply negb_false_iff.
        apply (proj2 (StronglySorted_app_inv _ _ S)).
        - apply List.in_or_app. right. left. reflexivity.
        - left. reflexivity. }
      erewrite bind_Done;
        [|eapply (shift_cond_ok _ _ z _ (length p));
          [apply lookup_insert_eq
          |rewrite length_app; simpl; lia
          |rewrite <- app_assoc; apply lookup_mid0]].
      rewrite Ez. reflexivity. }
  erewrite bind_Done; [|exact Hw].
  erewrite (setitem_ok _ _ _ _ (length pre));
    [|apply lookup_insert_eq | lia | rewrite length_app; simpl; lia].
  rewrite insert_insert_eq, insert_mid0. reflexivity.
Qed.

Lemma insertion_outer_sorted (a : loc) (s0 : store) (n : Z) (post : list T) :
  forall (pre : list T),
    n = Z.of_nat (length (pre ++ post)) ->
    StronglySorted le_rel (pre ++ post) ->
    for_each (range (Z.of_nat (length pre)) n) tt (insertion_step 1 a)
      (<[a := pre ++ post]> s0) = Done tt (<[a := pre ++ post]> s0).
Proof.
  induction post as [|key post IH]; intros pre Hn S.
  - rewrite app_nil_r in Hn. rewrite range_nil by lia. reflexivity.
  - rewrite length_app in Hn. simpl in Hn.
    rewrite range_cons by lia. cbn [for_each].
    erewrite bind_Done; [|apply insertion_step_sorted; [reflexivity | exact S]].
    replace (pre ++ key :: post) with ((pre ++ [key]) ++ post) in *
      by (rewrite <- app_assoc; reflexivity).
    replace (Z.of_nat (length pre) + 1) with (Z.of_nat (length (pre ++ [key])))
      by (rewrite length_app; simpl; lia).
    apply IH; [rewrite !length_app; simpl; lia | exact S].
Qed.

(** On a list in order [insertion_sort] never enters the body of its
    [while] loop: one evaluation of the condition for each element is
    enough, and the list is returned as a new list. *)
Theorem insertion_sort_best_case (s : store) (arr : loc) (a : list T) :
  s !! arr = Some a -> StronglySorted le_rel a ->
  returns_fresh (insertion_sort 1 arr) s a.
Proof.
  intros E S. apply (returns_fresh_insert _ _ (fresh (dom s))); [apply fresh_None|].
  unfold insertion_sort.
  erewrite bind_Done; [|rewrite (list_ok _ _ _ E); apply alloc_eq].
  erewrite bind_Done; [|apply len_ok, lookup_insert_eq].
  destruct a as [|x l].
  - rewrite range_nil by (simpl; lia). reflexivity.
  - erewrite bind_Done;
      [|apply (insertion_outer_sorted (fresh (dom s)) s _ l [x]); [reflexivity | exact S]].
    reflexivity.
Qed.

Lemma spec_merge_perm (l1 l2 : list T) : Permutation (l1 ++ l2) (spec_merge l1 l2).
Proof.
  revert l2. induction l1 as [|x l1 IH1]; intros l2.
  - rewrite spec_merge_nil_l. reflexivity.
  - induction l2 as [|y l2 IH2]; [rewrite spec_merge_nil_r, app_nil_r; reflexivity|].
    rewrite spec_merge_cons. destruct (py_le x y).
    + simpl. apply perm_skip, IH1.
    + rewrite <- IH2. symmetry. apply (Permutation_middle (x :: l1) l2 y).
Qed.

(** [_merge] returns, for any two lists, in order or not and the same
    object or not, a new list with the elements of both, and leaves both
    as they were; the result of two lists in order is in order, and the
    result with an empty list is the other list. *)
Theorem merge_any_lists (fuel : nat) (left right : loc) (L R : list T) (s : store) :
  s !! left = Some L -> s !! right = Some R ->
  (length L + length R < fuel)%nat ->
  exists out s' v,
    _merge fuel left right s = Done out s' /\
    s !! out = None /\ s' !! out = Some v /\ s ⊆ s' /\
    Permutation (L ++ R) v /\
    (StronglySorted le_rel L -> StronglySorted le_rel R -> StronglySorted le_rel v) /\
    (L = [] -> v = R) /\ (R = [] -> v = L).
Proof.
  intros EL ER Hf.
  destruct (_merge_ok fuel left right L R s EL ER Hf) as (out & s' & Hrun & Hn & Hv & Hsub).
  exists out, s', (spec_merge L R). repeat split; try assumption.
  - apply spec_merge_perm.
  - apply spec_merge_sorted.
  - intros ->. apply spec_merge_nil_l.
  - intros ->. apply spec_merge_nil_r.
Qed.

Lemma py_list_eq_refl (xs : list T) : py_list_eq xs xs = true.
Proof. induction xs as [|x xs IH]; simpl; [|rewrite py_eq_refl, IH]; reflexivity. Qed.

Lemma check_each_passes (fuel : nat) (arr expected : loc) (a : list T) (fs : list algo) :
  (length a < fuel)%nat ->
  forall (s : store),
    s !! arr = Some a -> s !! expected = Some (sorted a) ->
    check_each fuel fs arr expected s = Passed.
Proof.
  intros Hf. induction fs as [|f fs IH]; intros s Ea Ee; [reflexivity|].
  destruct (sort_with_spec s arr a fuel f Ea Hf) as (r & s1 & E1 & Hn & Hv & Hsub).
  simpl. rewrite E1, Hv, (lookup_weaken _ _ _ _ Ee Hsub), py_list_eq_refl.
  apply IH; eapply lookup_weaken; eassumption.
Qed.

(** [check_all_equal] passes on every list: none of its assertions fails
    and nothing is raised. *)
Theorem check_all_equal_passes (s : store) (arr : loc) (a : list T) (fuel : nat) :
  s !! arr = Some a -> (length a < fuel)%nat ->
  check_all_equal fuel arr s = Passed.
Proof.
  intros E Hf. unfold check_all_equal. rewrite (sorted_ok _ _ _ E), alloc_eq.
  apply (check_each_passes fuel arr _ a); [exact Hf| |apply lookup_insert_eq].
  apply (lookup_weaken s); [exact E | apply insert_subseteq, fresh_None].
Qed.

(** The five calls one after the other on the same list leave it as the
    snapshot taken before them: the comparison of
    [test_original_unchanged] holds for every list. *)
Theorem original_unchanged_holds (s : store) (arr : loc) (a : list T) (fuel : nat) :
  s !! arr = Some a -> (length a < fuel)%nat ->
  exists s', original_unchanged fuel arr s = Done true s' /\ s ⊆ s'.
Proof.
  intros E Hf. unfold original_unchanged.
  erewrite bind_Done; [|rewrite (list_ok _ _ _ E); apply alloc_eq].
  set (o := fresh (dom s)). set (s0 := <[o := a]> s).
  assert (s ⊆ s0) as H0 by apply insert_subseteq, fresh_None.
  assert (s0 !! o = Some a) as Eo by apply lookup_insert_eq.
  destruct (sort_with_spec s0 arr a fuel Bubble (lookup_weaken _ _ _ _ E H0) Hf)
    as (r1 & s1 & E1 & _ & _ & H1).
  assert (s ⊆ s1) as H01 by (etrans; eassumption).
  destruct (sort_with_spec s1 arr a fuel Insertion (lookup_weaken _ _ _ _ E H01) Hf)
    as (r2 & s2 & E2 & _ & _ & H2).
  assert (s ⊆ s2) as H02 by (etrans; eassumption).
  destruct (sort_with_spec s2 arr a fuel Merge (lookup_weaken _ _ _ _ E H02) Hf)
    as (r3 & s3 & E3 & _ & _ & H3).
  assert (s ⊆ s3) as H03 by (etrans; eassumption).
  destruct (sort_with_spec s3 arr a fuel Quick (lookup_weaken _ _ _ _ E H03) Hf)
    as (r4 & s4 & E4 & _ & _ & H4).
  assert (s ⊆ s4) as H04 by (etrans; eassumption).
  destruct (sort_with_spec s4 arr a fuel Timsort (lookup_weaken _ _ _ _ E H04) Hf)
    as (r5 & s5 & E5 & _ & _ & H5).
  assert (s ⊆ s5) as H05 by (etrans; eassumption).
  assert (s0 ⊆ s5) as H5' by (repeat (etrans; [eassumption|]); reflexivity).
  simpl in E1, E2, E3, E4, E5.
  erewrite bind_Done; [|exact E1]. erewrite bind_Done; [|exact E2].
  erewrite bind_Done; [|exact E3]. erewrite bind_Done; [|exact E4].
  erewrite bind_Done; [|exact E5].
  erewrite bind_Done; [|apply contents_ok, (lookup_weaken _ _ _ _ E H05)].
  erewrite bind_Done; [|apply contents_ok, (lookup_weaken _ _ _ _ Eo H5')].
  exists s5. rewrite py_list_eq_refl. split; [reflexivity | exact H05].
Qed.

End SortingExtras.

(** ** The tests on random lists *)

Section RandomTestFacts.
Context {G : Type} (seed_rng : Z -> G) (randint : G -> Z -> Z -> Z * G).

Lemma draw_between_length (js : list Z) (lo hi : Z) (g : G) :
  length (draw_between randint js lo hi g).1 = length js.
Proof.
  revert g. induction js as [|j js IH]; intros g; [reflexivity|]. simpl.
  destruct (randint g lo hi) as [x g1]. specialize (IH g1).
  destruct (draw_between randint js lo hi g1) as [xs g2]. simpl in *. lia.
Qed.

(** [random_list(n, seed)] has [n] elements, none for a negative [n], and
    [check_all_equal] passes on it whatever the generator draws: the tests
    on random lists pass for every length and every seed. *)
Theorem test_random_passes (fuel : nat) (n seed : Z) (s : gmap loc (list Z)) :
  (Z.to_nat n < fuel)%nat ->
  length (random_list seed_rng randint n seed).1 = Z.to_nat n /\
  test_random seed_rng randint fuel n seed s = Passed.
Proof.
  intros Hf.
  assert (length (random_list seed_rng randint n seed).1 = Z.to_nat n) as Hl.
  { unfold random_list. rewrite draw_between_length, range_length. f_equal. lia. }
  split; [exact Hl|]. unfold test_random. rewrite alloc_eq.
  apply (check_all_equal_passes _ _ (random_list seed_rng randint n seed).1);
    [apply lookup_insert_eq | rewrite Hl; exact Hf].
Qed.

End RandomTestFacts.

Lemma test_random_passes_witness :
  length (random_list (fun _ => tt) example_randint 50 0).1 = Z.to_nat 50 /\
  test_random (fun _ => tt) example_randint 51 50 0 ∅ = Passed.
Proof.
  apply (test_random_passes (fun _ => tt) example_randint 51 50 0 ∅). lia.
Defined.

(** ** The harness without trials, and two runs compared *)

Section HarnessExtras.
Context {G : Type} (seed_rng : Z -> G) (randint : G -> Z -> Z -> Z * G).
Context (fuel : nat).

Lemma measure_no_trials (clock : nat -> R) (func : algo) (n trials : Z) (w : world (G:=G)) :
  trials <= 0 -> measure randint clock fuel func n trials w = HFail StatisticsError.
Proof. intros Ht. unfold measure. rewrite range_nil by lia. reflexivity. Qed.

Lemma run_sizes_no_trials (clock : nat -> R) (name : string) (func : algo) (ns : list Z)
    (trials : Z) (results : gmap string (list (Z * R * R))) (w : world (G:=G)) :
  trials <= 0 ->
  run_sizes randint clock fuel name func ns trials results w =
  match ns with
  | [] => HDone results w
  | _ => HFail StatisticsError
  end.
Proof.
  intros Ht. destruct ns as [|n ns]; [reflexivity|]. cbn [run_sizes].
  unfold mbind, Run_bind, hbind. rewrite measure_no_trials by exact Ht. reflexivity.
Qed.

(** With a number of trials that is not positive, [run_experiments] ends
    with the [StatisticsError] of [statistics.mean] as soon as one size is
    requested, and records no row for any algorithm when none is. *)
Theorem no_trials_no_statistics (clock : nat -> R) (sizes : option (list Z)) (trials : Z)
    (outdir : option string) (seed : Z) (w : world (G:=G)) :
  trials <= 0 ->
  run_experiments seed_rng randint clock fuel sizes trials outdir seed w =
  match default default_sizes sizes with
  | [] => HDone (list_to_map ((fun nf : string * algo => (nf.1, [])) <$> algos))
            {| heap := heap w; gen := seed_rng seed; ticks := ticks w |}
  | _ => HFail StatisticsError
  end.
Proof.
  intros Ht. unfold run_experiments.
  replace (match sizes with Some l => l | None => default_sizes end)
    with (default default_sizes sizes) by (destruct sizes; reflexivity).
  destruct (default default_sizes sizes) as [|n ns]; [reflexivity|].
  cbn [run_algos algos]. unfold mbind, Run_bind, hbind.
  rewrite !run_sizes_no_trials by exact Ht.
  change (sizes_to_run "Bubble" (n :: ns))
    with (List.filter (fun s => s <=? 1024) (n :: ns)).
  change (sizes_to_run "Insertion" (n :: ns))
    with (List.filter (fun s => s <=? 1024) (n :: ns)).
  destruct (List.filter (fun s => s <=? 1024) (n :: ns)); [|reflexivity].
  rewrite !run_sizes_no_trials by exact Ht. reflexivity.
Qed.

Lemma same_run_bind {A1 A2 B1 B2 : Type} (rel : A1 -> A2 -> Prop) (rel' : B1 -> B2 -> Prop)
    (m1 : Run (G:=G) A1) (m2 : Run (G:=G) A2) (k1 : A1 -> Run B1) (k2 : A2 -> Run B2)
    (w1 w2 : world (G:=G)) :
  same_run rel (m1 w1) (m2 w2) ->
  (forall a b w', rel a b -> same_run rel' (k1 a w') (k2 b w')) ->
  same_run rel' ((m1 ≫= k1) w1) ((m2 ≫= k2) w2).
Proof.
  intros Hm Hk. unfold mbind, Run_bind, hbind.
  destruct (m1 w1) as [a w1'|e1], (m2 w2) as [b w2'|e2]; simpl in Hm; try contradiction.
  - destruct Hm as [-> Hab]. apply Hk, Hab.
  - exact Hm.
Qed.

Lemma same_run_refl {A : Type} (r : hres (G:=G) A) : same_run eq r r.
Proof. destruct r; simpl; auto. Qed.

Lemma time_function_same (clock1 clock2 : nat -> R) (func : algo) (arr : loc)
    (w : world (G:=G)) :
  same_run (fun _ _ => True)
    (time_function clock1 fuel func arr w) (time_function clock2 fuel func arr w).
Proof.
  unfold time_function.
  apply (same_run_bind (fun _ _ => True)); [simpl; auto|]. intros st1 st2 w1 _.
  apply (same_run_bind eq); [apply same_run_refl|]. intros r r' w2 <-.
  apply (same_run_bind (fun _ _ => True)); [simpl; auto|]. intros a b w3 _.
  simpl. auto.
Qed.

Lemma run_trials_same (clock1 clock2 : nat -> R) (func : algo) (n : Z) (js : list Z) :
  forall (t1 t2 : list R) (w : world (G:=G)),
    length t1 = length t2 ->
    same_run (fun a b : list R => length a = length b)
      (run_trials randint clock1 fuel func n js t1 w)
      (run_trials randint clock2 fuel func n js t2 w).
Proof.
  induction js as [|j js IH]; intros t1 t2 w Hl; [simpl; auto|].
  cbn [run_trials].
  apply (same_run_bind eq); [apply same_run_refl|]. intros arr arr' w1 <-.
  apply (same_run_bind (fun _ _ => True)); [apply time_function_same|].
  intros a b w2 _. apply IH. rewrite !length_app, Hl. reflexivity.
Qed.

Lemma mean_same (t1 t2 : list R) :
  length t1 = length t2 -> is_Some (mean t1) <-> is_Some (mean t2).
Proof. destruct t1, t2; simpl; intros Hl; try discriminate; split; eauto. Qed.

Lemma lift_stat_same (o1 o2 : option R) (w : world (G:=G)) :
  (is_Some o1 <-> is_Some o2) ->
  same_run (fun _ _ => True) (lift_stat o1 w) (lift_stat o2 w).
Proof.
  intros Hs. destruct o1 as [x|], o2 as [y|]; simpl; auto.
  - destruct (proj1 Hs (mk_is_Some _ _ eq_refl)) as [? ?]. discriminate.
  - destruct (proj2 Hs (mk_is_Some _ _ eq_refl)) as [? ?]. discriminate.
Qed.

Lemma measure_same (clock1 clock2 : nat -> R) (func : algo) (n trials : Z)
    (w : world (G:=G)) :
  same_run (fun r1 r2 : Z * R * R => r1.1.1 = r2.1.1)
    (measure randint clock1 fuel func n trials w)
    (measure randint clock2 fuel func n trials w).
Proof.
  unfold measure.
  apply (same_run_bind (fun a b : list R => length a = length b));
    [apply run_trials_same; reflexivity|]. intros t1 t2 w1 Hl.
  apply (same_run_bind (fun _ _ => True)); [apply lift_stat_same, mean_same, Hl|].
  intros a1 a2 w2 _.
  apply (same_run_bind (fun _ _ => True)).
  { apply lift_stat_same. unfold pstdev.
    pose proof (mean_same t1 t2 Hl) as Hm.
    destruct (mean t1), (mean t2); split; intros Hs; eauto.
    - destruct (proj1 Hm (mk_is_Some _ _ eq_refl)) as [? ?]. discriminate.
    - destruct (proj2 Hm (mk_is_Some _ _ eq_refl)) as [? ?]. discriminate. }
  intros s1 s2 w3 _. simpl. auto.
Qed.

Lemma measured_sizes_insert (r1 r2 : gmap string (list (Z * R * R)))
    (name : string) (rows1 rows2 : list (Z * R * R)) (row1 row2 : Z * R * R) :
  (forall nm, measured_sizes r1 nm = measured_sizes r2 nm) ->
  r1 !! name = Some rows1 -> r2 !! name = Some rows2 -> row1.1.1 = row2.1.1 ->
  forall nm, measured_sizes (<[name := rows1 ++ [row1]]> r1) nm
             = measured_sizes (<[name := rows2 ++ [row2]]> r2) nm.
Proof.
  intros Hr E1 E2 Hrow nm. unfold measured_sizes.
  destruct (decide (name = nm)) as [->|Hne].
  - rewrite !lookup_insert_eq, !fmap_app. simpl. rewrite Hrow.
    specialize (Hr nm). unfold measured_sizes in Hr. rewrite E1, E2 in Hr.
    injection Hr as ->. reflexivity.
  - rewrite !lookup_insert_ne by exact Hne. apply (Hr nm).
Qed.

Lemma run_sizes_same (clock1 clock2 : nat -> R) (name : string) (func : algo)
    (trials : Z) (ns : list Z) :
  forall (r1 r2 : gmap string (list (Z * R * R))) (w : world (G:=G)),
    (forall nm, measured_sizes r1 nm = measured_sizes r2 nm) ->
    same_run (fun a b => forall nm, measured_sizes a nm = measured_sizes b nm)
      (run_sizes randint clock1 fuel name func ns trials r1 w)
      (run_sizes randint clock2 fuel name func ns trials r2 w).
Proof.
  induction ns as [|n ns IH]; intros r1 r2 w Hr; [simpl; auto|].
  cbn [run_sizes].
  apply (same_run_bind (fun a b : Z * R * R => a.1.1 = b.1.1)); [apply measure_same|].
  intros row1 row2 w1 Hrow.
  pose proof (Hr name) as Hn. unfold measured_sizes in Hn.
  destruct (r1 !! name) as [rows1|] eqn:E1, (r2 !! name) as [rows2|] eqn:E2;
    try discriminate; [|reflexivity].
  apply IH. apply measured_sizes_insert; assumption.
Qed.

Lemma run_algos_same (clock1 clock2 : nat -> R) (sizes : list Z) (trials : Z)
    (fs : list (string * algo)) :
  forall (r1 r2 : gmap string (list (Z * R * R))) (w : world (G:=G)),
    (forall nm, measured_sizes r1 nm = measured_sizes r2 nm) ->
    same_run (fun a b => forall nm, measured_sizes a nm = measured_sizes b nm)
      (run_algos randint clock1 fuel fs sizes trials r1 w)
      (run_algos randint clock2 fuel fs sizes trials r2 w).
Proof.
  induction fs as [|[name func] fs IH]; intros r1 r2 w Hr; [simpl; auto|].
  cbn [run_algos].
  apply (same_run_bind (fun a b => forall nm, measured_sizes a nm = measured_sizes b nm));
    [apply run_sizes_same, Hr|].
  intros a b w1 Hab. apply IH, Hab.
Qed.

(** What a run of [run_experiments] leaves behind does not depend on the
    clock or on the state of the generator before the call: two runs with
    the same seed, sizes and trials end with the same error, or with the
    same lists generated and sorted, the same state of the generator and
    rows for the same sizes. *)
Theorem runs_reproducible (clock1 clock2 : nat -> R) (sizes : option (list Z))
    (trials : Z) (outdir : option string) (seed : Z) (w : world (G:=G)) (g : G) :
  same_run (fun a b => forall nm, measured_sizes a nm = measured_sizes b nm)
    (run_experiments seed_rng randint clock1 fuel sizes trials outdir seed w)
    (run_experiments seed_rng randint clock2 fuel sizes trials outdir seed
       {| heap := heap w; gen := g; ticks := ticks w |}).
Proof. unfold run_experiments. cbn [heap gen ticks]. apply run_algos_same. reflexivity. Qed.

End HarnessExtras.

(** ** The table and the chart *)

Section TableFacts.
Context {G : Type} (seed_rng : Z -> G) (randint : G -> Z -> Z -> Z * G).
Context (clock : nat -> R) (fuel : nat).

Lemma csv_keys_rows_from (fmt8 : R -> string) (name : string) (k t0 : nat) (ns : list Z) :
  take 2 <$> ((fun row : Z * R * R =>
                 [CStr name; CInt row.1.1; CStr (fmt8 row.1.2); CStr (fmt8 row.2)])
              <$> rows_from clock k t0 ns)
  = (fun n => [CStr name; CInt n]) <$> ns.
Proof.
  revert t0. induction ns as [|n ns IH]; intros t0; [reflexivity|].
  simpl. rewrite IH. reflexivity.
Qed.

Lemma csv_rows_of_names (fmt8 : R -> string) (results : gmap string (list (Z * R * R)))
    (sizes : list Z) (k : nat) (names : list string) :
  (forall name, name ∈ names ->
     exists t0, results !! name = Some (rows_from clock k t0 (sizes_to_run name sizes))) ->
  let body := flat_map (fun name =>
                (fun row : Z * R * R =>
                   [CStr name; CInt row.1.1; CStr (fmt8 row.1.2); CStr (fmt8 row.2)])
                <$> default [] (results !! name)) names in
  take 2 <$> body
  = flat_map (fun name => (fun n => [CStr name; CInt n]) <$> sizes_to_run name sizes) names /\
  List.Forall (fun row => length row = 4%nat) body.
Proof.
  induction names as [|name names IH]; intros Hin; [split; [reflexivity | constructor]|].
  destruct (Hin name) as [t0 E]; [left|].
  destruct IH as [IH1 IH2]; [intros nm Hnm; apply Hin; right; exact Hnm|].
  simpl. rewrite E. simpl. split.
  - rewrite fmap_app, csv_keys_rows_from. f_equal. exact IH1.
  - apply List.Forall_app. split; [|exact IH2].
    apply List.Forall_forall. intros row Hrow.
    apply list_elem_of_In, list_elem_of_fmap in Hrow. destruct Hrow as (r & -> & _).
    reflexivity.
Qed.

(** After a run with a positive number of trials the table written to
    [results.csv] is the header followed by one row of four cells for
    each measured pair of algorithm and size, the algorithms in the order
    Bubble, Insertion, Merge, Quick, Timsort and the sizes of each in the
    order requested. *)
Theorem csv_table_rows (sizes : option (list Z)) (trials : Z)
    (outdir : option string) (seed : Z) (w : world (G:=G)) :
  0 < trials ->
  (forall n, n ∈ default default_sizes sizes -> (Z.to_nat n < fuel)%nat) ->
  exists results w',
    run_experiments seed_rng randint clock fuel sizes trials outdir seed w
    = HDone results w' /\
    forall fmt8 : R -> string,
      head (csv_rows fmt8 results) = Some csv_header /\
      take 2 <$> tail (csv_rows fmt8 results)
      = flat_map (fun name => (fun n => [CStr name; CInt n])
                              <$> sizes_to_run name (default default_sizes sizes))
                 algos.*1 /\
      List.Forall (fun row => length row = 4%nat) (csv_rows fmt8 results) /\
      length (csv_rows fmt8 results)
      = (1 + 2 * length (List.filter (fun s => (s <=? 1024)%Z) (default default_sizes sizes))
           + 3 * length (default default_sizes sizes))%nat.
Proof.
  intros Ht Hf.
  destruct (run_experiments_ok seed_rng randint clock fuel sizes trials outdir seed w Ht Hf)
    as (results & w' & Hrun & Hin & _).
  exists results, w'. split; [exact Hrun|]. intros fmt8.
  destruct (csv_rows_of_names fmt8 results (default default_sizes sizes)
              (Z.to_nat trials) algos.*1 Hin) as [Hk H4].
  unfold csv_rows. split; [reflexivity|]. split; [exact Hk|].
  split; [constructor; [reflexivity | exact H4]|].
  cbn [length]. apply (f_equal length) in Hk. rewrite length_fmap in Hk.
  rewrite Hk. simpl. rewrite !length_app, !length_fmap. simpl.
  change (sizes_to_run "Bubble" (default default_sizes sizes))
    with (List.filter (fun s => s <=? 1024) (default default_sizes sizes)).
  change (sizes_to_run "Insertion" (default default_sizes sizes))
    with (List.filter (fun s => s <=? 1024) (default default_sizes sizes)).
  change (sizes_to_run "Merge" (default default_sizes sizes))
    with (default default_sizes sizes).
  change (sizes_to_run "Quick" (default default_sizes sizes))
    with (default default_sizes sizes).
  change (sizes_to_run "Timsort" (default default_sizes sizes))
    with (default default_sizes sizes).
  lia.
Qed.

Lemma plot_series_of_names (results : gmap string (list (Z * R * R)))
    (sizes : list Z) (k : nat) (names : list string) :
  (forall name, name ∈ names ->
     exists t0, results !! name = Some (rows_from clock k t0 (sizes_to_run name sizes))) ->
  let series := flat_map (fun name =>
                  match default [] (results !! name) with
                  | [] => []
                  | data =>
                      [(name,
                        (fun row : Z * R * R => row.1.1) <$> data,
                        (fun row : Z * R * R => row.1.2) <$> data,
                        (fun row : Z * R * R => row.2) <$> data)]
                  end) names in
  (fun p : string * list Z * list R * list R => p.1.1.1) <$> series
  = List.filter (fun name => match sizes_to_run name sizes with [] => false | _ => true end)
      names /\
  List.Forall (fun p : string * list Z * list R * list R =>
                 p.1.1.2 = sizes_to_run p.1.1.1 sizes /\ p.1.1.2 <> [] /\
                 length p.1.2 = length p.1.1.2 /\ length p.2 = length p.1.1.2) series.
Proof.
  induction names as [|name names IH]; intros Hin; [split; [reflexivity | constructor]|].
  destruct (Hin name) as [t0 E]; [left|].
  destruct IH as [IH1 IH2]; [intros nm Hnm; apply Hin; right; exact Hnm|].
  simpl. rewrite E. simpl.
  pose proof (rows_from_sizes clock k t0 (sizes_to_run name sizes)) as Hs.
  destruct (sizes_to_run name sizes) as [|n ns] eqn:En; simpl; [split; assumption|].
  split; [f_equal; exact IH1|].
  constructor; [|exact IH2]. simpl in Hs. simpl.
  injection Hs as Hs. rewrite En, Hs, !length_fmap.
  split; [reflexivity|]. split; [discriminate|].
  rewrite <- Hs at 2 4. rewrite length_fmap. split; reflexivity.
Qed.

(** After a run with a positive number of trials the chart has one line
    for each algorithm that was measured at one size at least, with as
    many times and error bars as sizes; an algorithm without a measured
    size, as Bubble and Insertion when every size exceeds 1024, gets no
    line. *)
Theorem chart_lines (sizes : option (list Z)) (trials : Z)
    (outdir : option string) (seed : Z) (w : world (G:=G)) :
  0 < trials ->
  (forall n, n ∈ default default_sizes sizes -> (Z.to_nat n < fuel)%nat) ->
  exists results w',
    run_experiments seed_rng randint clock fuel sizes trials outdir seed w
    = HDone results w' /\
    (fun p : string * list Z * list R * list R => p.1.1.1) <$> plot_series results
    = List.filter
        (fun name => match sizes_to_run name (default default_sizes sizes) with
                     | [] => false
                     | _ => true
                     end) algos.*1 /\
    List.Forall (fun p : string * list Z * list R * list R =>
                   p.1.1.2 = sizes_to_run p.1.1.1 (default default_sizes sizes) /\
                   p.1.1.2 <> [] /\
                   length p.1.2 = length p.1.1.2 /\ length p.2 = length p.1.1.2)
      (plot_series results).
Proof.
  intros Ht Hf.
  destruct (run_experiments_ok seed_rng randint clock fuel sizes trials outdir seed w Ht Hf)
    as (results & w' & Hrun & Hin & _).
  exists results, w'. split; [exact Hrun|].
  exact (plot_series_of_names results (default default_sizes sizes)
           (Z.to_nat trials) algos.*1 Hin).
Qed.

End TableFacts.

Lemma csv_table_rows_witness :
  exists results w',
    run_experiments (fun _ => tt) example_randint example_clock 3000
      (Some [128; 2048]) 3 None 0 example_world
    = HDone results w' /\
    forall fmt8 : R -> string,
      head (csv_rows fmt8 results) = Some csv_header /\
      take 2 <$> tail (csv_rows fmt8 results)
      = flat_map (fun name => (fun n => [CStr name; CInt n])
                              <$> sizes_to_run name (default default_sizes (Some [128; 2048])))
                 algos.*1 /\
      List.Forall (fun row => length row = 4%nat) (csv_rows fmt8 results) /\
      length (csv_rows fmt8 results)
      = (1 + 2 * length (List.filter (fun s => (s <=? 1024)%Z)
                           (default default_sizes (Some [128%Z; 2048%Z])))
           + 3 * length (default default_sizes (Some [128%Z; 2048%Z])))%nat.
Proof.
  apply (csv_table_rows (fun _ => tt) example_randint example_clock 3000
           (Some [128; 2048]) 3 None 0 example_world).
  - lia.
  - intros n Hn. simpl in Hn.
    repeat (apply elem_of_cons in Hn; destruct Hn as [->|Hn]; [lia|]).
    inversion Hn.
Defined.

Lemma chart_lines_witness :
  exists results w',
    run_experiments (fun _ => tt) example_randint example_clock 3000
      (Some [2048]) 3 None 0 example_world
    = HDone results w' /\
    (fun p : string * list Z * list R * list R => p.1.1.1) <$> plot_series results
    = List.filter
        (fun name => match sizes_to_run name (default default_sizes (Some [2048])) with
                     | [] => false
                     | _ => true
                     end) algos.*1 /\
    List.Forall (fun p : string * list Z * list R * list R =>
                   p.1.1.2 = sizes_to_run p.1.1.1 (default default_sizes (Some [2048])) /\
                   p.1.1.2 <> [] /\
                   length p.1.2 = length p.1.1.2 /\ length p.2 = length p.1.1.2)
      (plot_series results).
Proof.
  apply (chart_lines (fun _ => tt) example_randint example_clock 3000
           (Some [2048]) 3 None 0 example_world).
  - lia.
  - intros n Hn. simpl in Hn.
    repeat (apply elem_of_cons in Hn; destruct Hn as [->|Hn]; [lia|]).
    inversion Hn.
Defined.

(** ** The sizes that [main] passes on *)

Lemma pow2_range_nonneg (k : nat) :
  forall lo hi : Z,
    Z.to_nat (hi - lo) = k -> 0 <= lo ->
    pow2 <$> range lo hi = (fun p => PyInt (2 ^ p)) <$> range lo hi.
Proof.
  induction k as [|k IH]; intros lo hi Hk Hlo.
  - rewrite range_nil by lia. reflexivity.
  - rewrite range_cons by lia. rewrite !fmap_cons, (IH (lo + 1) hi) by lia.
    f_equal. unfold pow2. destruct (Z.leb_spec 0 lo); [reflexivity | lia].
Qed.

(** When the arguments parse and [--min-power] is not negative, [main]
    calls [run_experiments] with the integers [2 ** p] for the powers
    from [min_power] to [max_power], one for each power, and with the
    trials, seed and directory of the command line. *)
Theorem main_sizes_are_powers (argv : list string) (args : namespace) :
  parse_args argv = ParseOk args -> 0 <= min_power args ->
  exists c,
    main argv = Runs c /\
    call_sizes c = (fun p => PyInt (2 ^ p)) <$> range (min_power args) (max_power args + 1) /\
    length (call_sizes c) = Z.to_nat (max_power args + 1 - min_power args) /\
    call_trials c = trials args /\ call_seed c = seed args /\ call_outdir c = outdir args.
Proof.
  intros E Hmin. eexists. split.
  { apply (main_parsed argv args E). right.
    assert (- 2 ^ 1023 <= 0) as Hb by (apply Z.opp_nonpos_nonneg, Z.pow_nonneg; lia).
    remember (- 2 ^ 1023) as b. lia. }
  cbn [call_sizes call_trials call_seed call_outdir].
  rewrite (pow2_range_nonneg _ _ _ eq_refl Hmin).
  split; [reflexivity|]. split; [|auto]. rewrite length_fmap. apply range_length.
Qed.

Lemma main_sizes_are_powers_witness :
  exists c,
    main ["--min-power=2"; "--max"; "1_0"]%string = Runs c /\
    call_sizes c = (fun p => PyInt (2 ^ p)) <$> range 2 (10 + 1) /\
    length (call_sizes c) = Z.to_nat (10 + 1 - 2) /\
    call_trials c = 3 /\ call_seed c = 0 /\ call_outdir c = None.
Proof.
  apply (main_sizes_are_powers ["--min-power=2"; "--max"; "1_0"]%string
           {| min_power := 2; max_power := 10; trials := 3; seed := 0; outdir := None |}).
  - reflexivity.
  - simpl. lia.
Defined.



(** ** The further properties at concrete inputs *)

Lemma sorted_input_returned_witness :
  returns_fresh (sort_with 4 Quick 0%nat) {[ 0%nat := [1; 2; 2] ]} [1; 2; 2].
Proof.
  apply (sorted_input_returned {[ 0%nat := [1; 2; 2] ]} 0%nat [1; 2; 2] 4 Quick).
  - reflexivity.
  - simpl. lia.
  - repeat (constructor; try reflexivity).
Defined.

Lemma decreasing_input_reversed_witness :
  returns_fresh (sort_with 4 Bubble 0%nat) {[ 0%nat := [3; 2; 1] ]} (rev [3; 2; 1]).
Proof.
  apply (decreasing_input_reversed {[ 0%nat := [3; 2; 1] ]} 0%nat [3; 2; 1] 4 Bubble).
  - reflexivity.
  - simpl. lia.
  - repeat (constructor; try reflexivity).
Defined.

Lemma sort_twice_witness :
  returns_fresh (sort_with 8 Merge 0%nat ≫= sort_with 8 Quick) example_store
    (sorted example_list) /\
  exists r1 s1 r2 s2,
    sort_with 8 Merge 0%nat example_store = Done r1 s1 /\
    sort_with 8 Quick r1 s1 = Done r2 s2 /\
    (sort_with 8 Merge 0%nat ≫= sort_with 8 Quick) example_store = Done r2 s2 /\
    example_store !! r1 = None /\ s1 !! r1 = Some (sorted example_list) /\
    s1 !! r2 = None /\ r2 <> r1 /\ r2 <> 0%nat /\ r1 <> 0%nat /\
    s2 !! r2 = Some (sorted example_list) /\
    s2 !! r1 = Some (sorted example_list) /\
    s2 !! 0%nat = Some example_list /\
    example_store ⊆ s1 /\ s1 ⊆ s2.
Proof.
  apply (sort_twice example_store 0%nat example_list 8 Merge Quick).
  - reflexivity.
  - simpl. lia.
Defined.

Lemma bubble_flag_iff_sorted_witness :
  exists brk s',
    bubble_pass 0%nat (Z.of_nat (length example_list)) (Z.of_nat 0)
      (<[0%nat := example_list]> ∅) = Done brk s' /\
    (brk = true <-> StronglySorted le_rel (take (length example_list - 0) example_list)) /\
    (brk = true -> s' = <[0%nat := example_list]> ∅).
Proof. exact (bubble_flag_iff_sorted 0%nat ∅ example_list 0). Defined.

Lemma insertion_sort_best_case_witness :
  returns_fresh (insertion_sort 1 0%nat) {[ 0%nat := [1; 2; 2; 5] ]} [1; 2; 2; 5].
Proof.
  apply (insertion_sort_best_case {[ 0%nat := [1; 2; 2; 5] ]} 0%nat [1; 2; 2; 5]).
  - reflexivity.
  - repeat (constructor; try reflexivity).
Defined.

Lemma merge_any_lists_witness :
  exists out s' v,
    _merge 4 0%nat 1%nat (<[0%nat := [3; 1]]> {[ 1%nat := [2] ]}) = Done out s' /\
    (<[0%nat := [3; 1]]> {[ 1%nat := [2] ]} : gmap loc (list Z)) !! out = None /\
    s' !! out = Some v /\
    (<[0%nat := [3; 1]]> {[ 1%nat := [2] ]} : gmap loc (list Z)) ⊆ s' /\
    Permutation ([3; 1] ++ [2]) v /\
    (StronglySorted le_rel [3; 1] -> StronglySorted le_rel [2] -> StronglySorted le_rel v) /\
    ([3; 1] = [] -> v = [2]) /\ ([2] = [] -> v = [3; 1]).
Proof.
  apply (merge_any_lists 4 0%nat 1%nat [3; 1] [2] (<[0%nat := [3; 1]]> {[ 1%nat := [2] ]})).
  - reflexivity.
  - reflexivity.
  - simpl. lia.
Defined.

Lemma check_all_equal_passes_witness :
  check_all_equal 8 0%nat example_store = Passed.
Proof.
  apply (check_all_equal_passes example_store 0%nat example_list 8).
  - reflexivity.
  - simpl. lia.
Defined.

Lemma original_unchanged_holds_witness :
  exists s', original_unchanged 8 0%nat example_store = Done true s' /\ example_store ⊆ s'.
Proof.
  apply (original_unchanged_holds example_store 0%nat example_list 8).
  - reflexivity.
  - simpl. lia.
Defined.

Lemma no_trials_no_statistics_witness :
  run_experiments (fun _ => tt) example_randint example_clock 10 (Some [4]) 0 None 0
    example_world
  = match default default_sizes (Some [4]) with
    | [] => HDone (list_to_map ((fun nf : string * algo => (nf.1, [])) <$> algos))
              {| heap := heap example_world; gen := tt; ticks := ticks example_world |}
    | _ => HFail StatisticsError
    end.
Proof.
  apply (no_trials_no_statistics (fun _ => tt) example_randint 10 example_clock
           (Some [4]) 0 None 0 example_world).
  lia.
Defined.
